(** * hydrz/ipam: CIDR arithmetic and the pool hierarchy builder

    A shallow embedding of [src/lib/ip-utils.ts] and of the two pure
    computations of [src/components/IPAMManager.tsx] ([buildPoolTree] and
    [validateCIDR]), followed by the properties of the specification. *)

From Stdlib Require Import ZArith String Ascii List Lia Bool DecimalString.
From stdpp Require Import gmap strings list.

Local Open Scope Z_scope.

(** ** The JavaScript primitives the sources use *)

Module JS.

(** A JavaScript number.  [Int z] is the double that holds the integer [z]
    exactly (so [|z| <= 2^53]; the two zeros are not told apart, no operation
    used here separates them).  [Untracked] is a number whose value the
    embedding does not follow: a fraction, an infinity, or an integer beyond
    2^53.  Nothing is ever concluded from [Untracked]. *)
Inductive number : Type :=
| NaN
| Int (z : Z)
| Untracked.

Definition norm (z : Z) : number :=
  if Z.abs z <=? 2 ^ 53 then Int z else Untracked.

(** ToInt32 and ToUint32 of ECMAScript on integers. *)
Definition ToUint32 (z : Z) : Z := z mod 2 ^ 32.

Definition ToInt32 (z : Z) : Z :=
  let m := z mod 2 ^ 32 in if m <? 2 ^ 31 then m else m - 2 ^ 32.

(** [undefined] and [NaN] convert to 0. *)
Definition toInt32 (x : number) : option Z :=
  match x with
  | NaN => Some 0
  | Int z => Some (ToInt32 z)
  | Untracked => None
  end.

Definition toUint32 (x : number) : option Z :=
  match x with
  | NaN => Some 0
  | Int z => Some (ToUint32 z)
  | Untracked => None
  end.

(** [x << n]: a signed 32-bit result. *)
Definition shl (x n : number) : number :=
  match toInt32 x, toUint32 n with
  | Some a, Some k => Int (ToInt32 (Z.shiftl a (k mod 32)))
  | _, _ => Untracked
  end.

(** [x >>> n]: an unsigned 32-bit result. *)
Definition ushr (x n : number) : number :=
  match toUint32 x, toUint32 n with
  | Some a, Some k => Int (Z.shiftr a (k mod 32))
  | _, _ => Untracked
  end.

(** [x & y], [x | y] and [~x] on signed 32-bit operands. *)
Definition band (x y : number) : number :=
  match toInt32 x, toInt32 y with
  | Some a, Some b => Int (Z.land a b)
  | _, _ => Untracked
  end.

Definition bor (x y : number) : number :=
  match toInt32 x, toInt32 y with
  | Some a, Some b => Int (Z.lor a b)
  | _, _ => Untracked
  end.

Definition bnot (x : number) : number :=
  match toInt32 x with
  | Some a => Int (Z.lnot a)
  | None => Untracked
  end.

(** [x + y] and [x - y] on numbers. *)
Definition add (x y : number) : number :=
  match x, y with
  | NaN, _ | _, NaN => NaN
  | Int a, Int b => norm (a + b)
  | _, _ => Untracked
  end.

Definition sub (x y : number) : number :=
  match x, y with
  | NaN, _ | _, NaN => NaN
  | Int a, Int b => norm (a - b)
  | _, _ => Untracked
  end.

(** [Math.pow(2, x)]. *)
Definition pow2 (x : number) : number :=
  match x with
  | NaN => NaN
  | Int e => if (0 <=? e) && (e <=? 53) then Int (2 ^ e) else Untracked
  | Untracked => Untracked
  end.

(** [x <= y] and [x >= y]; a comparison with [NaN] is false. *)
Definition le (x y : number) : option bool :=
  match x, y with
  | NaN, _ | _, NaN => Some false
  | Int a, Int b => Some (a <=? b)
  | _, _ => None
  end.

Definition ge (x y : number) : option bool := le y x.

(** Strings are sequences of code units; the embedding covers the units
    below 256. *)
Definition isDigit (c : ascii) : bool :=
  let n := Z.of_nat (nat_of_ascii c) in (48 <=? n) && (n <=? 57).

Definition digitVal (c : ascii) : Z := Z.of_nat (nat_of_ascii c) - 48.

(** White space and line terminators of ECMAScript among the units below
    256: TAB, LF, VT, FF, CR, SP and NBSP. *)
Definition isWhite (c : ascii) : bool :=
  let n := Z.of_nat (nat_of_ascii c) in
  ((9 <=? n) && (n <=? 13)) || (n =? 32) || (n =? 160).

Fixpoint digitsAcc (acc : Z) (s : string) : Z :=
  match s with
  | EmptyString => acc
  | String c s' => digitsAcc (acc * 10 + digitVal c) s'
  end.

Definition digitsVal (s : string) : Z := digitsAcc 0 s.

Fixpoint takeWhile (f : ascii -> bool) (s : string) : string :=
  match s with
  | EmptyString => EmptyString
  | String c s' => if f c then String c (takeWhile f s') else EmptyString
  end.

Fixpoint dropWhile (f : ascii -> bool) (s : string) : string :=
  match s with
  | EmptyString => EmptyString
  | String c s' => if f c then dropWhile f s' else s
  end.

Fixpoint rev (s : string) : string :=
  match s with
  | EmptyString => EmptyString
  | String c s' => rev s' +:+ String c EmptyString
  end.

Definition trim (s : string) : string :=
  rev (dropWhile isWhite (rev (dropWhile isWhite s))).

(** [s.split(sep)] for a separator of one unit. *)
Fixpoint split (sep : ascii) (s : string) : list string :=
  match s with
  | EmptyString => [EmptyString]
  | String c s' =>
      if Ascii.eqb c sep then EmptyString :: split sep s'
      else match split sep s' with
           | p :: ps => String c p :: ps
           | [] => [String c EmptyString]
           end
  end.

(** [parts.join(sep)] on strings. *)
Fixpoint join (sep : string) (parts : list string) : string :=
  match parts with
  | [] => EmptyString
  | [p] => p
  | p :: ps => p +:+ sep +:+ join sep ps
  end.

Definition stripSign (s : string) : Z * string :=
  match s with
  | String "-" u => (-1, u)
  | String "+" u => (1, u)
  | _ => (1, s)
  end.

(** [parseInt(s, 10)]: leading white space is skipped, a sign is read, then
    the longest run of decimal digits; whatever follows is ignored.  [None]
    is NaN.  [Some z] is the integer the digits denote; JavaScript returns
    the double nearest to it, which differs from [z] only beyond 2^53 and
    compares with every integer below 2^53 as [z] does. *)
Definition parseInt (s : string) : option Z :=
  let '(sign, u) := stripSign (dropWhile isWhite s) in
  match takeWhile isDigit u with
  | EmptyString => None
  | ds => Some (sign * digitsVal ds)
  end.

(** The value of [parseInt] as a number.  An absent argument ([undefined])
    reads as the text "undefined", which has no digits. *)
Definition parseIntN (s : option string) : number :=
  match s with
  | None => NaN
  | Some s => match parseInt s with None => NaN | Some z => norm z end
  end.

Definition inb (c : ascii) (l : list ascii) : bool := existsb (Ascii.eqb c) l.

(** [Number(s)].  The text is trimmed; the empty text is 0; a signed run of
    decimal digits is its value; a text that may be one of the other numeric
    literals (digits continued by a fraction or an exponent, 0 continued by
    a radix letter, a text starting like Infinity or like a fraction) is
    left [Untracked]; anything else is NaN. *)
Definition Number_ (s : string) : number :=
  match trim s with
  | EmptyString => Int 0
  | t =>
      let '(sign, u) := stripSign t in
      match takeWhile isDigit u, dropWhile isDigit u with
      | EmptyString, EmptyString => NaN
      | EmptyString, String c _ =>
          if inb c ["I"; "."]%char then Untracked else NaN
      | ds, EmptyString => norm (sign * digitsVal ds)
      | ds, String c _ =>
          if inb c ["."; "e"; "E"]%char then Untracked
          else if String.eqb ds "0" && inb c ["x"; "X"; "o"; "O"; "b"; "B"]%char
               then Untracked
               else NaN
      end
  end.

(** Number to string, for NaN and for integers (below 10^21 in magnitude,
    where JavaScript prints plain decimal digits). *)
Definition show (z : Z) : string := NilZero.string_of_int (Z.to_int z).

Definition toString (x : number) : option string :=
  match x with
  | NaN => Some "NaN"%string
  | Int z => Some (show z)
  | Untracked => None
  end.

End JS.

(** ** [src/lib/ip-utils.ts] *)

Module IpUtils.
Import JS.

(** A pool as the tree builder and the validation read it; [description]
    and [createdAt] are carried along untouched and are left out.  The id
    is the integer key of the table row. *)
Record IPPool : Type := mkPool {
  id : Z;
  name : string;
  cidr : string;
  parentId : option Z   (* [None] is null (or undefined, for the tree builder) *)
}.

Record CIDRInfo : Type := mkInfo {
  networkAddress : option string;   (* [None]: text of an untracked number *)
  broadcastAddress : option string;
  firstIp : option string;
  lastIp : option string;
  totalIps : number;
  prefix : number
}.

(** A missing array element is [undefined]: it shifts as 0 and adds as NaN,
    as [NaN] does. *)
Definition ipToNumber (ip : string) : number :=
  let parts := map Number_ (split "." ip) in
  let part (i : nat) := nth i parts NaN in
  add (add (add (shl (part 0%nat) (Int 24)) (shl (part 1%nat) (Int 16)))
           (shl (part 2%nat) (Int 8)))
      (part 3%nat).

Definition numberToIp (num : number) : option string :=
  parts ← mapM toString
    [ band (ushr num (Int 24)) (Int 255);
      band (ushr num (Int 16)) (Int 255);
      band (ushr num (Int 8)) (Int 255);
      band num (Int 255) ];
  Some (join "." parts).

Definition isValidIp (ip : string) : bool :=
  let parts := split "." ip in
  if negb (length parts =? 4)%nat then false
  else forallb (fun part =>
         match parseInt part with
         | None => false
         | Some num => (0 <=? num) && (num <=? 255)
         end) parts.

Definition isValidCIDR (cidr : string) : bool :=
  match split "/" cidr with
  | [ip; prefix] =>
      isValidIp ip &&
      match parseInt prefix with
      | None => false
      | Some prefixNum => (8 <=? prefixNum) && (prefixNum <=? 32)
      end
  | _ => false
  end.

(** The text of a number that may be untracked, read back as a number. *)
Definition ipToNumber' (ip : option string) : number :=
  match ip with
  | Some s => ipToNumber s
  | None => Untracked
  end.

(** The local [mask] of [parseCIDR] and [getNetworkAddress]. *)
Definition maskOf (prefix : number) : number :=
  ushr (shl (Int (-1)) (sub (Int 32) prefix)) (Int 0).

Definition parseCIDR (cidr : string) : CIDRInfo :=
  let parts := split "/" cidr in
  let ip := nth 0 parts EmptyString in
  let prefixStr := parts !! 1%nat in
  let prefix := parseIntN prefixStr in
  let ipNum := ipToNumber ip in
  let mask := maskOf prefix in
  let network := ushr (band ipNum mask) (Int 0) in
  let broadcast := ushr (bor network (bnot mask)) (Int 0) in
  {| networkAddress := numberToIp network;
     broadcastAddress := numberToIp broadcast;
     firstIp := numberToIp (add network (Int 1));
     lastIp := numberToIp (sub broadcast (Int 1));
     totalIps := pow2 (sub (Int 32) prefix);
     prefix := prefix |}.

Definition cidrsOverlap (cidr1 cidr2 : string) : option bool :=
  let range1 := parseCIDR cidr1 in
  let range2 := parseCIDR cidr2 in
  let start1 := ipToNumber' (networkAddress range1) in
  let end1 := ipToNumber' (broadcastAddress range1) in
  let start2 := ipToNumber' (networkAddress range2) in
  let end2 := ipToNumber' (broadcastAddress range2) in
  b ← le start1 end2;
  if b : bool then ge end1 start2 else Some false.

Definition isChildOfParent (childCidr parentCidr : string) : option bool :=
  let child := parseCIDR childCidr in
  let parent := parseCIDR parentCidr in
  let childStart := ipToNumber' (networkAddress child) in
  let childEnd := ipToNumber' (broadcastAddress child) in
  let parentStart := ipToNumber' (networkAddress parent) in
  let parentEnd := ipToNumber' (broadcastAddress parent) in
  b ← ge childStart parentStart;
  if b : bool then le childEnd parentEnd else Some false.

Definition getNetworkAddress (ip : string) (prefix : number) : option string :=
  let ipNum := ipToNumber ip in
  let mask := maskOf prefix in
  let network := ushr (band ipNum mask) (Int 0) in
  numberToIp network.

Definition normalizeCIDR (cidr : string) : option string :=
  let parts := split "/" cidr in
  let ip := nth 0 parts EmptyString in
  let prefix := parseIntN (parts !! 1%nat) in
  network ← getNetworkAddress ip prefix;
  p ← toString prefix;
  Some (network +:+ "/" +:+ p).

End IpUtils.

(** ** [buildPoolTree] and [validateCIDR] of [src/components/IPAMManager.tsx] *)

Module Manager.
Import JS IpUtils.

(** A tree node is a mutable object shared between [poolMap], [rootNodes]
    and the [children] arrays.  The store is [poolMap] itself: after its
    initialisation every live node is the value of its pool's id, so a
    reference to a node is that id. *)
Record PoolTreeNode : Type := mkNode {
  pool : IPPool;
  children : list Z;
  totalIps : number;
  usedIps : number;
  level : number
}.

Definition setLevel (l : number) (n : PoolTreeNode) : PoolTreeNode :=
  {| pool := pool n; children := children n; totalIps := totalIps n;
     usedIps := usedIps n; level := l |}.

Definition pushChild (c : Z) (n : PoolTreeNode) : PoolTreeNode :=
  {| pool := pool n; children := children n ++ [c]; totalIps := totalIps n;
     usedIps := usedIps n; level := level n |}.

Definition setUsedIps (u : number) (n : PoolTreeNode) : PoolTreeNode :=
  {| pool := pool n; children := children n; totalIps := totalIps n;
     usedIps := u; level := level n |}.

(** The outcome of a run: a value, a TypeError (a property read on
    [undefined]), or the step budget of the embedding used up. *)
Inductive result (A : Type) : Type :=
| Done (a : A)
| TypeError
| OutOfFuel.
Arguments Done {A} a.
Arguments TypeError {A}.
Arguments OutOfFuel {A}.

#[global] Instance result_ret : MRet result := fun A a => Done a.

#[global] Instance result_bind : MBind result := fun A B k m =>
  match m with
  | Done a => k a
  | TypeError => TypeError
  | OutOfFuel => OutOfFuel
  end.

(** [xs.forEach(f)] threading the store. *)
Fixpoint forEach {S B : Type} (f : S -> B -> result S) (xs : list B) (s : S)
  : result S :=
  match xs with
  | [] => Done s
  | x :: xs' => s' ← f s x; forEach f xs' s'
  end.

(** First loop: one fresh node per pool, stored under the pool's id. *)
Definition initNode (poolMap : gmap Z PoolTreeNode) (p : IPPool)
  : gmap Z PoolTreeNode :=
  let info := parseCIDR (cidr p) in
  <[id p := {| pool := p; children := []; totalIps := IpUtils.totalIps info;
               usedIps := Int 0; level := Int 0 |}]> poolMap.

(** Second loop body: a root is pushed on [rootNodes]; a pool whose parent
    is in the map gets the parent's current level plus one and is pushed
    on the parent's children; a pool whose parent is not in the map is
    skipped.  The pool's own node is in the map since the first loop; were
    it missing, the first property read on it would raise the TypeError. *)
Definition attach (st : gmap Z PoolTreeNode * list Z) (p : IPPool)
  : result (gmap Z PoolTreeNode * list Z) :=
  let '(poolMap, rootNodes) := st in
  match poolMap !! id p with
  | None => TypeError
  | Some _ =>
      match parentId p with
      | None => Done (poolMap, rootNodes ++ [id p])
      | Some pid =>
          match poolMap !! pid with
          | None => Done (poolMap, rootNodes)
          | Some parent =>
              let poolMap1 :=
                alter (setLevel (add (level parent) (Int 1))) (id p) poolMap in
              Done (alter (pushChild (id p)) pid poolMap1, rootNodes)
          end
      end
  end.

(** The body of the loop over [node.children] in [calculateUsedIps]:
    [used += child.totalIps; child.usedIps = calculateUsedIps(child)],
    with [self] the recursive call. *)
Definition usedStep
    (self : gmap Z PoolTreeNode -> Z -> result (gmap Z PoolTreeNode * number))
    (st : gmap Z PoolTreeNode * number) (child : Z)
  : result (gmap Z PoolTreeNode * number) :=
  let '(h, used) := st in
  match h !! child with
  | None => TypeError
  | Some c =>
      let used' := add used (totalIps c) in
      '(h', u) ← self h child;
      Done (alter (setUsedIps u) child h', used')
  end.

(** [calculateUsedIps]: the recursion follows the [children] arrays of the
    store, so it is bounded by [fuel]. *)
Fixpoint calculateUsedIps (fuel : nat) (h : gmap Z PoolTreeNode) (node : Z)
  : result (gmap Z PoolTreeNode * number) :=
  match fuel with
  | O => OutOfFuel
  | S fuel' =>
      match h !! node with
      | None => TypeError
      | Some nd =>
          '(h1, used) ←
            forEach (usedStep (calculateUsedIps fuel')) (children nd) (h, Int 0);
          Done (alter (setUsedIps used) node h1, used)
      end
  end.

(** [rootNodes.forEach(calculateUsedIps)]: the returned sum is dropped. *)
Definition rootStep (fuel : nat) (h : gmap Z PoolTreeNode) (r : Z)
  : result (gmap Z PoolTreeNode) :=
  '(h', _) ← calculateUsedIps fuel h r; Done h'.

(** [buildPoolTree]: the value handed to [setPoolTree] is [rootNodes]; the
    forest is read through the store returned with it. *)
Definition buildPoolTree (fuel : nat) (allPools : list IPPool)
  : result (gmap Z PoolTreeNode * list Z) :=
  let poolMap := fold_left initNode allPools ∅ in
  '(poolMap, rootNodes) ← forEach attach allPools (poolMap, []);
  h ← forEach (rootStep fuel) rootNodes poolMap;
  Done (h, rootNodes).

(** The nodes of the forest: the roots and, with a node, its children. *)
Inductive inForest (h : gmap Z PoolTreeNode) (roots : list Z) : Z -> Prop :=
| inForest_root r : r ∈ roots -> inForest h roots r
| inForest_child n nd c :
    inForest h roots n -> h !! n = Some nd -> c ∈ children nd ->
    inForest h roots c.

(** The part of the component state [validateCIDR] writes. *)
Record FormState : Type := mkForm {
  formCidr : string;
  validationError : string;
  cidrInfo : option CIDRInfo
}.

(** [cidrExists(cidr)] without [excludeId]: a count over the rows of the
    table. *)
Definition cidrExists (table : list IPPool) (c : string) : bool :=
  existsb (fun row => String.eqb (cidr row) c) table.

Definition overlapMessage (sibling : IPPool) : string :=
  "Overlaps with existing pool: " +:+ name sibling +:+ " (" +:+ cidr sibling
  +:+ ")".

(** The loop over the siblings: the message of the first one that overlaps. *)
Fixpoint firstOverlap (c : string) (siblings : list IPPool)
  : option (option string) :=
  match siblings with
  | [] => Some None
  | sibling :: rest =>
      b ← cidrsOverlap c (cidr sibling);
      if b : bool then Some (Some (overlapMessage sibling))
      else firstOverlap c rest
  end.

(** [validateCIDR(cidr, parentId)] over the [pools] of the component state
    and the rows of the table.  [None]: a value of the run is untracked. *)
Definition validateCIDR (pools table : list IPPool) (c : string)
    (parentId' : option Z) (st : FormState) : option FormState :=
  if String.eqb c EmptyString then
    Some {| formCidr := formCidr st; validationError := EmptyString;
            cidrInfo := None |}
  else if negb (isValidCIDR c) then
    Some {| formCidr := formCidr st;
            validationError := "Invalid CIDR format. Use format like 10.0.0.0/24";
            cidrInfo := None |}
  else
    normalized ← normalizeCIDR c;
    let form := if String.eqb normalized c then formCidr st else normalized in
    let c := normalized in
    let info := parseCIDR c in
    let finish msg :=
      Some {| formCidr := form; validationError := msg;
              cidrInfo := Some info |} in
    if cidrExists table c then finish "This CIDR range already exists"%string
    else
      inside ← match parentId' with
               | None => Some true
               | Some pid =>
                   match List.find (fun p => id p =? pid) pools with
                   | None => Some true
                   | Some parent => isChildOfParent c (cidr parent)
                   end
               end;
      if negb inside
      then finish "Child pool must be within parent pool range"%string
      else
        let siblings :=
          List.filter (fun p => bool_decide (parentId p = parentId')) pools in
        o ← firstOverlap c siblings;
        match o with
        | Some msg => finish msg
        | None => finish EmptyString
        end.

End Manager.

(** ** The vocabulary of the specification *)

Module Spec.
Import JS IpUtils Manager.

Fixpoint allDigits (s : string) : bool :=
  match s with
  | EmptyString => true
  | String c s' => isDigit c && allDigits s'
  end.

(** A decimal numeral: one digit or more and nothing else. *)
Definition isDecimal (s : string) : bool :=
  match s with
  | EmptyString => false
  | _ => allDigits s
  end.

(** A numeral without leading zeros. *)
Definition noLeadingZero (s : string) : bool :=
  match s with
  | String "0" (String _ _) => false
  | _ => true
  end.

Definition isOctet (s : string) : bool := isDecimal s && (digitsVal s <=? 255).

(** The valid IP of the specification: four dot-separated decimal octets,
    each in [0,255], and no other character. *)
Definition isValidIP (ip : string) : bool :=
  match split "." ip with
  | [a; b; c; d] => isOctet a && isOctet b && isOctet c && isOctet d
  | _ => false
  end.

(** The valid CIDR of the specification: one '/', a valid IP before it and
    a decimal prefix in [8,32] after it. *)
Definition isValidCIDR (s : string) : bool :=
  match split "/" s with
  | [ip; p] =>
      isValidIP ip && isDecimal p && (8 <=? digitsVal p) && (digitsVal p <=? 32)
  | _ => false
  end.

(** An IP written with octets that have no leading zeros. *)
Definition isCanonicalIP (ip : string) : bool :=
  isValidIP ip && forallb noLeadingZero (split "." ip).

(** The unsigned 32-bit value of an address, and the closed interval
    [network, broadcast] of a block. *)
Definition addressOf (ip : string) : Z :=
  match map digitsVal (split "." ip) with
  | [a; b; c; d] => a * 2 ^ 24 + b * 2 ^ 16 + c * 2 ^ 8 + d
  | _ => 0
  end.

Definition ipOf (s : string) : string := nth 0 (split "/" s) EmptyString.
Definition prefixOf (s : string) : Z := digitsVal (nth 1 (split "/" s) EmptyString).
Definition sizeOf (s : string) : Z := 2 ^ (32 - prefixOf s).

Definition networkOf (s : string) : Z :=
  addressOf (ipOf s) / sizeOf s * sizeOf s.

Definition broadcastOf (s : string) : Z := networkOf s + sizeOf s - 1.

Definition intervalsMeet (a b : string) : bool :=
  (networkOf a <=? broadcastOf b) && (broadcastOf a >=? networkOf b).

Definition intervalInside (child parent : string) : bool :=
  (networkOf parent <=? networkOf child) &&
  (broadcastOf child <=? broadcastOf parent).

(** The pool with a given id, and a pool's parent chain. *)
Definition poolOf (pools : list IPPool) (i : Z) : option IPPool :=
  List.find (fun p => id p =? i) pools.

Definition hasId (pools : list IPPool) (i : Z) : bool :=
  existsb (fun p => id p =? i) pools.

(** The number of parent hops from pool [i] up to a root, walking at most
    [fuel] hops; [None] when no root is met. *)
Fixpoint depthOf (fuel : nat) (pools : list IPPool) (i : Z) : option Z :=
  match fuel with
  | O => None
  | S fuel' =>
      p ← poolOf pools i;
      match parentId p with
      | None => Some 0
      | Some q => d ← depthOf fuel' pools q; Some (d + 1)
      end
  end.

(** Pool [i] lies on a cycle of parent references: a positive number of
    parent hops leads from [i] back to [i]. *)
Inductive ancestor (pools : list IPPool) : Z -> Z -> Prop :=
| ancestor_parent p q :
    p ∈ pools -> parentId p = Some q -> ancestor pools (id p) q
| ancestor_step p q r :
    p ∈ pools -> parentId p = Some q -> ancestor pools q r ->
    ancestor pools (id p) r.

Definition onCycle (pools : list IPPool) (i : Z) : Prop := ancestor pools i i.

Definition isTrue (o : option bool) : bool :=
  match o with Some true => true | _ => false end.

(** The invariants I1 to I5 of the data model, with unique ids. *)
Definition invariants (pools : list IPPool) : bool :=
  bool_decide (NoDup (map id pools)) &&
  bool_decide (NoDup (map cidr pools)) &&
  forallb (fun p =>
    match parentId p with
    | None => true
    | Some q =>
        match poolOf pools q with
        | None => false
        | Some parent => isTrue (isChildOfParent (cidr p) (cidr parent))
        end
    end) pools &&
  forallb (fun p =>
    forallb (fun q =>
      (id p =? id q) ||
      negb (bool_decide (parentId p = parentId q)) ||
      negb (isTrue (cidrsOverlap (cidr p) (cidr q)))) pools) pools &&
  forallb (fun p =>
    match depthOf (S (length pools)) pools (id p) with
    | Some _ => true
    | None => false
    end) pools.

(** Sum of numbers as the loop [used += x] computes it. *)
Definition sumIps (xs : list number) : number := fold_left add xs (Int 0).

Definition totalIpsOf (h : gmap Z PoolTreeNode) (i : Z) : number :=
  match h !! i with
  | Some nd => totalIps nd
  | None => NaN
  end.

(** The descendants of a node of the store, down to [fuel] levels. *)
Fixpoint descendants (fuel : nat) (h : gmap Z PoolTreeNode) (i : Z) : list Z :=
  match fuel with
  | O => []
  | S fuel' =>
      match h !! i with
      | None => []
      | Some nd =>
          flat_map (fun c => c :: descendants fuel' h c) (children nd)
      end
  end.

End Spec.

(** ** Vocabulary of the proofs and sample inputs *)

Import JS IpUtils Manager.

(** The four octets of an unsigned 32-bit value. *)
Definition octets (u : Z) : list Z :=
  let w := u mod 2 ^ 32 in
  [w / 2 ^ 24; (w / 2 ^ 16) mod 256; (w / 2 ^ 8) mod 256; w mod 256].

Fixpoint noChar (c : ascii) (s : string) : bool :=
  match s with
  | EmptyString => true
  | String c' s' => negb (Ascii.eqb c' c) && noChar c s'
  end.

Definition octetChecks (o : Z) : bool :=
  noChar "." (show o) && noChar "/" (show o) && Spec.isDecimal (show o) &&
  Spec.noLeadingZero (show o) && (digitsVal (show o) =? o).

Definition digitChar (d : nat) : ascii := ascii_of_nat (48 + d).

Definition canonCheck (p : string) : bool :=
  implb (Spec.noLeadingZero p && (digitsVal p <=? 255))
        (String.eqb (show (digitsVal p)) p).

Definition nodeAt (r : result (gmap Z PoolTreeNode * list Z)) (i : Z)
  : option PoolTreeNode :=
  match r with
  | Done (h, _) => h !! i
  | _ => None
  end.

Definition chain : list IPPool :=
  [ mkPool 1 "A" "10.0.0.0/16" None;
    mkPool 2 "B" "10.0.0.0/24" (Some 1);
    mkPool 3 "C" "10.0.0.0/25" (Some 2) ].

Definition newestFirst : list IPPool := List.rev chain.

(** A node without its [usedIps], the only field the third loop writes. *)
Definition erase (n : PoolTreeNode) : PoolTreeNode := setUsedIps (Int 0) n.

Definition sameShape (h h' : gmap Z PoolTreeNode) : Prop :=
  erase <$> h = erase <$> h'.

Definition directSum (h : gmap Z PoolTreeNode) (nd : PoolTreeNode) : number :=
  Spec.sumIps (map (Spec.totalIpsOf h) (children nd)).

Definition settled (h : gmap Z PoolTreeNode) (i : Z) : Prop :=
  forall nd, h !! i = Some nd -> usedIps nd = directSum h nd.

Inductive reach (h : gmap Z PoolTreeNode) : Z -> Z -> Prop :=
| reach_refl i : reach h i i
| reach_step i nd c j :
    h !! i = Some nd -> c ∈ children nd -> reach h c j -> reach h i j.

(** What one run of [calculateUsedIps] leaves behind. *)
Definition aggregated (h : gmap Z PoolTreeNode) (i : Z)
    (h' : gmap Z PoolTreeNode) (u : number) : Prop :=
  sameShape h h' /\
  (forall nd, h !! i = Some nd -> u = directSum h nd) /\
  (forall j, settled h j -> settled h' j) /\
  (forall j, reach h i j -> settled h' j) /\
  (forall j, reach h i j \/ h' !! j = h !! j).

Definition isRoot (p : IPPool) : bool := bool_decide (parentId p = None).
Definition childOf (i : Z) (p : IPPool) : bool :=
  bool_decide (parentId p = Some i).

(** The store after the first loop, over the pools read so far. *)
Definition initialised (ps : list IPPool) (m : gmap Z PoolTreeNode) : Prop :=
  (forall i, is_Some (m !! i) <-> i ∈ map id ps) /\
  (forall i nd, m !! i = Some nd ->
     id (pool nd) = i /\ pool nd ∈ ps /\ children nd = [] /\
     usedIps nd = Int 0 /\
     totalIps nd = IpUtils.totalIps (parseCIDR (cidr (pool nd)))).

(** The store and the roots after the second loop has read [pre]. *)
Definition attached (h0 : gmap Z PoolTreeNode) (pre : list IPPool)
    (st : gmap Z PoolTreeNode * list Z) : Prop :=
  st.2 = map id (List.filter isRoot pre) /\
  (forall i, is_Some (st.1 !! i) <-> is_Some (h0 !! i)) /\
  (forall i n, st.1 !! i = Some n ->
     exists n0, h0 !! i = Some n0 /\ pool n = pool n0 /\
                totalIps n = totalIps n0 /\ usedIps n = usedIps n0 /\
                children n = map id (List.filter (childOf i) pre)).

(** The shape of the store once every pool is attached. *)
Definition shaped (pools : list IPPool) (h : gmap Z PoolTreeNode) : Prop :=
  (forall i, is_Some (h !! i) <-> i ∈ map id pools) /\
  (forall i n, h !! i = Some n ->
     children n = map id (List.filter (childOf i) pools)).

(** Pool [i] is [d] parent hops below a root. *)
Inductive hasDepth (pools : list IPPool) : Z -> nat -> Prop :=
| depth_root p :
    p ∈ pools -> parentId p = None -> hasDepth pools (id p) 0
| depth_child p q d :
    p ∈ pools -> parentId p = Some q -> hasDepth pools q d ->
    hasDepth pools (id p) (S d).

Definition rootsOf (r : result (gmap Z PoolTreeNode * list Z)) : option (list Z) :=
  match r with
  | Done (_, roots) => Some roots
  | _ => None
  end.

Definition storeOf (r : result (gmap Z PoolTreeNode * list Z))
  : gmap Z PoolTreeNode :=
  match r with
  | Done (h, _) => h
  | _ => ∅
  end.

Definition orphan : list IPPool := [ mkPool 7 "X" "10.0.0.0/24" (Some 99) ].

Definition looped : list IPPool :=
  [ mkPool 1 "A" "10.0.0.0/16" None;
    mkPool 2 "B" "10.1.0.0/24" (Some 3);
    mkPool 3 "C" "10.1.0.0/25" (Some 2);
    mkPool 4 "D" "10.2.0.0/24" (Some 4);
    mkPool 5 "E" "10.0.0.0/24" (Some 1) ].

Definition emptyForm : FormState :=
  {| formCidr := EmptyString; validationError := EmptyString; cidrInfo := None |}.

(** The text [normalizeCIDR] builds for the block at [n] with prefix [p]. *)
Definition printCIDR (n p : Z) : string :=
  join "." (map show (octets n)) +:+ "/" +:+ show p.

(** The addresses of a closed interval, as a finite set. *)
Definition blockSet (lo hi : Z) : gset Z := list_to_set (seqZ lo (hi - lo + 1)).

Definition blockOf (p : IPPool) : gset Z :=
  blockSet (Spec.networkOf (cidr p)) (Spec.broadcastOf (cidr p)).

Definition sumSizes (l : list IPPool) : Z :=
  fold_right (fun p acc => Spec.sizeOf (cidr p) + acc) 0 l.

(** [availableIps] of [renderPoolNode]: [node.totalIps - node.usedIps]. *)
Definition availableIps (node : PoolTreeNode) : number :=
  sub (totalIps node) (usedIps node).

(** The level the second loop of [buildPoolTree] gives pool [p] when it
    reads it after the pools [pre], in the store [m]. *)
Definition levelRule (m : gmap Z PoolTreeNode) (pre : list IPPool)
    (p : IPPool) (l : Z) : Prop :=
  match parentId p with
  | None => l = 0
  | Some q =>
      match m !! q with
      | None => l = 0
      | Some nq =>
          if bool_decide (q ∈ map id pre)
          then exists lq, level nq = Int lq /\ l = lq + 1
          else l = 1
      end
  end.

(** The levels of the store once the second loop has read [pre]. *)
Definition levelled (pre : list IPPool) (m : gmap Z PoolTreeNode) : Prop :=
  forall i n, m !! i = Some n ->
    exists l, level n = Int l /\ 0 <= l <= Z.of_nat (length pre) /\
      (i ∉ map id pre -> l = 0) /\
      (forall pre1 p post1, pre = pre1 ++ p :: post1 -> id p = i ->
         levelRule m pre1 p l).

(** Every pool that has a parent comes after it in the list: [seen] holds
    the ids read so far. *)
Fixpoint parentsFirstFrom (seen : list Z) (l : list IPPool) : bool :=
  match l with
  | [] => true
  | p :: l' =>
      match parentId p with
      | None => true
      | Some q => bool_decide (q ∈ seen)
      end && parentsFirstFrom (seen ++ [id p]) l'
  end.

Definition parentsFirst (pools : list IPPool) : bool :=
  parentsFirstFrom [] pools.

(** * Properties *)

Section Strings.

Lemma digit_facts c :
  isDigit c = true ->
  isWhite c = false /\ c <> "-"%char /\ c <> "+"%char /\ c <> "."%char /\
  c <> "/"%char /\ 0 <= digitVal c <= 9.
Proof.
  destruct c as [[] [] [] [] [] [] [] []]; intros H;
    try (vm_compute in H; discriminate H);
    repeat split; try (intros E; discriminate E); vm_compute; intros E; discriminate E.
Qed.

Lemma sapp_nil (t : string) : EmptyString +:+ t = t.
Proof. reflexivity. Qed.

Lemma sapp_cons c (s t : string) : String c s +:+ t = String c (s +:+ t).
Proof. reflexivity. Qed.

Lemma sapp_empty_r (s : string) : s +:+ EmptyString = s.
Proof.
  induction s as [|c s IH]; [reflexivity | now rewrite sapp_cons, IH].
Qed.

Lemma sapp_assoc (s t u : string) : (s +:+ t) +:+ u = s +:+ (t +:+ u).
Proof.
  induction s as [|c s IH]; [reflexivity | now rewrite !sapp_cons, IH].
Qed.

Lemma srev_app (s t : string) : rev (s +:+ t) = rev t +:+ rev s.
Proof.
  induction s as [|c s IH]; simpl.
  - now rewrite sapp_nil, sapp_empty_r.
  - now rewrite IH, sapp_assoc.
Qed.

Lemma srev_rev (s : string) : rev (rev s) = s.
Proof.
  induction s as [|c s IH]; simpl; [reflexivity|].
  now rewrite srev_app, IH.
Qed.

Lemma allDigits_app s t :
  Spec.allDigits (s +:+ t) = Spec.allDigits s && Spec.allDigits t.
Proof.
  induction s as [|c s IH]; [reflexivity|].
  rewrite sapp_cons; simpl. now rewrite IH, andb_assoc.
Qed.

Lemma allDigits_rev s : Spec.allDigits (rev s) = Spec.allDigits s.
Proof.
  induction s as [|c s IH]; simpl; [reflexivity|].
  rewrite allDigits_app, IH. simpl. rewrite andb_true_r. apply andb_comm.
Qed.

Lemma takeWhile_digits s : Spec.allDigits s = true -> takeWhile isDigit s = s.
Proof.
  induction s as [|c s IH]; simpl; [reflexivity|].
  intros [Hc Hs]%andb_true_iff. rewrite Hc. f_equal. auto.
Qed.

Lemma dropWhile_digits s :
  Spec.allDigits s = true -> dropWhile isDigit s = EmptyString.
Proof.
  induction s as [|c s IH]; simpl; [reflexivity|].
  intros [Hc Hs]%andb_true_iff. rewrite Hc. auto.
Qed.

Lemma dropWhile_white_decimal s :
  Spec.isDecimal s = true -> dropWhile isWhite s = s.
Proof.
  destruct s as [|c s]; simpl; [discriminate|].
  intros [Hc _]%andb_true_iff.
  destruct (digit_facts c Hc) as [-> _]. reflexivity.
Qed.

Lemma isDecimal_rev s : Spec.isDecimal s = true -> Spec.isDecimal (rev s) = true.
Proof.
  unfold Spec.isDecimal. destruct s as [|c s]; [discriminate|].
  intros H. rewrite <- allDigits_rev in H.
  destruct (rev (String c s)) eqn:E; [|exact H].
  apply (f_equal rev) in E. rewrite srev_rev in E. discriminate E.
Qed.

Lemma trim_decimal s : Spec.isDecimal s = true -> trim s = s.
Proof.
  intros H. unfold trim.
  rewrite (dropWhile_white_decimal s H).
  rewrite (dropWhile_white_decimal _ (isDecimal_rev s H)).
  apply srev_rev.
Qed.

Lemma stripSign_decimal s : Spec.isDecimal s = true -> stripSign s = (1, s).
Proof.
  destruct s as [|c s]; simpl; [discriminate|].
  intros [Hc _]%andb_true_iff.
  destruct (digit_facts c Hc) as (_ & Hm & Hp & _).
  destruct c as [[] [] [] [] [] [] [] []]; try reflexivity; congruence.
Qed.

Lemma parseInt_decimal s :
  Spec.isDecimal s = true -> parseInt s = Some (digitsVal s).
Proof.
  intros H. unfold parseInt.
  rewrite (dropWhile_white_decimal s H), (stripSign_decimal s H).
  assert (Ha : Spec.allDigits s = true) by (destruct s; [discriminate | exact H]).
  rewrite (takeWhile_digits s Ha).
  destruct s; [discriminate|]. f_equal. lia.
Qed.

Lemma Number_decimal s :
  Spec.isDecimal s = true -> Number_ s = norm (digitsVal s).
Proof.
  intros H. unfold Number_. rewrite (trim_decimal s H).
  assert (Ha : Spec.allDigits s = true) by (destruct s; [discriminate | exact H]).
  pose proof (stripSign_decimal s H) as Hs.
  pose proof (takeWhile_digits s Ha) as Ht.
  pose proof (dropWhile_digits s Ha) as Hd.
  destruct s as [|c s]; [discriminate|].
  rewrite Hs, Ht, Hd. f_equal. lia.
Qed.

End Strings.

Section Numbers.

Lemma ToInt32_range z : - 2 ^ 31 <= ToInt32 z < 2 ^ 31.
Proof.
  unfold ToInt32. pose proof (Z.mod_pos_bound z (2 ^ 32) ltac:(lia)).
  destruct (Z.ltb_spec (z mod 2 ^ 32) (2 ^ 31)); lia.
Qed.

Lemma ToInt32_small z : - 2 ^ 31 <= z < 2 ^ 31 -> ToInt32 z = z.
Proof.
  intros H. unfold ToInt32.
  destruct (Z.ltb_spec (z mod 2 ^ 32) (2 ^ 31)) as [L|L];
    revert L; change (2 ^ 32) with 4294967296 in *;
    change (2 ^ 31) with 2147483648 in *; intros L;
    Z.div_mod_to_equations; lia.
Qed.

Lemma ToInt32_unsigned u :
  0 <= u < 2 ^ 32 -> ToInt32 u = if u <? 2 ^ 31 then u else u - 2 ^ 32.
Proof.
  intros H. unfold ToInt32. now rewrite Z.mod_small by lia.
Qed.

Lemma ToUint32_ToInt32 z : ToUint32 (ToInt32 z) = ToUint32 z.
Proof.
  unfold ToUint32, ToInt32.
  change (2 ^ 32) with 4294967296; change (2 ^ 31) with 2147483648.
  destruct (Z.ltb_spec (z mod 4294967296) 2147483648);
    Z.div_mod_to_equations; lia.
Qed.

Lemma norm_small z : Z.abs z <= 2 ^ 53 -> norm z = Int z.
Proof.
  intros H. unfold norm. destruct (Z.leb_spec (Z.abs z) (2 ^ 53)); [reflexivity|lia].
Qed.

Lemma land_255 x : Z.land x 255 = x mod 256.
Proof. change 255 with (Z.ones 8). now rewrite Z.land_ones by lia. Qed.

Lemma numberToIp_Int u :
  numberToIp (Int u) = Some (join "." (map show (octets u))).
Proof.
  unfold numberToIp, band, ushr, toUint32, toInt32, octets.
  change (ToUint32 24 mod 32) with 24. change (ToUint32 16 mod 32) with 16.
  change (ToUint32 8 mod 32) with 8. change (ToInt32 255) with 255.
  rewrite !land_255, !Z.shiftr_div_pow2 by lia.
  unfold ToUint32.
  set (w := u mod 2 ^ 32).
  assert (Hw : 0 <= w < 2 ^ 32) by (apply Z.mod_pos_bound; lia).
  assert (E : ToInt32 u mod 256 = w mod 256).
  { unfold ToInt32. fold w. change (2 ^ 32) with 4294967296 in *.
    destruct (Z.ltb_spec w (2 ^ 31)); [reflexivity|].
    change (2 ^ 31) with 2147483648 in *. Z.div_mod_to_equations; lia. }
  rewrite E. clear E.
  rewrite !ToInt32_small.
  2-4: change (2 ^ 32) with 4294967296 in Hw; change (2 ^ 31) with 2147483648;
       Z.div_mod_to_equations; lia.
  replace (w / 2 ^ 24 mod 256) with (w / 2 ^ 24).
  2: { change (2 ^ 32) with 4294967296 in Hw. Z.div_mod_to_equations; lia. }
  reflexivity.
Qed.

End Numbers.

Section Split.

Lemma octet_checks o : 0 <= o <= 255 -> octetChecks o = true.
Proof.
  intros H.
  assert (A : forallb (fun n => octetChecks (Z.of_nat n)) (seq 0 256) = true)
    by (vm_compute; reflexivity).
  rewrite forallb_forall in A.
  specialize (A (Z.to_nat o)). rewrite Z2Nat.id in A by lia.
  apply A, in_seq. lia.
Qed.

Lemma split_nosep sep p : noChar sep p = true -> split sep p = [p].
Proof.
  induction p as [|c p IH]; simpl; [reflexivity|].
  intros [Hc Hp]%andb_true_iff.
  apply negb_true_iff in Hc. rewrite Hc, (IH Hp). reflexivity.
Qed.

Lemma split_app sep p rest :
  noChar sep p = true ->
  split sep (p +:+ String sep rest) = p :: split sep rest.
Proof.
  induction p as [|c p IH]; simpl.
  - intros _. now rewrite Ascii.eqb_refl.
  - intros [Hc Hp]%andb_true_iff.
    apply negb_true_iff in Hc. rewrite Hc, (IH Hp). reflexivity.
Qed.

Lemma split_join4 sep a b c d :
  noChar sep a = true -> noChar sep b = true -> noChar sep c = true ->
  noChar sep d = true ->
  split sep (join (String sep EmptyString) [a; b; c; d]) = [a; b; c; d].
Proof.
  intros Ha Hb Hc Hd. cbn [join].
  rewrite !sapp_cons, !sapp_nil.
  rewrite (split_app sep a _ Ha), (split_app sep b _ Hb), (split_app sep c _ Hc).
  now rewrite (split_nosep sep d Hd).
Qed.

Lemma split_nonempty sep s : split sep s <> [].
Proof.
  destruct s as [|c s]; simpl; [discriminate|].
  destruct (Ascii.eqb c sep); [discriminate|].
  destruct (split sep s); discriminate.
Qed.

Lemma join_split sep s : join (String sep EmptyString) (split sep s) = s.
Proof.
  induction s as [|c s IH]; simpl; [reflexivity|].
  pose proof (split_nonempty sep s) as Hne.
  destruct (Ascii.eqb_spec c sep) as [->|Hc].
  - destruct (split sep s) as [|p ps]; [contradiction|].
    now rewrite <- IH.
  - destruct (split sep s) as [|p ps]; [contradiction|].
    rewrite <- IH. destruct ps; reflexivity.
Qed.

End Split.

Section Conversions.

Lemma octets_range u : Forall (fun o => 0 <= o <= 255) (octets u).
Proof.
  unfold octets. set (w := u mod 2 ^ 32).
  assert (Hw : 0 <= w < 2 ^ 32) by (apply Z.mod_pos_bound; lia).
  change (2 ^ 32) with 4294967296 in Hw.
  repeat constructor; Z.div_mod_to_equations; lia.
Qed.

Lemma octets_value u :
  match octets u with
  | [a; b; c; d] => a * 2 ^ 24 + b * 2 ^ 16 + c * 2 ^ 8 + d = u mod 2 ^ 32
  | _ => False
  end.
Proof.
  unfold octets. set (w := u mod 2 ^ 32).
  assert (Hw : 0 <= w < 2 ^ 32) by (apply Z.mod_pos_bound; lia).
  change (2 ^ 32) with 4294967296 in Hw.
  Z.div_mod_to_equations; lia.
Qed.

(** [ipToNumber] on four fields that read as octets: the signed 32-bit
    value of the address. *)
Lemma ipToNumber_octets ip p0 p1 p2 p3 v0 v1 v2 v3 :
  split "." ip = [p0; p1; p2; p3] ->
  Number_ p0 = Int v0 -> Number_ p1 = Int v1 ->
  Number_ p2 = Int v2 -> Number_ p3 = Int v3 ->
  0 <= v0 <= 255 -> 0 <= v1 <= 255 -> 0 <= v2 <= 255 -> 0 <= v3 <= 255 ->
  ipToNumber ip = Int (ToInt32 (v0 * 2 ^ 24 + v1 * 2 ^ 16 + v2 * 2 ^ 8 + v3)).
Proof.
  intros Hs E0 E1 E2 E3 H0 H1 H2 H3.
  unfold ipToNumber. rewrite Hs. simpl map. simpl nth.
  rewrite E0, E1, E2, E3.
  unfold shl, toInt32, toUint32.
  change (ToUint32 24 mod 32) with 24. change (ToUint32 16 mod 32) with 16.
  change (ToUint32 8 mod 32) with 8.
  rewrite !Z.shiftl_mul_pow2 by lia.
  rewrite (ToInt32_small v0), (ToInt32_small v1), (ToInt32_small v2) by lia.
  rewrite (ToInt32_small (v1 * 2 ^ 16)), (ToInt32_small (v2 * 2 ^ 8)) by lia.
  assert (E : ToInt32 (v0 * 2 ^ 24 + v1 * 2 ^ 16 + v2 * 2 ^ 8 + v3) =
              ToInt32 (v0 * 2 ^ 24) + v1 * 2 ^ 16 + v2 * 2 ^ 8 + v3).
  { rewrite !ToInt32_unsigned by lia.
    destruct (Z.ltb_spec (v0 * 2 ^ 24) (2 ^ 31)),
             (Z.ltb_spec (v0 * 2 ^ 24 + v1 * 2 ^ 16 + v2 * 2 ^ 8 + v3) (2 ^ 31));
      lia. }
  rewrite E. pose proof (ToInt32_range (v0 * 2 ^ 24)) as R.
  unfold add. rewrite norm_small by lia. rewrite norm_small by lia.
  rewrite norm_small by lia. reflexivity.
Qed.

Lemma Number_show o : 0 <= o <= 255 -> Number_ (show o) = Int o.
Proof.
  intros H. pose proof (octet_checks o H) as C. unfold octetChecks in C.
  repeat (apply andb_true_iff in C; destruct C as [C ?]).
  rewrite Number_decimal by assumption.
  rewrite norm_small; [f_equal; lia|].
  assert (digitsVal (show o) = o) by lia. lia.
Qed.

(** Printing an unsigned 32-bit value and reading it back gives the signed
    value of the same 32 bits. *)
Lemma ipToNumber_numberToIp u :
  exists s, numberToIp (Int u) = Some s /\ ipToNumber s = Int (ToInt32 u).
Proof.
  rewrite numberToIp_Int. eexists; split; [reflexivity|].
  pose proof (octets_range u) as R. pose proof (octets_value u) as V.
  destruct (octets u) as [|a [|b [|c [|d [|]]]]]; try contradiction.
  inversion R as [|? ? Ha R1]; subst. inversion R1 as [|? ? Hb R2]; subst.
  inversion R2 as [|? ? Hc R3]; subst. inversion R3 as [|? ? Hd _]; subst.
  assert (N : forall o, 0 <= o <= 255 -> noChar "." (show o) = true).
  { intros o Ho. pose proof (octet_checks o Ho) as C. unfold octetChecks in C.
    repeat (apply andb_true_iff in C; destruct C as [C ?]). exact C. }
  rewrite (ipToNumber_octets _ (show a) (show b) (show c) (show d) a b c d);
    auto using Number_show.
  - rewrite V. unfold ToInt32. now rewrite Z.mod_mod by lia.
  - simpl map. apply split_join4; auto.
Qed.

End Conversions.

Section Blocks.

Lemma land_neg_pow2 x k : 0 <= k -> Z.land x (- 2 ^ k) = x / 2 ^ k * 2 ^ k.
Proof.
  intros Hk.
  replace (- 2 ^ k) with (Z.lnot (Z.ones k))
    by (rewrite Z.ones_equiv; unfold Z.lnot; lia).
  rewrite <- Z.ldiff_land, Z.ldiff_ones_r by lia.
  now rewrite Z.shiftl_mul_pow2, Z.shiftr_div_pow2 by lia.
Qed.

Lemma lor_low_ones y k :
  0 <= k -> Z.lor (y * 2 ^ k) (2 ^ k - 1) = y * 2 ^ k + (2 ^ k - 1).
Proof.
  intros Hk. pose proof (Z.add_lor_land (y * 2 ^ k) (2 ^ k - 1)) as E.
  replace (Z.land (y * 2 ^ k) (2 ^ k - 1)) with 0 in E; [lia|].
  replace (2 ^ k - 1) with (Z.ones k) by (rewrite Z.ones_equiv; lia).
  rewrite Z.land_ones by lia. rewrite Z.mod_mul by lia. reflexivity.
Qed.

(** The fields of a CIDR the specification calls valid. *)
Lemma valid_cidr_parts s :
  Spec.isValidCIDR s = true ->
  exists ip p p0 p1 p2 p3,
    split "/" s = [ip; p] /\ split "." ip = [p0; p1; p2; p3] /\
    Spec.isOctet p0 = true /\ Spec.isOctet p1 = true /\
    Spec.isOctet p2 = true /\ Spec.isOctet p3 = true /\
    Spec.isDecimal p = true /\ 8 <= digitsVal p <= 32.
Proof.
  unfold Spec.isValidCIDR, Spec.isValidIP. intros H.
  destruct (split "/" s) as [|ip [|p [|]]]; try discriminate.
  destruct (split "." ip) as [|p0 [|p1 [|p2 [|p3 [|]]]]] eqn:E;
    try discriminate.
  apply andb_true_iff in H as [H H32]. apply andb_true_iff in H as [H H8].
  apply andb_true_iff in H as [H Hdec]. apply andb_true_iff in H as [H O3].
  apply andb_true_iff in H as [H O2]. apply andb_true_iff in H as [O0 O1].
  apply Z.leb_le in H32, H8.
  exists ip, p, p0, p1, p2, p3. repeat split; auto.
Qed.

Lemma isOctet_Number p :
  Spec.isOctet p = true ->
  Number_ p = Int (digitsVal p) /\ 0 <= digitsVal p <= 255 /\
  parseInt p = Some (digitsVal p).
Proof.
  unfold Spec.isOctet. intros [Hd Hv]%andb_true_iff.
  apply Z.leb_le in Hv.
  assert (0 <= digitsVal p).
  { pose proof (parseInt_decimal p Hd).
    assert (G : forall s acc, Spec.allDigits s = true -> 0 <= acc -> 0 <= digitsAcc acc s).
    { induction s as [|c s IH]; simpl; intros acc Ha Hacc; [lia|].
      apply andb_true_iff in Ha as [Hc Hs].
      apply IH; [assumption|]. destruct (digit_facts c Hc) as (_&_&_&_&_&?). lia. }
    apply G; [|lia]. destruct p; [discriminate | exact Hd]. }
  rewrite Number_decimal, norm_small by (assumption || lia).
  repeat split; try lia. now apply parseInt_decimal.
Qed.

Lemma pow2_facts k :
  0 <= k <= 24 ->
  1 <= 2 ^ k <= 2 ^ 24 /\ exists m, 2 ^ 31 = m * 2 ^ k /\ 0 < m.
Proof.
  intros Hk. split.
  - split; [apply (Z.pow_le_mono_r 2 0 k); lia|apply Z.pow_le_mono_r; lia].
  - exists (2 ^ (31 - k)). split; [|apply Z.pow_pos_nonneg; lia].
    rewrite <- Z.pow_add_r by lia. f_equal. lia.
Qed.

Lemma block_bounds U k :
  0 <= U < 2 ^ 32 -> 0 <= k <= 24 ->
  let N := U / 2 ^ k * 2 ^ k in
  0 <= N <= U /\ N + 2 ^ k <= 2 ^ 32 /\
  (N < 2 ^ 31 <-> N + 2 ^ k - 1 < 2 ^ 31).
Proof.
  intros HU Hk N. destruct (pow2_facts k Hk) as (Hp & m & Hm & Hm0).
  unfold N. pose proof (Z.div_mod U (2 ^ k) ltac:(lia)) as DM.
  pose proof (Z.mod_pos_bound U (2 ^ k) ltac:(lia)) as MB.
  assert (H32 : 2 ^ 32 = 2 * m * 2 ^ k) by lia.
  assert (Hq0 : 0 <= U / 2 ^ k) by (apply Z.div_pos; lia).
  assert (Hq1 : U / 2 ^ k < 2 * m) by (apply Z.div_lt_upper_bound; lia).
  set (q := U / 2 ^ k) in *. set (r := U mod 2 ^ k) in *.
  set (t := 2 ^ k) in *.
  assert (L1 : (q + 1) * t <= 2 * m * t)
    by (apply Z.mul_le_mono_nonneg_r; lia).
  assert (L2 : q < m -> (q + 1) * t <= m * t)
    by (intros; apply Z.mul_le_mono_nonneg_r; lia).
  assert (L3 : m <= q -> m * t <= q * t)
    by (intros; apply Z.mul_le_mono_nonneg_r; lia).
  destruct (Z.lt_ge_cases q m); repeat split; intros; lia.
Qed.

Lemma maskOf_prefix P :
  8 <= P <= 32 -> maskOf (Int P) = Int (2 ^ 32 - 2 ^ (32 - P)).
Proof.
  intros HP. set (k := 32 - P). assert (Hk : 0 <= k <= 24) by (unfold k; lia).
  destruct (pow2_facts k Hk) as (Hp & _).
  unfold maskOf. cbn [sub]. rewrite norm_small by lia. fold k.
  unfold shl. cbn [toInt32 toUint32].
  change (ToInt32 (-1)) with (-1).
  assert (Ek : ToUint32 k mod 32 = k).
  { unfold ToUint32. rewrite (Z.mod_small k (2 ^ 32)) by lia.
    apply Z.mod_small. lia. }
  rewrite Ek, Z.shiftl_mul_pow2 by lia.
  rewrite (ToInt32_small (-1 * 2 ^ k)) by lia.
  unfold ushr. cbn [toUint32].
  change (ToUint32 0 mod 32) with 0. rewrite Z.shiftr_0_r. f_equal.
  unfold ToUint32. symmetry. apply (Z.mod_unique_pos _ _ (-1)); lia.
Qed.

Lemma mask_signed k : 0 <= k <= 24 -> ToInt32 (2 ^ 32 - 2 ^ k) = - 2 ^ k.
Proof.
  intros Hk. destruct (pow2_facts k Hk) as (Hp & _).
  rewrite ToInt32_unsigned by lia.
  destruct (Z.ltb_spec (2 ^ 32 - 2 ^ k) (2 ^ 31)); lia.
Qed.

Lemma network_value U k :
  0 <= U < 2 ^ 32 -> 0 <= k <= 24 ->
  ushr (band (Int (ToInt32 U)) (Int (2 ^ 32 - 2 ^ k))) (Int 0) =
  Int (U / 2 ^ k * 2 ^ k).
Proof.
  intros HU Hk. destruct (pow2_facts k Hk) as (Hp & m & Hm & Hm0).
  pose proof (block_bounds U k HU Hk) as HN. cbv zeta in HN.
  unfold band. cbn [toInt32]. rewrite (mask_signed k Hk), land_neg_pow2 by lia.
  unfold ushr. cbn [toUint32].
  change (ToUint32 0 mod 32) with 0. rewrite Z.shiftr_0_r. f_equal.
  set (N := U / 2 ^ k * 2 ^ k) in *.
  rewrite ToInt32_small by apply ToInt32_range.
  rewrite ToInt32_unsigned by lia. unfold ToUint32.
  destruct (Z.ltb_spec U (2 ^ 31)).
  - apply Z.mod_small. lia.
  - assert (E2 : 2 ^ 32 = 2 * m * 2 ^ k) by lia.
    replace (U - 2 ^ 32) with (U + (- (2 * m)) * 2 ^ k) by lia.
    rewrite Z.div_add by lia. rewrite Z.mul_add_distr_r. fold N.
    replace (- (2 * m) * 2 ^ k) with ((-1) * 2 ^ 32) by lia.
    rewrite Z.mod_add by lia. apply Z.mod_small. lia.
Qed.

Lemma broadcast_value U k :
  0 <= U < 2 ^ 32 -> 0 <= k <= 24 ->
  ushr (bor (Int (U / 2 ^ k * 2 ^ k)) (bnot (Int (2 ^ 32 - 2 ^ k)))) (Int 0) =
  Int (U / 2 ^ k * 2 ^ k + 2 ^ k - 1).
Proof.
  intros HU Hk. destruct (pow2_facts k Hk) as (Hp & m & Hm & Hm0).
  pose proof (block_bounds U k HU Hk) as HN. cbv zeta in HN.
  unfold bor, bnot. cbn [toInt32]. rewrite (mask_signed k Hk).
  replace (Z.lnot (- 2 ^ k)) with (2 ^ k - 1) by (unfold Z.lnot; lia).
  unfold ushr. cbn [toUint32 toInt32].
  change (ToUint32 0 mod 32) with 0. rewrite Z.shiftr_0_r. f_equal.
  rewrite (ToInt32_small (2 ^ k - 1)) by lia.
  rewrite ToInt32_unsigned by lia.
  destruct (Z.ltb_spec (U / 2 ^ k * 2 ^ k) (2 ^ 31)).
  - rewrite lor_low_ones by lia.
    unfold ToUint32. rewrite Z.mod_small; lia.
  - replace (U / 2 ^ k * 2 ^ k - 2 ^ 32) with ((U / 2 ^ k - 2 * m) * 2 ^ k) by lia.
    rewrite lor_low_ones by lia. unfold ToUint32.
    replace ((U / 2 ^ k - 2 * m) * 2 ^ k + (2 ^ k - 1))
      with (U / 2 ^ k * 2 ^ k + 2 ^ k - 1 + (-1) * 2 ^ 32) by lia.
    rewrite Z.mod_add by lia. apply Z.mod_small. lia.
Qed.

(** What [parseCIDR] computes on a valid CIDR, against the interval of the
    specification. *)
Lemma parseCIDR_valid s :
  Spec.isValidCIDR s = true ->
  networkAddress (parseCIDR s) = numberToIp (Int (Spec.networkOf s)) /\
  broadcastAddress (parseCIDR s) = numberToIp (Int (Spec.broadcastOf s)) /\
  IpUtils.totalIps (parseCIDR s) = Int (Spec.sizeOf s) /\
  prefix (parseCIDR s) = Int (Spec.prefixOf s) /\
  8 <= Spec.prefixOf s <= 32 /\
  0 <= Spec.networkOf s <= Spec.broadcastOf s /\
  Spec.broadcastOf s < 2 ^ 32 /\
  (Spec.networkOf s < 2 ^ 31 <-> Spec.broadcastOf s < 2 ^ 31).
Proof.
  intros H.
  destruct (valid_cidr_parts s H)
    as (ip & p & p0 & p1 & p2 & p3 & Es & Ei & O0 & O1 & O2 & O3 & Dp & Rp).
  destruct (isOctet_Number _ O0) as (N0 & R0 & _).
  destruct (isOctet_Number _ O1) as (N1 & R1 & _).
  destruct (isOctet_Number _ O2) as (N2 & R2 & _).
  destruct (isOctet_Number _ O3) as (N3 & R3 & _).
  unfold Spec.broadcastOf, Spec.networkOf, Spec.sizeOf, Spec.prefixOf,
    Spec.ipOf, Spec.addressOf, parseCIDR.
  rewrite Es. cbn [nth lookup list_lookup]. rewrite Ei. cbn [map].
  cbn [networkAddress broadcastAddress IpUtils.totalIps prefix].
  unfold parseIntN. rewrite (parseInt_decimal p Dp), norm_small by lia.
  rewrite (ipToNumber_octets ip p0 p1 p2 p3 _ _ _ _ Ei N0 N1 N2 N3 R0 R1 R2 R3).
  set (U := digitsVal p0 * 2 ^ 24 + digitsVal p1 * 2 ^ 16 +
            digitsVal p2 * 2 ^ 8 + digitsVal p3).
  assert (HU : 0 <= U < 2 ^ 32) by (unfold U; lia).
  set (P := digitsVal p) in *.
  assert (Hk : 0 <= 32 - P <= 24) by lia.
  rewrite (maskOf_prefix P Rp), (network_value U _ HU Hk),
    (broadcast_value U _ HU Hk).
  pose proof (block_bounds U _ HU Hk) as HN. cbv zeta in HN.
  destruct (pow2_facts _ Hk) as (Hp & _).
  cbn [sub]. rewrite norm_small by lia. unfold pow2.
  destruct (Z.leb_spec 0 (32 - P)), (Z.leb_spec (32 - P) 53); try lia.
  cbn [andb]. repeat split; try reflexivity; try lia.
Qed.

End Blocks.

Section Canonical.

Lemma digit_cases c :
  isDigit c = true -> exists d, (d < 10)%nat /\ c = digitChar d.
Proof.
  intros H. exists (nat_of_ascii c - 48)%nat.
  unfold isDigit in H. apply andb_true_iff in H as [L U].
  apply Z.leb_le in L, U. split; [lia|].
  unfold digitChar. replace (48 + (nat_of_ascii c - 48))%nat with (nat_of_ascii c) by lia.
  now rewrite ascii_nat_embedding.
Qed.

Lemma digitsAcc_lower s acc :
  Spec.allDigits s = true -> 0 <= acc ->
  acc * 10 ^ Z.of_nat (String.length s) <= digitsAcc acc s.
Proof.
  revert acc. induction s as [|c s IH]; intros acc Ha Hacc.
  - simpl. lia.
  - simpl in Ha. apply andb_true_iff in Ha as [Hc Hs].
    destruct (digit_facts c Hc) as (_&_&_&_&_&Hv).
    cbn [String.length digitsAcc]. rewrite Nat2Z.inj_succ, Z.pow_succ_r by lia.
    specialize (IH (acc * 10 + digitVal c) Hs ltac:(lia)).
    assert (0 <= 10 ^ Z.of_nat (String.length s)) by (apply Z.pow_nonneg; lia).
    nia.
Qed.

Lemma canonical_short p :
  Spec.isOctet p = true -> Spec.noLeadingZero p = true ->
  (String.length p <= 3)%nat.
Proof.
  unfold Spec.isOctet. intros [Hd Hv]%andb_true_iff Hz. apply Z.leb_le in Hv.
  destruct p as [|c1 [|c2 r]]; [discriminate|simpl; lia|].
  cbn [Spec.isDecimal Spec.allDigits] in Hd.
  apply andb_true_iff in Hd as [H1 Hr].
  assert (Hc1 : 1 <= digitVal c1).
  { destruct (digit_cases c1 H1) as (d & Hd & ->).
    destruct d as [|d]; [discriminate Hz|].
    do 9 (destruct d as [|d]; [vm_compute; discriminate|]). lia. }
  pose proof (digitsAcc_lower (String c2 r) (digitVal c1) Hr ltac:(lia)) as L.
  unfold digitsVal in Hv. cbn [digitsAcc] in Hv. cbn [digitsAcc] in L.
  replace (0 * 10 + digitVal c1) with (digitVal c1) in Hv by lia.
  destruct r as [|c3 [|c4 r]]; [simpl; lia..|].
  exfalso.
  set (n := String.length (String c2 (String c3 (String c4 r)))) in *.
  assert (Hn : 3 <= Z.of_nat n) by (unfold n; cbn [String.length]; lia).
  assert (10 ^ 3 <= 10 ^ Z.of_nat n) by (apply Z.pow_le_mono_r; lia).
  nia.
Qed.

Lemma canon_table :
  forallb (fun a => canonCheck (String (digitChar a) EmptyString)) (seq 0 10) &&
  forallb (fun a => forallb (fun b =>
    canonCheck (String (digitChar a) (String (digitChar b) EmptyString)))
    (seq 0 10)) (seq 0 10) &&
  forallb (fun a => forallb (fun b => forallb (fun c =>
    canonCheck (String (digitChar a) (String (digitChar b)
                  (String (digitChar c) EmptyString))))
    (seq 0 10)) (seq 0 10)) (seq 0 10) = true.
Proof. vm_compute. reflexivity. Qed.

(** A numeral in [0,255] without leading zeros prints back as itself. *)
Lemma show_canonical p :
  Spec.isOctet p = true -> Spec.noLeadingZero p = true ->
  show (digitsVal p) = p.
Proof.
  intros Ho Hz. pose proof (canonical_short p Ho Hz) as Hl.
  assert (C : canonCheck p = true).
  { pose proof canon_table as T.
    apply andb_true_iff in T as [T T3]. apply andb_true_iff in T as [T1 T2].
    rewrite forallb_forall in T1, T2, T3.
    pose proof Ho as Hd. apply andb_true_iff in Hd as [Hd _].
    destruct p as [|c1 [|c2 [|c3 [|c4 r]]]]; cbn [String.length] in Hl;
      [discriminate| | | |lia]; cbn [Spec.isDecimal Spec.allDigits] in Hd;
      repeat (apply andb_true_iff in Hd as [? Hd]).
    - destruct (digit_cases c1) as (a & Ha & ->); [assumption|].
      apply T1, in_seq. lia.
    - destruct (digit_cases c1) as (a & Ha & ->); [assumption|].
      destruct (digit_cases c2) as (b & Hb & ->); [assumption|].
      specialize (T2 a ltac:(apply in_seq; lia)).
      rewrite forallb_forall in T2. apply T2, in_seq. lia.
    - destruct (digit_cases c1) as (a & Ha & ->); [assumption|].
      destruct (digit_cases c2) as (b & Hb & ->); [assumption|].
      destruct (digit_cases c3) as (c & Hc & ->); [assumption|].
      specialize (T3 a ltac:(apply in_seq; lia)).
      rewrite forallb_forall in T3.
      specialize (T3 b ltac:(apply in_seq; lia)).
      rewrite forallb_forall in T3. apply T3, in_seq. lia. }
  unfold canonCheck in C. apply andb_true_iff in Ho as [_ Hv].
  rewrite Hz, Hv in C. cbn in C. now apply String.eqb_eq in C.
Qed.

End Canonical.

Section Intervals.

Lemma readback u : ipToNumber' (numberToIp (Int u)) = Int (ToInt32 u).
Proof.
  destruct (ipToNumber_numberToIp u) as (s & -> & E). exact E.
Qed.

Lemma overlap_value a b :
  Spec.isValidCIDR a = true -> Spec.isValidCIDR b = true ->
  cidrsOverlap a b = Some (Spec.intervalsMeet a b).
Proof.
  intros Ha Hb.
  destruct (parseCIDR_valid a Ha) as (Na & Ba & _ & _ & _ & Ra & Ua & Sa).
  destruct (parseCIDR_valid b Hb) as (Nb & Bb & _ & _ & _ & Rb & Ub & Sb).
  unfold cidrsOverlap. rewrite Na, Ba, Nb, Bb, !readback.
  unfold Spec.intervalsMeet, ge, le. cbn [mbind option_bind].
  rewrite Z.geb_leb.
  set (na := Spec.networkOf a) in *. set (ba := Spec.broadcastOf a) in *.
  set (nb := Spec.networkOf b) in *. set (bb := Spec.broadcastOf b) in *.
  rewrite !ToInt32_unsigned by lia.
  destruct (Z.ltb_spec na (2 ^ 31)), (Z.ltb_spec ba (2 ^ 31)),
    (Z.ltb_spec nb (2 ^ 31)), (Z.ltb_spec bb (2 ^ 31)); try lia;
  repeat match goal with
         | |- context [?x <=? ?y] => destruct (Z.leb_spec x y)
         end; cbn; try reflexivity; lia.
Qed.

Lemma inside_value c p :
  Spec.isValidCIDR c = true -> Spec.isValidCIDR p = true ->
  isChildOfParent c p = Some (Spec.intervalInside c p).
Proof.
  intros Ha Hb.
  destruct (parseCIDR_valid c Ha) as (Na & Ba & _ & _ & _ & Ra & Ua & Sa).
  destruct (parseCIDR_valid p Hb) as (Nb & Bb & _ & _ & _ & Rb & Ub & Sb).
  unfold isChildOfParent. rewrite Na, Ba, Nb, Bb, !readback.
  unfold Spec.intervalInside, ge, le. cbn [mbind option_bind].
  set (na := Spec.networkOf c) in *. set (ba := Spec.broadcastOf c) in *.
  set (nb := Spec.networkOf p) in *. set (bb := Spec.broadcastOf p) in *.
  rewrite !ToInt32_unsigned by lia.
  destruct (Z.ltb_spec na (2 ^ 31)), (Z.ltb_spec ba (2 ^ 31)),
    (Z.ltb_spec nb (2 ^ 31)), (Z.ltb_spec bb (2 ^ 31)); try lia;
  repeat match goal with
         | |- context [?x <=? ?y] => destruct (Z.leb_spec x y)
         end; cbn; try reflexivity; lia.
Qed.

End Intervals.

Section CidrEngine.

Lemma valid_accepted s : Spec.isValidCIDR s = true -> isValidCIDR s = true.
Proof.
  intros H.
  destruct (valid_cidr_parts s H)
    as (ip & p & p0 & p1 & p2 & p3 & Es & Ei & O0 & O1 & O2 & O3 & Dp & Rp).
  destruct (isOctet_Number _ O0) as (_ & R0 & E0).
  destruct (isOctet_Number _ O1) as (_ & R1 & E1).
  destruct (isOctet_Number _ O2) as (_ & R2 & E2).
  destruct (isOctet_Number _ O3) as (_ & R3 & E3).
  unfold isValidCIDR, isValidIp. rewrite Es, Ei. cbn [length Nat.eqb negb forallb].
  rewrite E0, E1, E2, E3, (parseInt_decimal p Dp).
  repeat match goal with
         | |- context [?x <=? ?y] => destruct (Z.leb_spec x y); try lia
         end; try reflexivity.
Qed.

Lemma ipToNumber_valid ip :
  Spec.isValidIP ip = true -> ipToNumber ip = Int (ToInt32 (Spec.addressOf ip)).
Proof.
  unfold Spec.isValidIP, Spec.addressOf. intros H.
  destruct (split "." ip) as [|p0 [|p1 [|p2 [|p3 [|]]]]] eqn:E; try discriminate.
  apply andb_true_iff in H as [H O3]. apply andb_true_iff in H as [H O2].
  apply andb_true_iff in H as [O0 O1].
  destruct (isOctet_Number _ O0) as (N0 & R0 & _).
  destruct (isOctet_Number _ O1) as (N1 & R1 & _).
  destruct (isOctet_Number _ O2) as (N2 & R2 & _).
  destruct (isOctet_Number _ O3) as (N3 & R3 & _).
  cbn [map]. now apply (ipToNumber_octets ip p0 p1 p2 p3).
Qed.

(** C7.  On two valid CIDRs [cidrsOverlap] returns, and returns true exactly
    when the closed unsigned intervals [network, broadcast] of the two
    blocks meet ([networkA <= broadcastB] and [broadcastA >= networkB]);
    so it is symmetric, and true of a block and itself.  The comparison in
    the code is between signed 32-bit values; a block of prefix 8 or more
    never straddles 2^31, which is why the answers agree. *)
Theorem cidrsOverlap_intervals a b :
  Spec.isValidCIDR a = true -> Spec.isValidCIDR b = true ->
  networkAddress (parseCIDR a) = numberToIp (Int (Spec.networkOf a)) /\
  broadcastAddress (parseCIDR a) = numberToIp (Int (Spec.broadcastOf a)) /\
  0 <= Spec.networkOf a <= Spec.broadcastOf a /\ Spec.broadcastOf a < 2 ^ 32 /\
  cidrsOverlap a b = Some (Spec.intervalsMeet a b) /\
  cidrsOverlap a b = cidrsOverlap b a /\
  cidrsOverlap a a = Some true.
Proof.
  intros Ha Hb.
  destruct (parseCIDR_valid a Ha) as (Na & Ba & _ & _ & _ & Ra & Ua & _).
  rewrite !overlap_value by assumption.
  repeat split; try lia; try assumption.
  - f_equal. unfold Spec.intervalsMeet. rewrite !Z.geb_leb. apply andb_comm.
  - f_equal. unfold Spec.intervalsMeet. rewrite Z.geb_leb.
    destruct (Z.leb_spec (Spec.networkOf a) (Spec.broadcastOf a)); [reflexivity|lia].
Qed.

Lemma cidrsOverlap_intervals_witness :
  cidrsOverlap "200.10.0.0/16" "200.10.128.77/25" = Some true.
Proof.
  destruct (cidrsOverlap_intervals "200.10.0.0/16" "200.10.128.77/25"
              eq_refl eq_refl) as (_ & _ & _ & _ & E & _).
  rewrite E. reflexivity.
Defined.

(** C8.  On two valid CIDRs [isChildOfParent] returns, and returns true
    exactly when the child's closed unsigned interval lies inside the
    parent's, bounds included; a block is inside itself. *)
Theorem isChildOfParent_intervals c p :
  Spec.isValidCIDR c = true -> Spec.isValidCIDR p = true ->
  isChildOfParent c p = Some (Spec.intervalInside c p) /\
  isChildOfParent c c = Some true.
Proof.
  intros Hc Hp.
  destruct (parseCIDR_valid c Hc) as (_ & _ & _ & _ & _ & Rc & _).
  rewrite !inside_value by assumption. split; [reflexivity|].
  f_equal. unfold Spec.intervalInside.
  rewrite !Z.leb_refl. reflexivity.
Qed.

Lemma isChildOfParent_intervals_witness :
  isChildOfParent "200.10.128.77/25" "200.10.0.0/16" = Some true.
Proof.
  destruct (isChildOfParent_intervals "200.10.128.77/25" "200.10.0.0/16"
              eq_refl eq_refl) as (E & _).
  rewrite E. reflexivity.
Defined.

(** C9.  Round trip: for an address of four decimal octets in [0,255]
    written without leading zeros, [numberToIp(ipToNumber(ip))] is [ip],
    whatever the first octet (the negative values [ipToNumber] gives from
    128 up are read back through the unsigned shift). *)
Theorem numberToIp_ipToNumber ip :
  Spec.isCanonicalIP ip = true -> numberToIp (ipToNumber ip) = Some ip.
Proof.
  unfold Spec.isCanonicalIP. intros [Hv Hz]%andb_true_iff.
  rewrite (ipToNumber_valid ip Hv), numberToIp_Int.
  unfold Spec.isValidIP, Spec.addressOf in *.
  pose proof (join_split "." ip) as J.
  destruct (split "." ip) as [|p0 [|p1 [|p2 [|p3 [|]]]]] eqn:E; try discriminate.
  apply andb_true_iff in Hv as [Hv O3]. apply andb_true_iff in Hv as [Hv O2].
  apply andb_true_iff in Hv as [O0 O1].
  cbn [forallb] in Hz.
  apply andb_true_iff in Hz as [Z0 Hz]. apply andb_true_iff in Hz as [Z1 Hz].
  apply andb_true_iff in Hz as [Z2 Hz]. apply andb_true_iff in Hz as [Z3 _].
  destruct (isOctet_Number _ O0) as (_ & R0 & _).
  destruct (isOctet_Number _ O1) as (_ & R1 & _).
  destruct (isOctet_Number _ O2) as (_ & R2 & _).
  destruct (isOctet_Number _ O3) as (_ & R3 & _).
  cbn [map].
  set (U := digitsVal p0 * 2 ^ 24 + digitsVal p1 * 2 ^ 16 +
            digitsVal p2 * 2 ^ 8 + digitsVal p3).
  assert (HU : 0 <= U < 2 ^ 32) by (unfold U; lia).
  assert (EO : octets (ToInt32 U) =
               [digitsVal p0; digitsVal p1; digitsVal p2; digitsVal p3]).
  { unfold octets. fold (ToUint32 (ToInt32 U)). rewrite ToUint32_ToInt32.
    unfold ToUint32. rewrite Z.mod_small by lia. unfold U.
    change (2 ^ 24) with 16777216. change (2 ^ 16) with 65536.
    change (2 ^ 8) with 256.
    repeat f_equal; Z.div_mod_to_equations; lia. }
  rewrite EO. cbn [map].
  rewrite !show_canonical by assumption. now rewrite J.
Qed.

Lemma numberToIp_ipToNumber_witness :
  numberToIp (ipToNumber "203.0.113.9") = Some "203.0.113.9"%string.
Proof. exact (numberToIp_ipToNumber "203.0.113.9" eq_refl). Defined.

(** C5.  [isValidCIDR] is not the validity of the specification: it
    accepts a prefix followed by letters, and an address with leading white
    space and an octet followed by a letter, because [parseInt] stops
    reading at the first character that is not a digit.  [ipToNumber] reads
    the same fields with [Number], for which the octet "5x" is NaN: the
    accepted text normalises to another block. *)
Theorem isValidCIDR_accepts_trailing_text :
  isValidCIDR "10.0.0.0/24abc" = true /\
  Spec.isValidCIDR "10.0.0.0/24abc" = false /\
  isValidCIDR " 10.0.0.5x/24" = true /\
  Spec.isValidCIDR " 10.0.0.5x/24" = false /\
  normalizeCIDR " 10.0.0.5x/24" = Some "0.0.0.0/24"%string.
Proof. repeat split; vm_compute; reflexivity. Qed.

(** C6.  [ipToNumber] on 128.0.0.0: the shift by 24 is a signed 32-bit
    operation and nothing converts its result back, so the value is
    -2^31 and not the unsigned 2^31. *)
Theorem ipToNumber_high_octet_negative :
  Spec.isValidIP "128.0.0.0" = true /\
  ipToNumber "128.0.0.0" = Int (- 2147483648) /\
  Spec.addressOf "128.0.0.0" = 2147483648.
Proof. repeat split; vm_compute; reflexivity. Qed.

End CidrEngine.

Section Aggregation.

Lemma calc_unfold fuel h node :
  calculateUsedIps (S fuel) h node =
  match h !! node with
  | None => TypeError
  | Some nd =>
      '(h1, used) ← forEach (usedStep (calculateUsedIps fuel)) (children nd) (h, Int 0);
      Done (alter (setUsedIps used) node h1, used)
  end.
Proof. reflexivity. Qed.

Lemma buildPoolTree_unfold fuel allPools :
  buildPoolTree fuel allPools =
  '(poolMap, rootNodes) ←
     forEach attach allPools (fold_left initNode allPools ∅, []);
  h ← forEach (rootStep fuel) rootNodes poolMap;
  Done (h, rootNodes).
Proof. reflexivity. Qed.

Lemma sameShape_lookup h h' i n :
  sameShape h h' -> h !! i = Some n ->
  exists n', h' !! i = Some n' /\ pool n' = pool n /\
             children n' = children n /\ totalIps n' = totalIps n /\
             level n' = level n.
Proof.
  intros S E. apply (f_equal (fun m => m !! i)) in S.
  rewrite !lookup_fmap, E in S. cbn in S.
  destruct (h' !! i) as [n'|]; [|discriminate]. cbn in S.
  exists n'. split; [reflexivity|]. injection S as S1 S2 S3 S4.
  repeat split; congruence.
Qed.

Lemma sameShape_none h h' i : sameShape h h' -> h !! i = None -> h' !! i = None.
Proof.
  intros S E. apply (f_equal (fun m => m !! i)) in S.
  rewrite !lookup_fmap, E in S. cbn in S.
  destruct (h' !! i); [discriminate | reflexivity].
Qed.

Lemma sameShape_sym h h' : sameShape h h' -> sameShape h' h.
Proof. unfold sameShape. congruence. Qed.

Lemma sameShape_trans h1 h2 h3 :
  sameShape h1 h2 -> sameShape h2 h3 -> sameShape h1 h3.
Proof. unfold sameShape. congruence. Qed.

Lemma sameShape_alter h u i : sameShape h (alter (setUsedIps u) i h).
Proof.
  unfold sameShape. apply map_eq. intros j.
  rewrite !lookup_fmap, lookup_alter.
  destruct (decide (i = j)) as [->|]; [|reflexivity].
  destruct (h !! j); reflexivity.
Qed.

Lemma sameShape_totalIpsOf h h' :
  sameShape h h' -> forall i, Spec.totalIpsOf h i = Spec.totalIpsOf h' i.
Proof.
  intros S i. unfold Spec.totalIpsOf.
  destruct (h !! i) as [n|] eqn:E.
  - destruct (sameShape_lookup h h' i n S E) as (n' & -> & _ & _ & T & _).
    now rewrite T.
  - now rewrite (sameShape_none h h' i S E).
Qed.

Lemma sameShape_directSum h h' n n' :
  sameShape h h' -> children n = children n' ->
  directSum h n = directSum h' n'.
Proof.
  intros S C. unfold directSum. rewrite C. f_equal.
  apply map_ext. intros. now apply sameShape_totalIpsOf.
Qed.

Lemma sameShape_reach h h' i j : sameShape h h' -> reach h i j -> reach h' i j.
Proof.
  intros S R. induction R as [|i nd c j E C R IH]; [constructor|].
  destruct (sameShape_lookup h h' i nd S E) as (n' & E' & _ & C' & _).
  apply (reach_step h' i n' c j); [assumption| |assumption]. now rewrite C'.
Qed.

Lemma reach_trans h i j k : reach h i j -> reach h j k -> reach h i k.
Proof.
  intros R1 R2. induction R1; [assumption|]. eapply reach_step; eauto.
Qed.

Lemma settled_shape h h' i :
  sameShape h h' -> (usedIps <$> h !! i) = (usedIps <$> h' !! i) ->
  settled h i -> settled h' i.
Proof.
  intros S U G n' E'.
  destruct (sameShape_lookup h' h i n' (sameShape_sym _ _ S) E')
    as (n & E & _ & C & _).
  rewrite E, E' in U. cbn in U. injection U as U.
  rewrite <- U, (G n E). now apply sameShape_directSum.
Qed.

Lemma settled_alter_other h u i j :
  i <> j -> settled h j -> settled (alter (setUsedIps u) i h) j.
Proof.
  intros Hne G. apply (settled_shape h); [apply sameShape_alter| |assumption].
  now rewrite lookup_alter_ne.
Qed.

Lemma settled_alter_self h u i :
  (forall nd, h !! i = Some nd -> u = directSum h nd) ->
  settled (alter (setUsedIps u) i h) i.
Proof.
  intros Hu n' E'. rewrite lookup_alter_eq in E'.
  destruct (h !! i) as [n|] eqn:E; [|discriminate]. cbn in E'.
  injection E' as <-. cbn [usedIps setUsedIps].
  rewrite (Hu n eq_refl).
  apply sameShape_directSum; [apply sameShape_alter | reflexivity].
Qed.

Lemma settled_alter h u i j :
  (forall nd, h !! i = Some nd -> u = directSum h nd) ->
  settled h j -> settled (alter (setUsedIps u) i h) j.
Proof.
  intros Hu G. destruct (decide (i = j)) as [<-|Hne].
  - now apply settled_alter_self.
  - now apply settled_alter_other.
Qed.

Lemma usedLoop_correct fuel
  (IH : forall h i h' u,
      calculateUsedIps fuel h i = Done (h', u) -> aggregated h i h' u) :
  forall cs h0 used h1 used',
    forEach (usedStep (calculateUsedIps fuel)) cs (h0, used) = Done (h1, used') ->
    sameShape h0 h1 /\
    used' = fold_left add (map (Spec.totalIpsOf h0) cs) used /\
    (forall j, settled h0 j -> settled h1 j) /\
    (forall c j, c ∈ cs -> reach h0 c j -> settled h1 j) /\
    (forall j, (exists c, c ∈ cs /\ reach h0 c j) \/ h1 !! j = h0 !! j).
Proof.
  induction cs as [|c cs IHcs]; intros h0 used h1 used' E.
  - cbn in E. injection E as <- <-.
    repeat split; auto.
    intros c j Hc. inversion Hc.
  - cbn [forEach] in E.
    destruct (usedStep (calculateUsedIps fuel) (h0, used) c) as [[h3 used1]| |] eqn:Es;
      cbn in E; try discriminate.
    unfold usedStep in Es.
    destruct (h0 !! c) as [cn|] eqn:Ec; [|discriminate].
    destruct (calculateUsedIps fuel h0 c) as [[h2 u]| |] eqn:Ecalc;
      cbn in Es; try discriminate.
    injection Es as <- <-.
    destruct (IH _ _ _ _ Ecalc) as (S02 & Hu & M02 & R02 & F02).
    specialize (IHcs _ _ _ _ E) as (S31 & Hused & M31 & R31 & F31).
    assert (S23 : sameShape h2 (alter (setUsedIps u) c h2))
      by apply sameShape_alter.
    assert (S03 : sameShape h0 (alter (setUsedIps u) c h2))
      by (eapply sameShape_trans; eauto).
    assert (Hu2 : forall nd, h2 !! c = Some nd -> u = directSum h2 nd).
    { intros nd2 E2.
      destruct (sameShape_lookup h2 h0 c nd2 (sameShape_sym _ _ S02) E2)
        as (n0 & E0 & _ & C0 & _).
      rewrite (Hu n0 E0). apply sameShape_directSum; [assumption|congruence]. }
    repeat split.
    + eapply sameShape_trans; eauto.
    + rewrite Hused. cbn [map fold_left]. f_equal.
      * apply map_ext. intros. symmetry. now apply sameShape_totalIpsOf.
      * unfold Spec.totalIpsOf. now rewrite Ec.
    + intros j G. apply M31, settled_alter; auto.
    + intros c' j Hc' R. apply elem_of_cons in Hc' as [->|Hc'].
      * apply M31, settled_alter; auto.
      * apply (R31 c' j Hc'). eapply sameShape_reach; eauto.
    + intros j. destruct (F31 j) as [(c' & Hc' & R)|E31].
      * left. exists c'. split; [now apply elem_of_cons; right|].
        eapply sameShape_reach; [apply sameShape_sym|]; eauto.
      * destruct (decide (c = j)) as [<-|Hne].
        { left. exists c. split; [apply elem_of_cons; now left|constructor]. }
        rewrite E31, lookup_alter_ne by assumption.
        destruct (F02 j) as [R| ->]; [|now right].
        left. exists c. split; [apply elem_of_cons; now left|assumption].
Qed.

Lemma calc_correct fuel :
  forall h i h' u,
    calculateUsedIps fuel h i = Done (h', u) -> aggregated h i h' u.
Proof.
  induction fuel as [|fuel IH]; intros h i h' u E; [discriminate|].
  rewrite calc_unfold in E.
  destruct (h !! i) as [nd|] eqn:Ei; [|discriminate].
  destruct (forEach (usedStep (calculateUsedIps fuel)) (children nd) (h, Int 0))
    as [[h1 used]| |] eqn:El; cbn in E; try discriminate.
  injection E as <- <-.
  destruct (usedLoop_correct fuel IH _ _ _ _ _ El) as (S & Hused & M & R & F).
  assert (Hu1 : forall n1, h1 !! i = Some n1 -> used = directSum h1 n1).
  { intros n1 E1.
    destruct (sameShape_lookup h1 h i n1 (sameShape_sym _ _ S) E1)
      as (n0 & E0 & _ & C0 & _).
    rewrite Ei in E0. injection E0 as <-.
    rewrite Hused. unfold directSum, Spec.sumIps. rewrite <- C0. f_equal.
    apply map_ext. intros. now apply sameShape_totalIpsOf. }
  repeat split.
  - eapply sameShape_trans; [exact S | apply sameShape_alter].
  - intros nd' End'. rewrite Ei in End'. injection End' as <-.
    exact Hused.
  - intros j G. apply settled_alter; auto.
  - intros j Rj. inversion Rj as [|? nd' c ? Ei' Hc Rc]; subst.
    + now apply settled_alter_self.
    + rewrite Ei in Ei'. injection Ei' as <-.
      apply settled_alter; auto. eapply R; eauto.
  - intros j. destruct (decide (i = j)) as [<-|Hne]; [left; constructor|].
    rewrite lookup_alter_ne by assumption.
    destruct (F j) as [(c & Hc & Rc)| ->]; [|now right].
    left. eapply reach_step; eauto.
Qed.

End Aggregation.

Section Forest.

Lemma rootsLoop_correct fuel :
  forall rs h0 h1,
    forEach (rootStep fuel) rs h0 = Done h1 ->
    sameShape h0 h1 /\
    (forall j, settled h0 j -> settled h1 j) /\
    (forall r j, r ∈ rs -> reach h0 r j -> settled h1 j) /\
    (forall j, (exists r, r ∈ rs /\ reach h0 r j) \/ h1 !! j = h0 !! j).
Proof.
  induction rs as [|r rs IH]; intros h0 h1 E.
  - cbn in E. injection E as <-. repeat split; auto.
    intros r j Hr. inversion Hr.
  - cbn [forEach] in E.
    destruct (rootStep fuel h0 r) as [h2| |] eqn:Es; cbn in E; try discriminate.
    unfold rootStep in Es.
    destruct (calculateUsedIps fuel h0 r) as [[h2' u]| |] eqn:Ec;
      cbn in Es; try discriminate.
    injection Es as ->.
    destruct (calc_correct fuel _ _ _ _ Ec) as (S02 & _ & M02 & R02 & F02).
    destruct (IH _ _ E) as (S21 & M21 & R21 & F21).
    repeat split.
    + eapply sameShape_trans; eauto.
    + auto.
    + intros r' j Hr' R. apply elem_of_cons in Hr' as [->|Hr'].
      * auto.
      * apply (R21 r' j Hr'). eapply sameShape_reach; eauto.
    + intros j. destruct (F21 j) as [(r' & Hr' & R)|E21].
      * left. exists r'. split; [now apply elem_of_cons; right|].
        eapply sameShape_reach; [apply sameShape_sym|]; eauto.
      * rewrite E21. destruct (F02 j) as [R | ->]; [|now right].
        left. exists r. split; [apply elem_of_cons; now left|assumption].
Qed.

Lemma inForest_reach h roots j :
  inForest h roots j <-> exists r, r ∈ roots /\ reach h r j.
Proof.
  split.
  - induction 1 as [r Hr|n nd c _ (r & Hr & R) E Hc].
    + exists r. split; [assumption|constructor].
    + exists r. split; [assumption|].
      eapply reach_trans; [exact R|].
      eapply reach_step; [exact E|exact Hc|constructor].
  - intros (r & Hr & R).
    assert (G : forall a b, reach h a b -> inForest h roots a -> inForest h roots b).
    { induction 1 as [|a nd c b E Hc _ IH]; [auto|].
      intros Ha. apply IH. eapply inForest_child; eauto. }
    apply (G r j R). now constructor.
Qed.

(** The three loops of [buildPoolTree], separated. *)
Lemma buildPoolTree_inv fuel allPools h roots :
  buildPoolTree fuel allPools = Done (h, roots) ->
  exists h1,
    forEach attach allPools (fold_left initNode allPools ∅, []) = Done (h1, roots) /\
    forEach (rootStep fuel) roots h1 = Done h.
Proof.
  unfold buildPoolTree. intros E.
  destruct (forEach attach allPools _) as [[h1 roots1]| |]; cbn in E;
    try discriminate.
  destruct (forEach (rootStep fuel) roots1 h1) as [h2| |] eqn:E3; cbn in E;
    try discriminate.
  injection E as <- <-. exists h1. split; [reflexivity|assumption].
Qed.

(** Whenever [buildPoolTree] returns, every node of the forest holds the
    sum over its direct children. *)
Lemma usedIps_settled fuel allPools h roots i nd :
  buildPoolTree fuel allPools = Done (h, roots) ->
  inForest h roots i -> h !! i = Some nd ->
  usedIps nd = Spec.sumIps (map (Spec.totalIpsOf h) (children nd)) /\
  (children nd = [] -> usedIps nd = Int 0).
Proof.
  intros E F Ei.
  destruct (buildPoolTree_inv _ _ _ _ E) as (h1 & _ & E3).
  destruct (rootsLoop_correct fuel _ _ _ E3) as (S & _ & R & _).
  apply inForest_reach in F as (r & Hr & Rr).
  assert (G : settled h i).
  { apply (R r i Hr). eapply sameShape_reach; [apply sameShape_sym|]; eauto. }
  pose proof (G nd Ei) as U. unfold directSum in U.
  split; [exact U|]. intros C. rewrite U, C. reflexivity.
Qed.

End Forest.

Section Loops.

Lemma initialised_step ps m p :
  initialised ps m -> initialised (ps ++ [p]) (initNode m p).
Proof.
  intros [D F]. unfold initNode. split.
  - intros i. rewrite map_app, elem_of_app. cbn [map].
    rewrite list_elem_of_singleton, <- D.
    destruct (decide (id p = i)) as [<-|Hne].
    + rewrite lookup_insert_eq. split; [now right|eauto].
    + rewrite lookup_insert_ne by assumption. split; [now left|].
      intros [?|?]; [assumption|congruence].
  - intros i nd E.
    destruct (decide (id p = i)) as [<-|Hne].
    + rewrite lookup_insert_eq in E. injection E as <-. cbn.
      repeat split; auto. apply elem_of_app. right. now apply list_elem_of_singleton.
    + rewrite lookup_insert_ne in E by assumption.
      destruct (F i nd E) as (? & ? & ? & ? & ?).
      repeat split; auto. apply elem_of_app. now left.
Qed.

Lemma initialised_fold l :
  forall ps m, initialised ps m -> initialised (ps ++ l) (fold_left initNode l m).
Proof.
  induction l as [|p l IH]; intros ps m H; cbn [fold_left].
  - now rewrite app_nil_r.
  - replace (ps ++ p :: l) with ((ps ++ [p]) ++ l) by now rewrite <- app_assoc.
    apply IH, initialised_step, H.
Qed.

Lemma initialised_all pools : initialised pools (fold_left initNode pools ∅).
Proof.
  apply (initialised_fold pools [] ∅). split.
  - intros i. rewrite lookup_empty. split; [intros [? ?]; discriminate|].
    intros H. inversion H.
  - intros i nd E. rewrite lookup_empty in E. discriminate.
Qed.

Lemma filter_snoc {A} (f : A -> bool) l x :
  List.filter f (l ++ [x]) = List.filter f l ++ (if f x then [x] else []).
Proof. rewrite List.filter_app. reflexivity. Qed.

Lemma attached_step h0 pre st p :
  attached h0 pre st -> is_Some (h0 !! id p) ->
  exists st', attach st p = Done st' /\ attached h0 (pre ++ [p]) st'.
Proof.
  destruct st as [h roots]. intros (R & D & F) Hp. cbn [fst snd] in *.
  unfold attach.
  destruct (h !! id p) as [node|] eqn:En.
  2: { apply D in Hp. rewrite En in Hp. destruct Hp; discriminate. }
  destruct (parentId p) as [q|] eqn:Eq.
  - destruct (h !! q) as [parent|] eqn:Eparent.
    + eexists. split; [reflexivity|]. split; [|split]; cbn [fst snd].
      * rewrite filter_snoc. unfold isRoot at 2. rewrite Eq.
        rewrite bool_decide_eq_false_2 by discriminate. now rewrite app_nil_r.
      * intros i. rewrite <- D, !lookup_alter.
        repeat case_decide; subst; rewrite ?fmap_is_Some; reflexivity.
      * intros i n E. rewrite filter_snoc. unfold childOf at 2. rewrite Eq.
        rewrite lookup_alter in E.
        destruct (decide (q = i)) as [<-|Hqi].
        -- rewrite bool_decide_eq_true_2 by reflexivity.
           rewrite lookup_alter in E.
           destruct (decide (id p = q)) as [Hpq|Hpq].
           ++ subst q. rewrite Eparent in E. cbn in E. injection E as <-.
              destruct (F _ parent Eparent) as (n0 & E0 & ? & ? & ? & C).
              exists n0. cbn. rewrite map_app, C. repeat split; auto.
           ++ rewrite Eparent in E. cbn in E. injection E as <-.
              destruct (F q parent Eparent) as (n0 & E0 & ? & ? & ? & C).
              exists n0. cbn. rewrite map_app, C. repeat split; auto.
        -- rewrite bool_decide_eq_false_2 by congruence. rewrite app_nil_r.
           rewrite lookup_alter in E.
           destruct (decide (id p = i)) as [Hpi|Hpi].
           ++ subst i. rewrite En in E. cbn in E. injection E as <-.
              destruct (F _ node En) as (n0 & E0 & ? & ? & ? & C).
              exists n0. cbn. repeat split; auto.
           ++ apply F, E.
    + eexists. split; [reflexivity|]. split; [|split]; cbn [fst snd].
      * rewrite filter_snoc. unfold isRoot at 2. rewrite Eq.
        rewrite bool_decide_eq_false_2 by discriminate. now rewrite app_nil_r.
      * exact D.
      * intros i n E. rewrite filter_snoc. unfold childOf at 2. rewrite Eq.
        rewrite bool_decide_eq_false_2 by congruence. rewrite app_nil_r.
        apply F, E.
  - eexists. split; [reflexivity|]. split; [|split]; cbn [fst snd].
    + rewrite filter_snoc. unfold isRoot at 2. rewrite Eq.
      rewrite bool_decide_eq_true_2 by reflexivity.
      now rewrite map_app, R.
    + exact D.
    + intros i n E. rewrite filter_snoc. unfold childOf at 2. rewrite Eq.
      rewrite bool_decide_eq_false_2 by discriminate. rewrite app_nil_r.
      apply F, E.
Qed.

Lemma attached_loop h0 post :
  forall pre st,
    attached h0 pre st ->
    (forall p, p ∈ post -> is_Some (h0 !! id p)) ->
    exists st', forEach attach post st = Done st' /\
                attached h0 (pre ++ post) st'.
Proof.
  induction post as [|p post IH]; intros pre st A Hd.
  - exists st. rewrite app_nil_r. split; [reflexivity|assumption].
  - destruct (attached_step h0 pre st p A) as (st1 & E1 & A1).
    { apply Hd. now left. }
    destruct (IH (pre ++ [p]) st1 A1) as (st' & E & A').
    { intros p' Hp'. apply Hd. now right. }
    exists st'. split.
    + cbn [forEach]. rewrite E1. exact E.
    + now rewrite <- app_assoc in A'.
Qed.

(** The first two loops never fail, and leave the store shaped by the
    parent references of the input. *)
Lemma attach_all pools :
  exists h1,
    forEach attach pools (fold_left initNode pools ∅, []) =
      Done (h1, map id (List.filter isRoot pools)) /\
    shaped pools h1 /\
    (forall i n, h1 !! i = Some n -> usedIps n = Int 0).
Proof.
  pose proof (initialised_all pools) as [D0 F0].
  set (h0 := fold_left initNode pools ∅) in *.
  destruct (attached_loop h0 pools [] (h0, [])) as ([h1 roots] & E & R & D & F).
  { split; [reflexivity|]. split; [reflexivity|].
    intros i n Ei. exists n. destruct (F0 i n Ei) as (_ & _ & C & _).
    repeat split; auto. }
  { intros p Hp. apply D0. apply list_elem_of_fmap. eauto. }
  cbn [fst snd app] in *. subst roots.
  exists h1. split; [exact E|]. split; [split|].
  - intros i. rewrite D. apply D0.
  - intros i n Ei. destruct (F i n Ei) as (n0 & _ & _ & _ & _ & C). exact C.
  - intros i n Ei. destruct (F i n Ei) as (n0 & E0 & _ & _ & U & _).
    destruct (F0 i n0 E0) as (_ & _ & _ & U0 & _). congruence.
Qed.

End Loops.

Section Depth.

Variable pools : list IPPool.
Hypothesis distinct : NoDup (map id pools).

Lemma same_id p p' : p ∈ pools -> p' ∈ pools -> id p = id p' -> p = p'.
Proof using distinct.
  clear -distinct. induction pools as [|x l IH]; intros Hp Hp' E.
  - inversion Hp.
  - cbn [map] in distinct. apply NoDup_cons in distinct as [Hx Hl].
    apply elem_of_cons in Hp as [->|Hp]; apply elem_of_cons in Hp' as [->|Hp'].
    + reflexivity.
    + exfalso. apply Hx. rewrite E. apply list_elem_of_fmap. eauto.
    + exfalso. apply Hx. rewrite <- E. apply list_elem_of_fmap. eauto.
    + now apply IH.
Qed.

Lemma depth_id i d : hasDepth pools i d -> i ∈ map id pools.
Proof. intros H. destruct H; apply list_elem_of_fmap; eauto. Qed.

Lemma depth_fun i d1 d2 :
  hasDepth pools i d1 -> hasDepth pools i d2 -> d1 = d2.
Proof using distinct.
  intros H1. revert d2.
  induction H1 as [p Hp Hr|p q d Hp Hq _ IH]; intros d2 H2;
    inversion H2 as [p' Hp' Hr' Ei|p' q' d' Hp' Hq' Hd' Ei]; subst.
  - reflexivity.
  - pose proof (same_id p' p Hp' Hp Ei). subst p'. congruence.
  - pose proof (same_id p' p Hp' Hp Ei). subst p'. congruence.
  - pose proof (same_id p' p Hp' Hp Ei). subst p'.
    assert (q' = q) by congruence. subst q'. f_equal. now apply IH.
Qed.

Lemma depth_chain i d :
  hasDepth pools i d ->
  exists l : list Z,
    length l = S d /\ NoDup l /\
    forall j, j ∈ l -> exists dj, (dj <= d)%nat /\ hasDepth pools j dj.
Proof using distinct.
  induction 1 as [p Hp Hr|p q d Hp Hq Hd (l & Hlen & Hnd & Hl)].
  - exists [id p]. split; [reflexivity|]. split; [apply NoDup_singleton|].
    intros j Hj. apply list_elem_of_singleton in Hj as ->.
    exists 0%nat. split; [lia|now constructor].
  - exists (id p :: l). split; [cbn; lia|]. split.
    + apply NoDup_cons. split; [|assumption].
      intros Hin. destruct (Hl _ Hin) as (dj & Hdj & Hj).
      assert (dj = S d) by (eapply depth_fun; [exact Hj|econstructor; eauto]).
      lia.
    + intros j Hj. apply elem_of_cons in Hj as [->|Hj].
      * exists (S d). split; [lia|econstructor; eauto].
      * destruct (Hl j Hj) as (dj & ? & ?). exists dj. split; [lia|assumption].
Qed.

Lemma depth_bound i d : hasDepth pools i d -> (d < length pools)%nat.
Proof using distinct.
  intros H. destruct (depth_chain i d H) as (l & Hlen & Hnd & Hl).
  assert (S : l ⊆+ map id pools).
  { apply NoDup_submseteq; [assumption|].
    intros j Hj. destruct (Hl j Hj) as (dj & _ & Hd). eapply depth_id, Hd. }
  apply submseteq_length in S. rewrite length_map in S. lia.
Qed.

(** Walking up from a pool that has a depth only meets smaller depths. *)
Lemma ancestor_depth i j :
  Spec.ancestor pools i j ->
  forall d, hasDepth pools i d -> exists d', (d' < d)%nat /\ hasDepth pools j d'.
Proof using distinct.
  induction 1 as [p q Hp Hq|p q r Hp Hq _ IH]; intros d Hd;
    inversion Hd as [p' Hp' Hr' Ei|p' q' d' Hp' Hq' Hd' Ei]; subst;
    pose proof (same_id p' p Hp' Hp Ei); subst p'; try congruence;
    assert (q' = q) by congruence; subst q'.
  - exists d'. split; [lia|assumption].
  - destruct (IH d' Hd') as (d'' & ? & ?). exists d''. split; [lia|assumption].
Qed.

Lemma cycle_no_depth i d : Spec.onCycle pools i -> ~ hasDepth pools i d.
Proof using distinct.
  intros C H. destruct (ancestor_depth i i C d H) as (d' & Hlt & H').
  pose proof (depth_fun i d d' H H'). lia.
Qed.

Variable h : gmap Z PoolTreeNode.
Hypothesis shape : shaped pools h.

Lemma child_depth i n c d :
  h !! i = Some n -> c ∈ children n -> hasDepth pools i d ->
  hasDepth pools c (S d).
Proof using shape.
  intros Ei Hc Hd. destruct shape as [_ C]. rewrite (C i n Ei) in Hc.
  apply list_elem_of_fmap in Hc as (p & -> & Hp).
  apply list_elem_of_In, List.filter_In in Hp as [Hp Hq].
  apply bool_decide_eq_true in Hq. apply list_elem_of_In in Hp.
  econstructor; eauto.
Qed.

Lemma root_depth r :
  r ∈ map id (List.filter isRoot pools) -> hasDepth pools r 0.
Proof.
  intros Hr. apply list_elem_of_fmap in Hr as (p & -> & Hp).
  apply list_elem_of_In, List.filter_In in Hp as [Hp Hq].
  apply bool_decide_eq_true in Hq. apply list_elem_of_In in Hp.
  now constructor.
Qed.

Lemma forest_depth i :
  inForest h (map id (List.filter isRoot pools)) i ->
  exists d, hasDepth pools i d.
Proof using shape.
  induction 1 as [r Hr|n nd c _ (d & Hd) E Hc].
  - exists 0%nat. now apply root_depth.
  - exists (S d). eapply child_depth; eauto.
Qed.

End Depth.

Section Termination.

Variable pools : list IPPool.
Hypothesis distinct : NoDup (map id pools).

Lemma shaped_sameShape h h' : shaped pools h -> sameShape h h' -> shaped pools h'.
Proof.
  intros [D C] S. split.
  - intros i. rewrite <- D. split; intros [n E].
    + destruct (sameShape_lookup h' h i n (sameShape_sym _ _ S) E) as (n' & -> & _).
      eauto.
    + destruct (sameShape_lookup h h' i n S E) as (n' & -> & _). eauto.
  - intros i n E.
    destruct (sameShape_lookup h' h i n (sameShape_sym _ _ S) E)
      as (n' & E' & _ & <- & _).
    now apply C.
Qed.

Lemma calc_total fuel :
  forall h i d,
    shaped pools h -> hasDepth pools i d ->
    (length pools <= d + fuel)%nat ->
    exists h' u, calculateUsedIps fuel h i = Done (h', u).
Proof using distinct.
  induction fuel as [|fuel IH]; intros h i d Sh Hd Hf.
  - pose proof (depth_bound pools distinct i d Hd). lia.
  - rewrite calc_unfold.
    destruct (proj1 Sh i) as [_ Hdom].
    destruct (Hdom (depth_id pools i d Hd)) as [nd Ei]. rewrite Ei.
    assert (L : forall cs h0 used,
               shaped pools h0 ->
               (forall c, c ∈ cs -> hasDepth pools c (S d)) ->
               exists h1 used',
                 forEach (usedStep (calculateUsedIps fuel)) cs (h0, used) =
                 Done (h1, used')).
    { induction cs as [|c cs IHcs]; intros h0 used Sh0 Hcs.
      - exists h0, used. reflexivity.
      - assert (Hc : hasDepth pools c (S d)) by (apply Hcs; now left).
        destruct (proj1 Sh0 c) as [_ Hdom0].
        destruct (Hdom0 (depth_id pools c _ Hc)) as [cn Ec].
        destruct (IH h0 c (S d) Sh0 Hc ltac:(lia)) as (h2 & u & E2).
        pose proof (calc_correct fuel _ _ _ _ E2) as (S02 & _).
        destruct (IHcs (alter (setUsedIps u) c h2) (add used (totalIps cn)))
          as (h1 & used' & E1).
        { eapply shaped_sameShape; [exact Sh0|].
          eapply sameShape_trans; [exact S02|apply sameShape_alter]. }
        { intros c' Hc'. apply Hcs. now right. }
        assert (Es : usedStep (calculateUsedIps fuel) (h0, used) c =
                     Done (alter (setUsedIps u) c h2, add used (totalIps cn)))
          by (unfold usedStep; rewrite Ec, E2; reflexivity).
        exists h1, used'. cbn [forEach]. rewrite Es. exact E1. }
    destruct (L (children nd) h (Int 0) Sh) as (h1 & used & E1).
    { intros c Hc. eapply child_depth; eauto. }
    rewrite E1. cbn. eauto.
Qed.

Lemma roots_total fuel :
  (length pools <= fuel)%nat ->
  forall rs h,
    shaped pools h -> (forall r, r ∈ rs -> hasDepth pools r 0) ->
    exists h', forEach (rootStep fuel) rs h = Done h'.
Proof using distinct.
  intros Hf. induction rs as [|r rs IH]; intros h Sh Hrs.
  - exists h. reflexivity.
  - destruct (calc_total fuel h r 0 Sh) as (h2 & u & E2);
      [apply Hrs; now left|lia|].
    pose proof (calc_correct fuel _ _ _ _ E2) as (S02 & _).
    destruct (IH h2) as (h' & E').
    { eapply shaped_sameShape; eauto. }
    { intros r' Hr'. apply Hrs. now right. }
    assert (Es : rootStep fuel h r = Done h2)
      by (unfold rootStep; rewrite E2; reflexivity).
    exists h'. cbn [forEach]. rewrite Es. exact E'.
Qed.

(** With distinct ids [buildPoolTree] returns, with a budget of one step
    per pool, and the store it returns has the shape of the input. *)
Lemma buildPoolTree_total fuel :
  (length pools <= fuel)%nat ->
  exists h1 h,
    buildPoolTree fuel pools = Done (h, map id (List.filter isRoot pools)) /\
    shaped pools h /\ sameShape h1 h /\
    (forall i n, h1 !! i = Some n -> usedIps n = Int 0) /\
    forEach (rootStep fuel) (map id (List.filter isRoot pools)) h1 = Done h.
Proof using distinct.
  intros Hf. destruct (attach_all pools) as (h1 & E1 & Sh1 & U1).
  destruct (roots_total fuel Hf (map id (List.filter isRoot pools)) h1 Sh1)
    as (h & E).
  { intros r Hr. now apply root_depth. }
  destruct (rootsLoop_correct fuel _ _ _ E) as (S & _).
  exists h1, h. unfold buildPoolTree. rewrite E1. cbn. rewrite E. cbn.
  repeat split; auto; eapply shaped_sameShape; eauto.
Qed.

End Termination.

Section Budget.

Lemma forEach_ext {S B : Type} (f g : S -> B -> result S) xs :
  forall s r,
    (forall s x r, x ∈ xs -> f s x = Done r -> g s x = Done r) ->
    forEach f xs s = Done r -> forEach g xs s = Done r.
Proof.
  induction xs as [|x xs IH]; intros s r H E; [exact E|].
  cbn [forEach] in *.
  destruct (f s x) as [s1| |] eqn:E1; cbn in E; try discriminate.
  rewrite (H s x s1 ltac:(now left) E1). cbn.
  apply IH; [|exact E]. intros s' x' r' Hx'. apply H. now right.
Qed.

(** A larger budget does not change a run that returned. *)
Lemma calc_mono fuel :
  forall fuel' h i r,
    (fuel <= fuel')%nat ->
    calculateUsedIps fuel h i = Done r -> calculateUsedIps fuel' h i = Done r.
Proof.
  induction fuel as [|fuel IH]; intros fuel' h i r Hle E; [discriminate|].
  destruct fuel' as [|fuel']; [lia|].
  rewrite calc_unfold in *.
  destruct (h !! i) as [nd|]; [|discriminate].
  destruct (forEach (usedStep (calculateUsedIps fuel)) (children nd) (h, Int 0))
    as [[h1 used]| |] eqn:El; cbn in E; try discriminate.
  assert (Hs : forall s x r',
             x ∈ children nd ->
             usedStep (calculateUsedIps fuel) s x = Done r' ->
             usedStep (calculateUsedIps fuel') s x = Done r').
  { intros [h0 u0] c r' _ Es. unfold usedStep in *.
    destruct (h0 !! c); [|discriminate].
    destruct (calculateUsedIps fuel h0 c) as [[h2 u]| |] eqn:Ec; cbn in Es;
      try discriminate.
    rewrite (IH fuel' h0 c _ ltac:(lia) Ec). exact Es. }
  rewrite (forEach_ext _ _ _ _ _ Hs El). exact E.
Qed.

Lemma buildPoolTree_mono fuel fuel' pools r :
  (fuel <= fuel')%nat ->
  buildPoolTree fuel pools = Done r -> buildPoolTree fuel' pools = Done r.
Proof.
  intros Hle. unfold buildPoolTree.
  destruct (forEach attach pools _) as [[h1 roots]| |]; cbn; try discriminate.
  destruct (forEach (rootStep fuel) roots h1) as [h| |] eqn:E; cbn;
    try discriminate.
  intros Er.
  assert (Hs : forall h0 x r',
             x ∈ roots -> rootStep fuel h0 x = Done r' ->
             rootStep fuel' h0 x = Done r').
  { intros h0 x r' _ Es. unfold rootStep in *.
    destruct (calculateUsedIps fuel h0 x) as [[h2 u]| |] eqn:Ec; cbn in Es;
      try discriminate.
    rewrite (calc_mono fuel fuel' h0 x _ Hle Ec). exact Es. }
  rewrite (forEach_ext _ _ _ _ _ Hs E). exact Er.
Qed.

End Budget.

Section TreeClaims.

(** C10.  With distinct ids [buildPoolTree] returns, within a budget of one
    recursion level per pool and with the same result for every larger
    budget, whatever the parent references are.  Every node of the forest
    is a pool of the input; a pool on a cycle of parent references (in
    particular a pool that is its own parent) is not in the forest, and the
    aggregation never writes it: its [usedIps] is still the initial 0.  The
    CIDR fields play no part in this. *)
Theorem buildPoolTree_terminates_off_cycles pools fuel :
  NoDup (map id pools) -> (length pools <= fuel)%nat ->
  exists h roots,
    buildPoolTree fuel pools = Done (h, roots) /\
    (forall i, inForest h roots i -> i ∈ map id pools) /\
    (forall i, Spec.onCycle pools i ->
       ~ inForest h roots i /\
       forall nd, h !! i = Some nd -> usedIps nd = Int 0) /\
    (forall p, p ∈ pools -> parentId p = Some (id p) ->
       ~ inForest h roots (id p)) /\
    (forall fuel', (length pools <= fuel')%nat ->
       buildPoolTree fuel' pools = Done (h, roots)).
Proof.
  intros Hnd Hf.
  destruct (buildPoolTree_total pools Hnd fuel Hf)
    as (h1 & h & E & Sh & S & U1 & E3).
  exists h, (map id (List.filter isRoot pools)). split; [exact E|].
  assert (B : forall fuel', (length pools <= fuel')%nat ->
                buildPoolTree fuel' pools =
                Done (h, map id (List.filter isRoot pools))).
  { intros fuel' Hf'.
    destruct (buildPoolTree_total pools Hnd (length pools) (Nat.le_refl _))
      as (_ & h0 & E0 & _).
    pose proof (buildPoolTree_mono _ fuel pools _ Hf E0) as E'.
    rewrite E in E'. injection E' as ->.
    exact (buildPoolTree_mono _ fuel' pools _ Hf' E0). }
  assert (C : forall i, Spec.onCycle pools i ->
                ~ inForest h (map id (List.filter isRoot pools)) i).
  { intros i Hc F. destruct (forest_depth pools h Sh i F) as (d & Hd).
    exact (cycle_no_depth pools Hnd i d Hc Hd). }
  split; [|split].
  - intros i F. destruct (forest_depth pools h Sh i F) as (d & Hd).
    eapply depth_id, Hd.
  - intros i Hc. split; [now apply C|].
    intros nd Ei.
    destruct (rootsLoop_correct fuel _ _ _ E3) as (_ & _ & _ & Fr).
    destruct (Fr i) as [(r & Hr & R)|Eq].
    + exfalso. apply (C i Hc). apply inForest_reach. exists r. split; [assumption|].
      eapply sameShape_reach; eauto.
    + rewrite Eq in Ei. eapply U1, Ei.
  - split; [|exact B].
    intros p Hp Hq. apply C. now apply Spec.ancestor_parent.
Qed.

Lemma buildPoolTree_terminates_off_cycles_witness :
  exists h roots,
    buildPoolTree 5 looped = Done (h, roots) /\
    ~ inForest h roots 2 /\ ~ inForest h roots 3 /\ ~ inForest h roots 4.
Proof.
  assert (Hnd : NoDup (map id looped))
    by (apply (bool_decide_unpack _); vm_compute; exact I).
  destruct (buildPoolTree_terminates_off_cycles looped 5 Hnd ltac:(simpl; lia))
    as (h & roots & E & _ & C & S & _).
  exists h, roots. split; [exact E|]. repeat split.
  - apply (C 2).
    apply (Spec.ancestor_step looped (mkPool 2 "B" "10.1.0.0/24" (Some 3)) 3 2);
      [repeat constructor|reflexivity|].
    apply (Spec.ancestor_parent looped (mkPool 3 "C" "10.1.0.0/25" (Some 2)) 2);
      [repeat constructor|reflexivity].
  - apply (C 3).
    apply (Spec.ancestor_step looped (mkPool 3 "C" "10.1.0.0/25" (Some 2)) 2 3);
      [repeat constructor|reflexivity|].
    apply (Spec.ancestor_parent looped (mkPool 2 "B" "10.1.0.0/24" (Some 3)) 3);
      [repeat constructor|reflexivity].
  - apply (S (mkPool 4 "D" "10.2.0.0/24" (Some 4))); [repeat constructor|reflexivity].
Defined.

(** C2, as amended.  A pool whose [parentId] names no pool of the input is
    left out of the forest without any error: [buildPoolTree] returns
    normally, the pool's node exists in [poolMap], but it is not a root, it
    is in no [children] array, and it is not a node of the forest. *)
Theorem orphan_left_out pools fuel p q :
  NoDup (map id pools) -> (length pools <= fuel)%nat ->
  p ∈ pools -> parentId p = Some q -> q ∉ map id pools ->
  exists h roots,
    buildPoolTree fuel pools = Done (h, roots) /\
    is_Some (h !! id p) /\
    (id p ∉ roots) /\
    (forall i n, h !! i = Some n -> id p ∉ children n) /\
    ~ inForest h roots (id p).
Proof.
  intros Hnd Hf Hp Hq Hno.
  destruct (buildPoolTree_total pools Hnd fuel Hf)
    as (h1 & h & E & Sh & S & U1 & E3).
  exists h, (map id (List.filter isRoot pools)). split; [exact E|].
  assert (N : forall d, ~ hasDepth pools (id p) d).
  { intros d Hd.
    inversion Hd as [p' Hp' Hr' Ei|p' q' d' Hp' Hq' Hd' Ei]; subst;
      pose proof (same_id pools Hnd p' p Hp' Hp Ei); subst p'; [congruence|].
    assert (q' = q) by congruence. subst q'.
    apply Hno. eapply depth_id, Hd'. }
  split; [|split; [|split]].
  - apply (proj1 Sh). apply list_elem_of_fmap. eauto.
  - intros Hr. apply (N 0%nat). now apply root_depth.
  - intros i n Ei Hc. destruct Sh as [D C]. rewrite (C i n Ei) in Hc.
    apply list_elem_of_fmap in Hc as (p' & Ei' & Hp').
    apply list_elem_of_In, List.filter_In in Hp' as [Hp' Hq'].
    apply bool_decide_eq_true in Hq'. apply list_elem_of_In in Hp'.
    pose proof (same_id pools Hnd p p' Hp Hp' Ei'). subst p'.
    assert (q = i) by congruence. subst q.
    apply Hno, D. eauto.
  - intros F. destruct (forest_depth pools h Sh _ F) as (d & Hd).
    exact (N d Hd).
Qed.

Lemma orphan_left_out_witness :
  exists h roots,
    buildPoolTree 1 orphan = Done (h, roots) /\ ~ inForest h roots 7.
Proof.
  assert (Hnd : NoDup (map id orphan))
    by (apply (bool_decide_unpack _); vm_compute; exact I).
  destruct (orphan_left_out orphan 1 (mkPool 7 "X" "10.0.0.0/24" (Some 99)) 99
              Hnd ltac:(simpl; lia) ltac:(repeat constructor) eq_refl
              ltac:(apply (bool_decide_unpack _); vm_compute; exact I))
    as (h & roots & E & _ & _ & _ & F).
  exists h, roots. split; assumption.
Defined.

(** C4.  Three pools A <- B <- C listed newest first (C, B, A), as
    [getAllPools] orders them: C is attached while B still has level 0, so
    C ends at level 1, the level of its own parent, although it is two
    hops below the root. *)
Theorem level_wrong_newest_first :
  Spec.invariants newestFirst = true /\
  level <$> nodeAt (buildPoolTree 3 newestFirst) 2 = Some (Int 1) /\
  level <$> nodeAt (buildPoolTree 3 newestFirst) 3 = Some (Int 1) /\
  Spec.depthOf 3 newestFirst 3 = Some 2.
Proof. repeat split; vm_compute; reflexivity. Qed.

(** C2 as stated fails: one pool whose parent 99 does not exist.  The run
    ends normally with an empty list of roots. *)
Lemma orphan_dropped_without_error :
  rootsOf (buildPoolTree 1 orphan) = Some [] /\
  is_Some (nodeAt (buildPoolTree 1 orphan) 7).
Proof. split; [vm_compute; reflexivity|]. vm_compute. eauto. Qed.

(** C1 as stated fails: A (a /16) over B (a /24) over C (a /25).  The
    descendants of A are B and C, 256 + 128 addresses, but [usedIps] of A
    is 256. *)
Lemma usedIps_misses_grandchildren :
  Spec.invariants chain = true /\
  rootsOf (buildPoolTree 3 chain) = Some [1] /\
  usedIps <$> nodeAt (buildPoolTree 3 chain) 1 = Some (Int 256) /\
  Spec.descendants 3 (storeOf (buildPoolTree 3 chain)) 1 = [2; 3] /\
  Spec.sumIps (map (Spec.totalIpsOf (storeOf (buildPoolTree 3 chain)))
                   (Spec.descendants 3 (storeOf (buildPoolTree 3 chain)) 1))
  = Int 384 /\
  usedIps <$> nodeAt (buildPoolTree 3 chain) 1 <>
  Some (Spec.sumIps
          (map (Spec.totalIpsOf (storeOf (buildPoolTree 3 chain)))
               (Spec.descendants 3 (storeOf (buildPoolTree 3 chain)) 1))).
Proof.
  repeat split; try (vm_compute; reflexivity).
  vm_compute. intros E. discriminate E.
Qed.

(** C1, as amended.  [buildPoolTree] returns on every collection with
    distinct ids, and in the forest it returns the [usedIps] of every node
    is the sum of [totalIps] over its direct children, added up in the
    order of the [children] array; a node without children has [usedIps] 0.
    Deeper descendants are not added. *)
Theorem usedIps_direct_children pools fuel :
  NoDup (map id pools) -> (length pools <= fuel)%nat ->
  exists h roots,
    buildPoolTree fuel pools = Done (h, roots) /\
    forall i nd,
      inForest h roots i -> h !! i = Some nd ->
      usedIps nd = Spec.sumIps (map (Spec.totalIpsOf h) (children nd)) /\
      (children nd = [] -> usedIps nd = Int 0).
Proof.
  intros Hnd Hf.
  destruct (buildPoolTree_total pools Hnd fuel Hf) as (_ & h & E & _).
  exists h, (map id (List.filter isRoot pools)). split; [exact E|].
  intros i nd. now apply (usedIps_settled fuel pools).
Qed.

Lemma usedIps_direct_children_witness :
  exists h roots,
    buildPoolTree 3 chain = Done (h, roots) /\
    forall i nd,
      inForest h roots i -> h !! i = Some nd ->
      usedIps nd = Spec.sumIps (map (Spec.totalIpsOf h) (children nd)) /\
      (children nd = [] -> usedIps nd = Int 0).
Proof.
  apply (usedIps_direct_children chain 3).
  - apply (bool_decide_unpack _). vm_compute. exact I.
  - simpl. lia.
Defined.

End TreeClaims.

Section Validation.

Lemma noChar_app c s t : noChar c (s +:+ t) = noChar c s && noChar c t.
Proof.
  induction s as [|a s IH]; [reflexivity|].
  rewrite sapp_cons. cbn [noChar]. now rewrite IH, andb_assoc.
Qed.

Lemma octet_show o :
  0 <= o <= 255 ->
  noChar "." (show o) = true /\ noChar "/" (show o) = true /\
  Spec.isDecimal (show o) = true /\ digitsVal (show o) = o.
Proof.
  intros H. pose proof (octet_checks o H) as C. unfold octetChecks in C.
  apply andb_true_iff in C as [C E]. apply andb_true_iff in C as [C _].
  apply andb_true_iff in C as [C D]. apply andb_true_iff in C as [C1 C2].
  apply Z.eqb_eq in E. auto.
Qed.

(** Normalising a valid CIDR gives a valid CIDR. *)
Lemma normalize_valid c :
  Spec.isValidCIDR c = true ->
  exists c', normalizeCIDR c = Some c' /\ Spec.isValidCIDR c' = true.
Proof.
  intros H.
  destruct (valid_cidr_parts c H)
    as (ip & p & p0 & p1 & p2 & p3 & Es & Ei & O0 & O1 & O2 & O3 & Dp & Rp).
  destruct (isOctet_Number _ O0) as (N0 & R0 & _).
  destruct (isOctet_Number _ O1) as (N1 & R1 & _).
  destruct (isOctet_Number _ O2) as (N2 & R2 & _).
  destruct (isOctet_Number _ O3) as (N3 & R3 & _).
  unfold normalizeCIDR, getNetworkAddress. rewrite Es.
  cbn [nth lookup list_lookup]. unfold parseIntN.
  rewrite (parseInt_decimal p Dp), norm_small by lia.
  rewrite (ipToNumber_octets ip p0 p1 p2 p3 _ _ _ _ Ei N0 N1 N2 N3 R0 R1 R2 R3).
  set (U := digitsVal p0 * 2 ^ 24 + digitsVal p1 * 2 ^ 16 +
            digitsVal p2 * 2 ^ 8 + digitsVal p3).
  assert (HU : 0 <= U < 2 ^ 32) by (unfold U; lia).
  set (P := digitsVal p) in *.
  assert (Hk : 0 <= 32 - P <= 24) by lia.
  rewrite (maskOf_prefix P Rp), (network_value U _ HU Hk), numberToIp_Int.
  cbn [toString mbind option_bind].
  eexists. split; [reflexivity|].
  set (N := U / 2 ^ (32 - P) * 2 ^ (32 - P)).
  pose proof (octets_range N) as R.
  destruct (octets N) as [|a [|b [|d [|e [|]]]]] eqn:EO;
    try (unfold octets in EO; discriminate EO).
  inversion R as [|? ? Ha R1']; subst. inversion R1' as [|? ? Hb R2']; subst.
  inversion R2' as [|? ? Hd R3']; subst. inversion R3' as [|? ? He _]; subst.
  destruct (octet_show a Ha) as (Da & Sa & Ia & Va).
  destruct (octet_show b Hb) as (Db & Sb & Ib & Vb).
  destruct (octet_show d Hd) as (Dd & Sd & Id & Vd).
  destruct (octet_show e He) as (De & Se & Ie & Ve).
  destruct (octet_show P ltac:(lia)) as (_ & SP & IP & VP).
  cbn [map]. unfold Spec.isValidCIDR.
  rewrite sapp_cons, sapp_nil, split_app.
  2: { cbn [join]. rewrite !noChar_app, Sa, Sb, Sd, Se. reflexivity. }
  rewrite (split_nosep "/" (show P) SP).
  unfold Spec.isValidIP. rewrite split_join4 by assumption.
  unfold Spec.isOctet. rewrite Ia, Ib, Id, Ie, IP, Va, Vb, Vd, Ve, VP.
  repeat match goal with
         | |- context [?x <=? ?y] => destruct (Z.leb_spec x y); try lia
         end; reflexivity.
Qed.

Lemma valid_nonempty c : Spec.isValidCIDR c = true -> String.eqb c EmptyString = false.
Proof. destruct c; [discriminate|reflexivity]. Qed.

Lemma firstOverlap_valid c sibs :
  Spec.isValidCIDR c = true ->
  (forall s, s ∈ sibs -> Spec.isValidCIDR (cidr s) = true) ->
  firstOverlap c sibs =
  Some (overlapMessage <$>
          List.find (fun s => Spec.intervalsMeet c (cidr s)) sibs).
Proof.
  intros Hc. induction sibs as [|s sibs IH]; intros Hs; [reflexivity|].
  cbn [firstOverlap List.find].
  rewrite overlap_value by (auto; apply Hs; now left).
  cbn [mbind option_bind].
  destruct (Spec.intervalsMeet c (cidr s)); [reflexivity|].
  apply IH. intros s' Hs'. apply Hs. now right.
Qed.

Lemma find_id_none pools q :
  (forall p, p ∈ pools -> id p <> q) ->
  List.find (fun p => id p =? q) pools = None.
Proof.
  induction pools as [|p pools IH]; intros H; [reflexivity|].
  cbn [List.find]. destruct (Z.eqb_spec (id p) q) as [E|_].
  - exfalso. apply (H p); [now left|assumption].
  - apply IH. intros p' Hp'. apply H. now right.
Qed.

(** C3, as amended.  When [parentId] is given and no pool has that id,
    [validateCIDR] reports no missing parent and makes no containment
    check: on a valid CIDR its verdict is that of the duplicate check
    followed by the overlap check against the pools that carry the same
    [parentId], and the error is empty when both pass. *)
Theorem validateCIDR_parent_missing pools table c q st :
  Spec.isValidCIDR c = true ->
  (forall p, p ∈ pools -> id p <> q) ->
  (forall p, p ∈ pools -> parentId p = Some q ->
             Spec.isValidCIDR (cidr p) = true) ->
  exists c' st',
    normalizeCIDR c = Some c' /\
    validateCIDR pools table c (Some q) st = Some st' /\
    validationError st' =
      if cidrExists table c' then "This CIDR range already exists"%string
      else match List.find (fun s => Spec.intervalsMeet c' (cidr s))
                   (List.filter (fun p => bool_decide (parentId p = Some q))
                                pools) with
           | Some s => overlapMessage s
           | None => EmptyString
           end.
Proof.
  intros Hc Hq Hs.
  destruct (normalize_valid c Hc) as (c' & En & Hc').
  unfold validateCIDR.
  rewrite (valid_nonempty c Hc), (valid_accepted c Hc), En.
  cbn [negb mbind option_bind].
  rewrite (find_id_none pools q Hq). cbn [mbind option_bind negb].
  rewrite (firstOverlap_valid c' _ Hc').
  2: { intros s Hin. apply list_elem_of_In, List.filter_In in Hin as [Hin Hp].
       apply bool_decide_eq_true in Hp. apply Hs; [|assumption].
       now apply list_elem_of_In. }
  cbn [mbind option_bind].
  exists c'. destruct (cidrExists table c').
  - eexists. repeat split.
  - destruct (List.find _ _); eexists; repeat split.
Qed.

Lemma validateCIDR_parent_missing_witness :
  validationError <$>
    validateCIDR [mkPool 1 "A" "10.0.0.0/16" None] [] "10.0.0.77/24" (Some 99)
                 emptyForm
  = Some EmptyString.
Proof.
  destruct (validateCIDR_parent_missing
              [mkPool 1 "A" "10.0.0.0/16" None] [] "10.0.0.77/24" 99 emptyForm
              eq_refl)
    as (c' & st' & En & Ev & Er).
  - intros p Hp. apply list_elem_of_singleton in Hp as ->. discriminate.
  - intros p Hp. apply list_elem_of_singleton in Hp as ->. discriminate.
  - rewrite Ev. cbn [fmap option_fmap option_map]. rewrite Er.
    vm_compute in En. injection En as <-. vm_compute. reflexivity.
Defined.

(** C3 as stated fails: a candidate under parent 99, with no pool at all.
    The validation ends with an empty error. *)
Lemma validateCIDR_accepts_missing_parent :
  validationError <$> validateCIDR [] [] "10.0.0.0/24" (Some 99) emptyForm
  = Some EmptyString /\
  Spec.hasId [] 99 = false.
Proof. split; vm_compute; reflexivity. Qed.

End Validation.

Section Normalisation.

Lemma printCIDR_fields n p :
  0 <= n < 2 ^ 32 -> 0 <= p <= 255 ->
  split "/" (printCIDR n p) = [join "." (map show (octets n)); show p] /\
  Spec.isValidIP (join "." (map show (octets n))) = true /\
  Spec.isCanonicalIP (join "." (map show (octets n))) = true /\
  Spec.addressOf (join "." (map show (octets n))) = n /\
  Spec.isDecimal (show p) = true /\ digitsVal (show p) = p.
Proof.
  intros Hn Hp. unfold printCIDR.
  pose proof (octets_range n) as R. pose proof (octets_value n) as V.
  destruct (octets n) as [|a [|b [|d [|e [|]]]]] eqn:EO; try contradiction.
  inversion R as [|? ? Ha R1']; subst. inversion R1' as [|? ? Hb R2']; subst.
  inversion R2' as [|? ? Hd R3']; subst. inversion R3' as [|? ? He _]; subst.
  pose proof (octet_checks a Ha) as Ca. pose proof (octet_checks b Hb) as Cb.
  pose proof (octet_checks d Hd) as Cd. pose proof (octet_checks e He) as Ce.
  unfold octetChecks in Ca, Cb, Cd, Ce.
  apply andb_true_iff in Ca as [Ca Va]. apply andb_true_iff in Ca as [Ca Za].
  apply andb_true_iff in Ca as [Ca Ia]. apply andb_true_iff in Ca as [Da Sa].
  apply andb_true_iff in Cb as [Cb Vb]. apply andb_true_iff in Cb as [Cb Zb].
  apply andb_true_iff in Cb as [Cb Ib]. apply andb_true_iff in Cb as [Db Sb].
  apply andb_true_iff in Cd as [Cd Vd]. apply andb_true_iff in Cd as [Cd Zd].
  apply andb_true_iff in Cd as [Cd Id]. apply andb_true_iff in Cd as [Dd Sd].
  apply andb_true_iff in Ce as [Ce Ve]. apply andb_true_iff in Ce as [Ce Ze].
  apply andb_true_iff in Ce as [Ce Ie]. apply andb_true_iff in Ce as [De Se].
  apply Z.eqb_eq in Va, Vb, Vd, Ve.
  destruct (octet_show p Hp) as (_ & SP & IP & VP).
  cbn [map].
  assert (Es : split "." (join "." [show a; show b; show d; show e]) =
               [show a; show b; show d; show e]) by now apply split_join4.
  assert (Ev : Spec.isValidIP (join "." [show a; show b; show d; show e]) = true).
  { unfold Spec.isValidIP. rewrite Es. unfold Spec.isOctet.
    rewrite Ia, Ib, Id, Ie, Va, Vb, Vd, Ve.
    repeat match goal with
           | |- context [?x <=? ?y] => destruct (Z.leb_spec x y); try lia
           end; reflexivity. }
  repeat split; auto.
  - rewrite sapp_cons, sapp_nil, split_app.
    + now rewrite (split_nosep "/" (show p) SP).
    + cbn [join]. rewrite !noChar_app, Sa, Sb, Sd, Se. reflexivity.
  - unfold Spec.isCanonicalIP. rewrite Ev, Es. cbn [forallb].
    now rewrite Za, Zb, Zd, Ze.
  - unfold Spec.addressOf. rewrite Es. cbn [map]. rewrite Va, Vb, Vd, Ve, V.
    apply Z.mod_small. lia.
Qed.

Lemma normalize_form c :
  Spec.isValidCIDR c = true ->
  normalizeCIDR c = Some (printCIDR (Spec.networkOf c) (Spec.prefixOf c)).
Proof.
  intros H.
  destruct (valid_cidr_parts c H)
    as (ip & p & p0 & p1 & p2 & p3 & Es & Ei & O0 & O1 & O2 & O3 & Dp & Rp).
  destruct (isOctet_Number _ O0) as (N0 & R0 & _).
  destruct (isOctet_Number _ O1) as (N1 & R1 & _).
  destruct (isOctet_Number _ O2) as (N2 & R2 & _).
  destruct (isOctet_Number _ O3) as (N3 & R3 & _).
  unfold normalizeCIDR, getNetworkAddress, printCIDR, Spec.networkOf,
    Spec.sizeOf, Spec.prefixOf, Spec.ipOf, Spec.addressOf.
  rewrite Es. cbn [nth lookup list_lookup]. rewrite Ei. cbn [map].
  unfold parseIntN.
  rewrite (parseInt_decimal p Dp), norm_small by lia.
  rewrite (ipToNumber_octets ip p0 p1 p2 p3 _ _ _ _ Ei N0 N1 N2 N3 R0 R1 R2 R3).
  set (U := digitsVal p0 * 2 ^ 24 + digitsVal p1 * 2 ^ 16 +
            digitsVal p2 * 2 ^ 8 + digitsVal p3).
  assert (HU : 0 <= U < 2 ^ 32) by (unfold U; lia).
  assert (Hk : 0 <= 32 - digitsVal p <= 24) by lia.
  rewrite (maskOf_prefix _ Rp), (network_value U _ HU Hk), numberToIp_Int.
  reflexivity.
Qed.

(** The block of a valid CIDR, in numbers. *)
Lemma block_facts c :
  Spec.isValidCIDR c = true ->
  8 <= Spec.prefixOf c <= 32 /\
  0 <= Spec.addressOf (Spec.ipOf c) < 2 ^ 32 /\
  1 <= Spec.sizeOf c <= 2 ^ 24 /\
  Spec.networkOf c mod Spec.sizeOf c = 0 /\
  Spec.networkOf c <= Spec.addressOf (Spec.ipOf c) <= Spec.broadcastOf c /\
  0 <= Spec.networkOf c /\ Spec.broadcastOf c < 2 ^ 32.
Proof.
  intros H.
  destruct (valid_cidr_parts c H)
    as (ip & p & p0 & p1 & p2 & p3 & Es & Ei & O0 & O1 & O2 & O3 & Dp & Rp).
  destruct (isOctet_Number _ O0) as (_ & R0 & _).
  destruct (isOctet_Number _ O1) as (_ & R1 & _).
  destruct (isOctet_Number _ O2) as (_ & R2 & _).
  destruct (isOctet_Number _ O3) as (_ & R3 & _).
  unfold Spec.broadcastOf, Spec.networkOf, Spec.sizeOf, Spec.prefixOf,
    Spec.ipOf, Spec.addressOf.
  rewrite Es. cbn [nth]. rewrite Ei. cbn [map].
  set (U := digitsVal p0 * 2 ^ 24 + digitsVal p1 * 2 ^ 16 +
            digitsVal p2 * 2 ^ 8 + digitsVal p3).
  assert (HU : 0 <= U < 2 ^ 32) by (unfold U; lia).
  assert (Hk : 0 <= 32 - digitsVal p <= 24) by lia.
  destruct (pow2_facts _ Hk) as (Hp & _).
  pose proof (block_bounds U _ HU Hk) as HN. cbv zeta in HN.
  pose proof (Z.div_mod U (2 ^ (32 - digitsVal p)) ltac:(lia)) as DM.
  pose proof (Z.mod_pos_bound U (2 ^ (32 - digitsVal p)) ltac:(lia)) as MB.
  repeat split; try lia.
  apply Z.mod_mul. lia.
Qed.

Lemma normalized_block c :
  Spec.isValidCIDR c = true ->
  let c' := printCIDR (Spec.networkOf c) (Spec.prefixOf c) in
  Spec.isValidCIDR c' = true /\
  Spec.prefixOf c' = Spec.prefixOf c /\
  Spec.networkOf c' = Spec.networkOf c /\
  Spec.broadcastOf c' = Spec.broadcastOf c /\
  Spec.isCanonicalIP (Spec.ipOf c') = true /\
  Spec.addressOf (Spec.ipOf c') = Spec.networkOf c.
Proof.
  intros H c'.
  destruct (block_facts c H) as (Rp & RU & Rs & Hm & Ha & H0 & H32).
  assert (Hn : 0 <= Spec.networkOf c < 2 ^ 32).
  { unfold Spec.broadcastOf in H32. lia. }
  destruct (printCIDR_fields (Spec.networkOf c) (Spec.prefixOf c) Hn ltac:(lia))
    as (Es & Ev & Ec & Ea & Dp & Vp).
  fold c' in Es.
  assert (P' : Spec.prefixOf c' = Spec.prefixOf c).
  { unfold Spec.prefixOf at 1. rewrite Es. cbn [nth]. exact Vp. }
  assert (I' : Spec.ipOf c' = join "." (map show (octets (Spec.networkOf c)))).
  { unfold Spec.ipOf. rewrite Es. reflexivity. }
  assert (S' : Spec.sizeOf c' = Spec.sizeOf c).
  { unfold Spec.sizeOf. now rewrite P'. }
  assert (N' : Spec.networkOf c' = Spec.networkOf c).
  { unfold Spec.networkOf at 1. rewrite I', Ea, S'.
    apply Z.mod_divide in Hm; [|lia]. destruct Hm as [q Hq].
    rewrite Hq, Z.div_mul by lia. reflexivity. }
  repeat split; auto.
  - unfold Spec.isValidCIDR. rewrite Es, Ev, Dp, Vp.
    repeat match goal with
           | |- context [?x <=? ?y] => destruct (Z.leb_spec x y); try lia
           end; reflexivity.
  - unfold Spec.broadcastOf. now rewrite N', S'.
  - now rewrite I'.
  - now rewrite I'.
Qed.

(** X1.  [normalizeCIDR] on a valid CIDR gives a valid CIDR of the same
    prefix and the same block, written on its network address, and
    normalising again changes nothing. *)
Theorem normalizeCIDR_idempotent c :
  Spec.isValidCIDR c = true ->
  exists c',
    normalizeCIDR c = Some c' /\
    normalizeCIDR c' = Some c' /\
    isValidCIDR c' = true /\
    Spec.addressOf (Spec.ipOf c') = Spec.networkOf c /\
    Spec.prefixOf c' = Spec.prefixOf c /\
    networkAddress (parseCIDR c') = networkAddress (parseCIDR c) /\
    broadcastAddress (parseCIDR c') = broadcastAddress (parseCIDR c) /\
    IpUtils.totalIps (parseCIDR c') = IpUtils.totalIps (parseCIDR c).
Proof.
  intros H. pose proof (normalized_block c H) as B. cbv zeta in B.
  destruct B as (V' & P' & N' & B' & _ & A').
  exists (printCIDR (Spec.networkOf c) (Spec.prefixOf c)).
  split; [now apply normalize_form|].
  split; [rewrite (normalize_form _ V'), N', P'; reflexivity|].
  split; [now apply valid_accepted|].
  destruct (parseCIDR_valid c H) as (E1 & E2 & E3 & _).
  destruct (parseCIDR_valid _ V') as (F1 & F2 & F3 & _).
  rewrite E1, E2, E3, F1, F2, F3, N', B'. unfold Spec.sizeOf. rewrite P'.
  repeat split; auto.
Qed.

Lemma normalizeCIDR_idempotent_witness :
  normalizeCIDR "10.0.0.5/24" = Some "10.0.0.0/24"%string /\
  normalizeCIDR "10.0.0.0/24" = Some "10.0.0.0/24"%string.
Proof.
  destruct (normalizeCIDR_idempotent "10.0.0.5/24" eq_refl)
    as (c' & E1 & E2 & _).
  assert (E : c' = "10.0.0.0/24"%string).
  { vm_compute in E1. now injection E1. }
  subst c'. split; assumption.
Defined.

End Normalisation.

Section Addresses.

(** X2.  On a valid address [ipToNumber] is the signed 32-bit reading of the
    address: equal to it modulo 2^32, and equal to it exactly when the
    address is below 2^31 (first octet below 128). *)
Theorem ipToNumber_signed ip :
  Spec.isValidIP ip = true ->
  exists z,
    ipToNumber ip = Int z /\ - 2 ^ 31 <= z < 2 ^ 31 /\
    z mod 2 ^ 32 = Spec.addressOf ip /\
    (z = Spec.addressOf ip <-> Spec.addressOf ip < 2 ^ 31) /\
    (z = Spec.addressOf ip - 2 ^ 32 <-> 2 ^ 31 <= Spec.addressOf ip).
Proof.
  intros H. exists (ToInt32 (Spec.addressOf ip)).
  split; [now apply ipToNumber_valid|].
  assert (R : 0 <= Spec.addressOf ip < 2 ^ 32).
  { unfold Spec.isValidIP, Spec.addressOf in *.
    destruct (split "." ip) as [|p0 [|p1 [|p2 [|p3 [|]]]]]; try discriminate.
    apply andb_true_iff in H as [H O3]. apply andb_true_iff in H as [H O2].
    apply andb_true_iff in H as [O0 O1].
    destruct (isOctet_Number _ O0) as (_ & R0 & _).
    destruct (isOctet_Number _ O1) as (_ & R1 & _).
    destruct (isOctet_Number _ O2) as (_ & R2 & _).
    destruct (isOctet_Number _ O3) as (_ & R3 & _).
    cbn [map]. lia. }
  split; [apply ToInt32_range|].
  rewrite ToInt32_unsigned by assumption.
  destruct (Z.ltb_spec (Spec.addressOf ip) (2 ^ 31)).
  - rewrite Z.mod_small by lia. repeat split; intros; lia.
  - replace (Spec.addressOf ip - 2 ^ 32)
      with (Spec.addressOf ip + (-1) * 2 ^ 32) by lia.
    rewrite Z.mod_add, Z.mod_small by lia. repeat split; intros; lia.
Qed.

Lemma ipToNumber_signed_witness :
  exists z, ipToNumber "192.168.1.1" = Int z /\ z = 3232235777 - 2 ^ 32.
Proof.
  destruct (ipToNumber_signed "192.168.1.1" eq_refl) as (z & E & _ & _ & _ & S).
  exists z. split; [exact E|]. apply S. vm_compute. discriminate.
Defined.

(** X3.  [numberToIp] of any integer is a canonical dotted quad whose address
    is the integer modulo 2^32, and [ipToNumber] reads it back as the
    signed 32-bit value of the integer. *)
Theorem numberToIp_canonical u :
  exists s,
    numberToIp (Int u) = Some s /\
    Spec.isCanonicalIP s = true /\ isValidIp s = true /\
    Spec.addressOf s = u mod 2 ^ 32 /\
    ipToNumber s = Int (ToInt32 u).
Proof.
  destruct (ipToNumber_numberToIp u) as (s & E & R).
  exists s. split; [exact E|].
  rewrite numberToIp_Int in E.
  assert (Es : s = join "." (map show (octets u))) by congruence.
  clear E. subst s.
  assert (Hw : 0 <= u mod 2 ^ 32 < 2 ^ 32) by (apply Z.mod_pos_bound; lia).
  assert (Eo : octets u = octets (u mod 2 ^ 32)).
  { unfold octets. now rewrite Z.mod_mod by lia. }
  rewrite Eo in *.
  destruct (printCIDR_fields (u mod 2 ^ 32) 8 Hw ltac:(lia))
    as (_ & Ev & Ec & Ea & _).
  repeat split; auto.
  unfold Spec.isValidIP in Ev. unfold isValidIp.
  destruct (split "." _) as [|p0 [|p1 [|p2 [|p3 [|]]]]]; try discriminate.
  apply andb_true_iff in Ev as [Ev O3]. apply andb_true_iff in Ev as [Ev O2].
  apply andb_true_iff in Ev as [O0 O1].
  destruct (isOctet_Number _ O0) as (_ & R0 & E0).
  destruct (isOctet_Number _ O1) as (_ & R1 & E1).
  destruct (isOctet_Number _ O2) as (_ & R2 & E2).
  destruct (isOctet_Number _ O3) as (_ & R3 & E3).
  cbn [length Nat.eqb negb forallb]. rewrite E0, E1, E2, E3.
  repeat match goal with
         | |- context [?x <=? ?y] => destruct (Z.leb_spec x y); try lia
         end; reflexivity.
Qed.

(** X4.  What [parseCIDR] returns on a valid CIDR: the block is aligned on its
    size, holds the address, and [totalIps] counts its addresses. *)
Theorem parseCIDR_block c :
  Spec.isValidCIDR c = true ->
  exists n b p,
    networkAddress (parseCIDR c) = numberToIp (Int n) /\
    broadcastAddress (parseCIDR c) = numberToIp (Int b) /\
    prefix (parseCIDR c) = Int p /\
    IpUtils.totalIps (parseCIDR c) = Int (2 ^ (32 - p)) /\
    8 <= p <= 32 /\
    b - n + 1 = 2 ^ (32 - p) /\
    n mod 2 ^ (32 - p) = 0 /\
    0 <= n <= Spec.addressOf (Spec.ipOf c) /\
    Spec.addressOf (Spec.ipOf c) <= b < 2 ^ 32.
Proof.
  intros H.
  destruct (parseCIDR_valid c H) as (E1 & E2 & E3 & E4 & _).
  destruct (block_facts c H) as (Rp & RU & Rs & Hm & Ha & H0 & H32).
  exists (Spec.networkOf c), (Spec.broadcastOf c), (Spec.prefixOf c).
  unfold Spec.broadcastOf, Spec.sizeOf in *.
  repeat split; auto; lia.
Qed.

Lemma parseCIDR_block_witness :
  IpUtils.totalIps (parseCIDR "172.16.5.9/20") = Int 4096.
Proof.
  destruct (parseCIDR_block "172.16.5.9/20" eq_refl)
    as (n & b & p & _ & _ & Ep & Et & _).
  rewrite Et. vm_compute in Ep. injection Ep as <-. reflexivity.
Defined.



(** X6.  The shift count of the mask is taken modulo 32, so two prefixes that
    differ by a multiple of 32 give the same mask: prefix 0 masks like
    prefix 32 (all ones), not like "no bit". *)
Theorem maskOf_modulo p q :
  Z.abs p <= 2 ^ 52 -> Z.abs q <= 2 ^ 52 -> p mod 32 = q mod 32 ->
  maskOf (Int p) = maskOf (Int q).
Proof.
  intros Hp Hq E. unfold maskOf. cbn [sub]. rewrite !norm_small by lia.
  unfold shl. cbn [toInt32 toUint32]. do 2 f_equal. f_equal. f_equal.
  unfold ToUint32.
  assert (G : forall x, (x mod 2 ^ 32) mod 32 = x mod 32).
  { intros x. change (2 ^ 32) with (32 * 134217728).
    rewrite Z.rem_mul_r by lia. rewrite Z.mul_comm, Z.mod_add by lia.
    apply Z.mod_mod. lia. }
  rewrite !G. rewrite (Zminus_mod 32 p), (Zminus_mod 32 q), E. reflexivity.
Qed.

Lemma maskOf_modulo_witness : maskOf (Int 0) = Int 4294967295.
Proof.
  rewrite (maskOf_modulo 0 32); [reflexivity|vm_compute; discriminate..|reflexivity].
Defined.

End Addresses.

Section Nesting.

Lemma inside_true c p :
  Spec.isValidCIDR c = true -> Spec.isValidCIDR p = true ->
  (isChildOfParent c p = Some true <->
   Spec.networkOf p <= Spec.networkOf c /\
   Spec.broadcastOf c <= Spec.broadcastOf p).
Proof.
  intros Hc Hp. rewrite (inside_value c p Hc Hp). unfold Spec.intervalInside.
  destruct (Z.leb_spec (Spec.networkOf p) (Spec.networkOf c)),
    (Z.leb_spec (Spec.broadcastOf c) (Spec.broadcastOf p)); cbn;
    split; try lia; intros E; try discriminate; reflexivity.
Qed.

Lemma overlap_true a b :
  Spec.isValidCIDR a = true -> Spec.isValidCIDR b = true ->
  (cidrsOverlap a b = Some true <->
   Spec.networkOf a <= Spec.broadcastOf b /\
   Spec.networkOf b <= Spec.broadcastOf a).
Proof.
  intros Ha Hb. rewrite (overlap_value a b Ha Hb). unfold Spec.intervalsMeet.
  rewrite Z.geb_leb.
  destruct (Z.leb_spec (Spec.networkOf a) (Spec.broadcastOf b)),
    (Z.leb_spec (Spec.networkOf b) (Spec.broadcastOf a)); cbn;
    split; try lia; intros E; try discriminate; reflexivity.
Qed.

(** Two aligned blocks, the second a multiple of the first in size: if they
    meet, the first lies in the second. *)
Lemma aligned_nest q1 s1 q2 t :
  0 < s1 -> 0 < t ->
  q1 * s1 <= q2 * (t * s1) + t * s1 - 1 ->
  q2 * (t * s1) <= q1 * s1 + s1 - 1 ->
  q2 * (t * s1) <= q1 * s1 /\
  q1 * s1 + s1 - 1 <= q2 * (t * s1) + t * s1 - 1.
Proof.
  intros Hs Ht H1 H2.
  assert (A : q2 * t < q1 + 1).
  { apply (Z.mul_lt_mono_pos_r s1); lia. }
  assert (B : q1 < q2 * t + t).
  { apply (Z.mul_lt_mono_pos_r s1); lia. }
  assert (A' : (q2 * t) * s1 <= q1 * s1)
    by (apply Z.mul_le_mono_nonneg_r; lia).
  assert (B' : (q1 + 1) * s1 <= (q2 * t + t) * s1)
    by (apply Z.mul_le_mono_nonneg_r; lia).
  lia.
Qed.

Lemma size_multiple a b :
  Spec.isValidCIDR a = true -> Spec.isValidCIDR b = true ->
  Spec.prefixOf b <= Spec.prefixOf a ->
  exists qa qb t,
    0 < Spec.sizeOf a /\ 0 < t /\ Spec.sizeOf b = t * Spec.sizeOf a /\
    Spec.networkOf a = qa * Spec.sizeOf a /\
    Spec.networkOf b = qb * Spec.sizeOf b.
Proof.
  intros Ha Hb Hp.
  destruct (block_facts a Ha) as (Pa & _ & Sa & Ma & _).
  destruct (block_facts b Hb) as (Pb & _ & Sb & Mb & _).
  apply Z.mod_divide in Ma; [|lia]. apply Z.mod_divide in Mb; [|lia].
  destruct Ma as [qa Ea]. destruct Mb as [qb Eb].
  exists qa, qb, (2 ^ (Spec.prefixOf a - Spec.prefixOf b)).
  split; [lia|]. split; [apply Z.pow_pos_nonneg; lia|].
  split; [|split; assumption].
  unfold Spec.sizeOf. rewrite <- Z.pow_add_r by lia. f_equal. lia.
Qed.

(** X7.  Two valid blocks overlap exactly when one contains the other, and
    then the one with the longer prefix is the inner one.  In particular
    containment implies overlap. *)
Theorem overlap_is_containment a b :
  Spec.isValidCIDR a = true -> Spec.isValidCIDR b = true ->
  (cidrsOverlap a b = Some true <->
   isChildOfParent a b = Some true \/ isChildOfParent b a = Some true) /\
  (cidrsOverlap a b = Some true -> Spec.prefixOf b <= Spec.prefixOf a ->
   isChildOfParent a b = Some true) /\
  (isChildOfParent a b = Some true -> cidrsOverlap a b = Some true).
Proof.
  intros Ha Hb.
  assert (N : forall x y,
             Spec.isValidCIDR x = true -> Spec.isValidCIDR y = true ->
             cidrsOverlap x y = Some true ->
             Spec.prefixOf y <= Spec.prefixOf x ->
             isChildOfParent x y = Some true).
  { intros x y Hx Hy O Hp.
    apply (overlap_true x y Hx Hy) in O as [O1 O2].
    apply (inside_true x y Hx Hy).
    destruct (size_multiple x y Hx Hy Hp)
      as (qx & qy & t & Sx & Ht & Es & Ex & Ey).
    unfold Spec.broadcastOf in *. rewrite Ex, Ey, Es in *.
    apply aligned_nest; assumption. }
  assert (I : forall x y,
             Spec.isValidCIDR x = true -> Spec.isValidCIDR y = true ->
             isChildOfParent x y = Some true -> cidrsOverlap x y = Some true).
  { intros x y Hx Hy C.
    apply (inside_true x y Hx Hy) in C as [C1 C2].
    apply (overlap_true x y Hx Hy).
    destruct (block_facts x Hx) as (_ & _ & Sx & _).
    destruct (block_facts y Hy) as (_ & _ & Sy & _).
    unfold Spec.broadcastOf in *. lia. }
  split; [split|split].
  - intros O. destruct (Z.le_ge_cases (Spec.prefixOf b) (Spec.prefixOf a)).
    + left. now apply N.
    + right. apply N; auto.
      apply (overlap_true b a Hb Ha).
      apply (overlap_true a b Ha Hb) in O. tauto.
  - intros [C|C]; [now apply I|].
    apply I in C; auto. apply (overlap_true a b Ha Hb).
    apply (overlap_true b a Hb Ha) in C. tauto.
  - now apply N.
  - now apply I.
Qed.

Lemma overlap_is_containment_witness :
  cidrsOverlap "10.0.0.128/25" "10.0.0.0/24" = Some true <->
  isChildOfParent "10.0.0.128/25" "10.0.0.0/24" = Some true \/
  isChildOfParent "10.0.0.0/24" "10.0.0.128/25" = Some true.
Proof.
  exact (proj1 (overlap_is_containment "10.0.0.128/25" "10.0.0.0/24"
                  eq_refl eq_refl)).
Defined.

(** X8.  On valid CIDRs [isChildOfParent] is an order: transitive, and two
    blocks contain each other exactly when they normalise to the same
    text.  A contained block has a prefix at least as long and at most as
    many addresses. *)
Theorem isChildOfParent_order a b c :
  Spec.isValidCIDR a = true -> Spec.isValidCIDR b = true ->
  Spec.isValidCIDR c = true ->
  (isChildOfParent a b = Some true -> isChildOfParent b c = Some true ->
   isChildOfParent a c = Some true) /\
  (isChildOfParent a b = Some true ->
   Spec.prefixOf b <= Spec.prefixOf a /\ Spec.sizeOf a <= Spec.sizeOf b) /\
  (isChildOfParent a b = Some true /\ isChildOfParent b a = Some true <->
   normalizeCIDR a = normalizeCIDR b).
Proof.
  intros Ha Hb Hc.
  destruct (block_facts a Ha) as (Pa & _ & Sa & _).
  destruct (block_facts b Hb) as (Pb & _ & Sb & _).
  split; [|split].
  - intros H1 H2. apply (inside_true a b Ha Hb) in H1.
    apply (inside_true b c Hb Hc) in H2. apply (inside_true a c Ha Hc). lia.
  - intros H1. apply (inside_true a b Ha Hb) in H1.
    assert (L : Spec.sizeOf a <= Spec.sizeOf b)
      by (unfold Spec.broadcastOf in H1; lia).
    split; [|exact L]. unfold Spec.sizeOf in L.
    apply Z.pow_le_mono_r_iff in L; lia.
  - rewrite (normalize_form a Ha), (normalize_form b Hb). split.
    + intros [H1 H2]. apply (inside_true a b Ha Hb) in H1.
      apply (inside_true b a Hb Ha) in H2.
      assert (En : Spec.networkOf a = Spec.networkOf b) by lia.
      assert (Es : Spec.sizeOf a = Spec.sizeOf b)
        by (unfold Spec.broadcastOf in *; lia).
      unfold Spec.sizeOf in Es. apply Z.pow_inj_r in Es; try lia.
      replace (Spec.prefixOf a) with (Spec.prefixOf b) by lia.
      now rewrite En.
    + intros E. assert (E' : printCIDR (Spec.networkOf a) (Spec.prefixOf a) =
                             printCIDR (Spec.networkOf b) (Spec.prefixOf b))
        by congruence.
      pose proof (normalized_block a Ha) as Ba.
      pose proof (normalized_block b Hb) as Bb. cbv zeta in Ba, Bb.
      destruct Ba as (_ & _ & Na & Ca & _). destruct Bb as (_ & _ & Nb & Cb & _).
      rewrite E' in Na, Ca.
      split; [apply (inside_true a b Ha Hb)|apply (inside_true b a Hb Ha)]; lia.
Qed.

Lemma isChildOfParent_order_witness :
  normalizeCIDR "10.0.0.77/24" = normalizeCIDR "10.0.0.200/24".
Proof.
  apply (isChildOfParent_order "10.0.0.77/24" "10.0.0.200/24" "10.0.0.0/8"
           eq_refl eq_refl eq_refl).
  split; vm_compute; reflexivity.
Defined.

End Nesting.

Section Validity.

(** X9.  Every well-formed CIDR (four decimal octets in [0,255], one
    slash, a decimal prefix in [8,32], nothing else) is accepted by
    [isValidCIDR], and its address by [isValidIp]. *)
Theorem isValidCIDR_accepts_valid s :
  Spec.isValidCIDR s = true -> isValidCIDR s = true /\ isValidIp (Spec.ipOf s) = true.
Proof.
  intros H. pose proof (valid_accepted s H) as A. split; [exact A|].
  unfold isValidCIDR, Spec.ipOf in *.
  destruct (split "/" s) as [|ip [|p [|]]]; try discriminate.
  apply andb_true_iff in A as [A _]. exact A.
Qed.

Lemma isValidCIDR_accepts_valid_witness :
  isValidCIDR "255.255.255.255/32" = true.
Proof. exact (proj1 (isValidCIDR_accepts_valid "255.255.255.255/32" eq_refl)). Defined.

(** X10.  Whatever [isValidCIDR] accepts, trailing text or not, [parseCIDR]
    reads a prefix in [8,32] from it and a [totalIps] that is the power of
    two of that prefix: never NaN, never a fraction. *)
Theorem accepted_prefix s :
  isValidCIDR s = true ->
  exists p,
    8 <= p <= 32 /\ prefix (parseCIDR s) = Int p /\
    IpUtils.totalIps (parseCIDR s) = Int (2 ^ (32 - p)) /\
    1 <= 2 ^ (32 - p) <= 2 ^ 24.
Proof.
  unfold isValidCIDR, parseCIDR. intros H.
  destruct (split "/" s) as [|ip [|pre [|]]]; try discriminate.
  apply andb_true_iff in H as [_ H].
  destruct (parseInt pre) as [z|] eqn:E; [|discriminate].
  apply andb_true_iff in H as [L U]. apply Z.leb_le in L, U.
  exists z. cbn [lookup list_lookup prefix IpUtils.totalIps].
  unfold parseIntN. rewrite E, norm_small by lia.
  cbn [sub]. rewrite norm_small by lia. unfold pow2.
  destruct (Z.leb_spec 0 (32 - z)), (Z.leb_spec (32 - z) 53); try lia.
  cbn [andb].
  assert (1 <= 2 ^ (32 - z)) by (apply (Z.pow_le_mono_r 2 0 (32 - z)); lia).
  assert (2 ^ (32 - z) <= 2 ^ 24) by (apply Z.pow_le_mono_r; lia).
  repeat split; lia.
Qed.

Lemma accepted_prefix_witness :
  IpUtils.totalIps (parseCIDR "10.0.0.0/24abc") = Int 256.
Proof.
  destruct (accepted_prefix "10.0.0.0/24abc" eq_refl) as (p & _ & Ep & Et & _).
  rewrite Et. vm_compute in Ep. injection Ep as <-. reflexivity.
Defined.

End Validity.

Section Structure.

Lemma attach_all_fields pools :
  exists h1,
    forEach attach pools (fold_left initNode pools ∅, []) =
      Done (h1, map id (List.filter isRoot pools)) /\
    forall i n, h1 !! i = Some n ->
      id (pool n) = i /\ pool n ∈ pools /\
      totalIps n = IpUtils.totalIps (parseCIDR (cidr (pool n))).
Proof.
  pose proof (initialised_all pools) as [D0 F0].
  set (h0 := fold_left initNode pools ∅) in *.
  destruct (attached_loop h0 pools [] (h0, [])) as ([h1 roots] & E & R & D & F).
  { split; [reflexivity|]. split; [reflexivity|].
    intros i n Ei. exists n. destruct (F0 i n Ei) as (_ & _ & C & _).
    repeat split; auto. }
  { intros p Hp. apply D0. apply list_elem_of_fmap. eauto. }
  cbn [fst snd app] in *. subst roots.
  exists h1. split; [exact E|].
  intros i n Ei. destruct (F i n Ei) as (n0 & E0 & Ep & Et & _).
  destruct (F0 i n0 E0) as (I0 & P0 & _ & _ & T0).
  rewrite Ep, Et. auto.
Qed.

(** Every node of the returned store carries its own pool. *)
Lemma store_fields fuel pools h roots :
  buildPoolTree fuel pools = Done (h, roots) ->
  roots = map id (List.filter isRoot pools) /\
  shaped pools h /\
  forall i n, h !! i = Some n ->
    id (pool n) = i /\ pool n ∈ pools /\
    totalIps n = IpUtils.totalIps (parseCIDR (cidr (pool n))).
Proof.
  intros E. destruct (buildPoolTree_inv _ _ _ _ E) as (h1 & E1 & E3).
  destruct (attach_all pools) as (h1' & E1' & Sh & _).
  destruct (attach_all_fields pools) as (h1'' & E1'' & F).
  rewrite E1 in E1', E1''. injection E1' as <- ->. injection E1'' as <-.
  destruct (rootsLoop_correct fuel _ _ _ E3) as (S & _).
  split; [reflexivity|]. split; [eapply shaped_sameShape; eauto|].
  intros i n Ei.
  destruct (sameShape_lookup h h1 i n (sameShape_sym _ _ S) Ei)
    as (n1 & E1n & Ep & _ & Et & _).
  destruct (F i n1 E1n) as (? & ? & ?). rewrite <- Ep, <- Et. auto.
Qed.

Lemma NoDup_filter_ids (f : IPPool -> bool) pools :
  NoDup (map id pools) -> NoDup (map id (List.filter f pools)).
Proof.
  induction pools as [|p pools IH]; cbn; [constructor|].
  intros Hnd. apply NoDup_cons in Hnd as [Hp Hnd].
  destruct (f p); cbn; [|auto]. apply NoDup_cons. split; [|auto].
  intros Hin. apply Hp. apply list_elem_of_fmap in Hin as (q & Eq & Hq).
  apply list_elem_of_fmap. exists q. split; [assumption|].
  apply list_elem_of_In, List.filter_In in Hq as [Hq _].
  now apply list_elem_of_In.
Qed.

Lemma filter_member (f : IPPool -> bool) pools c :
  c ∈ map id (List.filter f pools) ->
  exists p, p ∈ pools /\ id p = c /\ f p = true.
Proof.
  intros Hc. apply list_elem_of_fmap in Hc as (p & -> & Hp).
  apply list_elem_of_In, List.filter_In in Hp as [Hp Hf].
  exists p. split; [now apply list_elem_of_In|auto].
Qed.

(** X11.  The shape of the result.  With distinct ids, the roots are the
    pools without parent, in input order; the children of a node are the
    pools that name it as parent, in input order; every pool has a node;
    no node is listed twice and none has two places in the structure. *)
Theorem forest_structure pools fuel :
  NoDup (map id pools) -> (length pools <= fuel)%nat ->
  exists h roots,
    buildPoolTree fuel pools = Done (h, roots) /\
    roots = map id (List.filter isRoot pools) /\
    (forall i, is_Some (h !! i) <-> i ∈ map id pools) /\
    (forall i n, h !! i = Some n ->
       children n = map id (List.filter (childOf i) pools) /\
       id (pool n) = i /\ pool n ∈ pools /\
       totalIps n = IpUtils.totalIps (parseCIDR (cidr (pool n))) /\
       NoDup (children n) /\
       (forall c, c ∈ children n -> c ∉ roots)) /\
    NoDup roots /\
    (forall i j n m c, h !! i = Some n -> h !! j = Some m ->
       c ∈ children n -> c ∈ children m -> i = j).
Proof.
  intros Hnd Hf.
  destruct (buildPoolTree_total pools Hnd fuel Hf) as (_ & h & E & _).
  destruct (store_fields _ _ _ _ E) as (_ & [D C] & F).
  exists h, (map id (List.filter isRoot pools)).
  split; [exact E|]. split; [reflexivity|]. split; [exact D|].
  split; [|split].
  - intros i n Ei. destruct (F i n Ei) as (? & ? & ?).
    rewrite (C i n Ei). repeat split; auto.
    + now apply NoDup_filter_ids.
    + intros c Hc Hr.
      apply filter_member in Hc as (p & Hp & <- & Hpc).
      apply filter_member in Hr as (q & Hq & Eq & Hqr).
      pose proof (same_id pools Hnd q p Hq Hp Eq). subst q.
      apply bool_decide_eq_true in Hpc, Hqr. congruence.
  - now apply NoDup_filter_ids.
  - intros i j n m c Ei Ej Hn Hm.
    rewrite (C i n Ei) in Hn. rewrite (C j m Ej) in Hm.
    apply filter_member in Hn as (p & Hp & <- & Hpc).
    apply filter_member in Hm as (q & Hq & Eq & Hqc).
    pose proof (same_id pools Hnd q p Hq Hp Eq). subst q.
    apply bool_decide_eq_true in Hpc, Hqc. congruence.
Qed.

Lemma forest_structure_witness :
  exists h roots, buildPoolTree 5 looped = Done (h, roots) /\ roots = [1].
Proof.
  destruct (forest_structure looped 5) as (h & roots & E & R & _).
  - apply (bool_decide_unpack _). vm_compute. exact I.
  - simpl. lia.
  - exists h, roots. split; [exact E|]. rewrite R. reflexivity.
Defined.

Lemma depth_inForest pools h :
  shaped pools h ->
  forall i d, hasDepth pools i d ->
  inForest h (map id (List.filter isRoot pools)) i.
Proof.
  intros [D C]. induction 1 as [p Hp Hr|p q d Hp Hq Hd IH].
  - apply inForest_root. apply list_elem_of_fmap. exists p. split; [reflexivity|].
    apply list_elem_of_In, List.filter_In. split; [now apply list_elem_of_In|].
    now apply bool_decide_eq_true.
  - destruct (proj2 (D q) (depth_id pools q d Hd)) as [n En].
    apply (inForest_child _ _ q n); [exact IH|exact En|].
    rewrite (C q n En). apply list_elem_of_fmap. exists p. split; [reflexivity|].
    apply list_elem_of_In, List.filter_In. split; [now apply list_elem_of_In|].
    now apply bool_decide_eq_true.
Qed.

Lemma depthOf_hasDepth pools fuel :
  forall i d, Spec.depthOf fuel pools i = Some d ->
  exists n, hasDepth pools i n /\ d = Z.of_nat n.
Proof.
  induction fuel as [|fuel IH]; intros i d E; [discriminate|].
  cbn [Spec.depthOf] in E. unfold Spec.poolOf in E.
  destruct (List.find (fun p => id p =? i) pools) as [p|] eqn:Ef;
    [|discriminate].
  apply List.find_some in Ef as [Hp Ei]. apply Z.eqb_eq in Ei. subst i.
  apply list_elem_of_In in Hp. cbn in E.
  destruct (parentId p) as [q|] eqn:Eq.
  - destruct (Spec.depthOf fuel pools q) as [dq|] eqn:Edq; [|discriminate].
    cbn in E. injection E as <-.
    destruct (IH q dq Edq) as (n & Hn & ->).
    exists (S n). split; [econstructor; eauto|lia].
  - injection E as <-. exists 0%nat. split; [now constructor|reflexivity].
Qed.

(** X12.  Which pools are in the forest.  With distinct ids a pool is a node
    of the forest exactly when its chain of parents ends at a root; so a
    pool for which the parent walk [Spec.depthOf] finds a depth is
    never left out. *)
Theorem forest_members pools fuel :
  NoDup (map id pools) -> (length pools <= fuel)%nat ->
  exists h roots,
    buildPoolTree fuel pools = Done (h, roots) /\
    (forall i, inForest h roots i <-> exists d, hasDepth pools i d) /\
    (forall k i d, Spec.depthOf k pools i = Some d -> inForest h roots i).
Proof.
  intros Hnd Hf.
  destruct (buildPoolTree_total pools Hnd fuel Hf) as (_ & h & E & Sh & _).
  exists h, (map id (List.filter isRoot pools)). split; [exact E|].
  assert (M : forall i, inForest h (map id (List.filter isRoot pools)) i <->
                        exists d, hasDepth pools i d).
  { intros i. split; [now apply forest_depth|].
    intros (d & Hd). eapply depth_inForest; eauto. }
  split; [exact M|].
  intros k i d Ed. apply M.
  destruct (depthOf_hasDepth pools k i d Ed) as (n & Hn & _). eauto.
Qed.

Lemma forest_members_witness :
  exists h roots, buildPoolTree 3 chain = Done (h, roots) /\ inForest h roots 3.
Proof.
  destruct (forest_members chain 3) as (h & roots & E & _ & M).
  - apply (bool_decide_unpack _). vm_compute. exact I.
  - simpl. lia.
  - exists h, roots. split; [exact E|].
    apply (M 3%nat 3 2). vm_compute. reflexivity.
Defined.

End Structure.

Section Verdict.

Lemma find_none_forall {A} (f : A -> bool) l :
  List.find f l = None <-> forall x, x ∈ l -> f x = false.
Proof.
  split.
  - intros E x Hx. apply list_elem_of_In in Hx.
    exact (List.find_none f l E x Hx).
  - induction l as [|a l IH]; intros H; [reflexivity|].
    cbn [List.find]. rewrite (H a ltac:(now left)).
    apply IH. intros x Hx. apply H. now right.
Qed.

Lemma overlapMessage_nonempty s : overlapMessage s <> EmptyString.
Proof. unfold overlapMessage. rewrite sapp_cons. discriminate. Qed.

(** One run of [validateCIDR] on a valid candidate, over stored pools with
    valid CIDRs. *)
Lemma verdict_facts pools table c par st :
  Spec.isValidCIDR c = true ->
  (forall p, p ∈ pools -> Spec.isValidCIDR (cidr p) = true) ->
  exists c' st',
    normalizeCIDR c = Some c' /\
    validateCIDR pools table c par st = Some st' /\
    formCidr st' = (if String.eqb c' c then formCidr st else c') /\
    cidrInfo st' = Some (parseCIDR c') /\
    (cidrExists table c' = true ->
     validationError st' = "This CIDR range already exists"%string) /\
    (validationError st' = EmptyString <->
     cidrExists table c' = false /\
     (forall q parent, par = Some q ->
        List.find (fun p => id p =? q) pools = Some parent ->
        Spec.intervalInside c' (cidr parent) = true) /\
     (forall s, s ∈ pools -> parentId s = par ->
        Spec.intervalsMeet c' (cidr s) = false)).
Proof.
  intros Hc Hs.
  destruct (normalize_valid c Hc) as (c' & En & Hc').
  exists c'. unfold validateCIDR.
  rewrite (valid_nonempty c Hc), (valid_accepted c Hc), En.
  cbn [negb mbind option_bind].
  set (sibs := List.filter (fun p => bool_decide (parentId p = par)) pools).
  assert (Efo : firstOverlap c' sibs =
                Some (overlapMessage <$>
                        List.find (fun s => Spec.intervalsMeet c' (cidr s)) sibs)).
  { apply firstOverlap_valid; [assumption|].
    intros s Hin. apply list_elem_of_In, List.filter_In in Hin as [Hin _].
    apply Hs. now apply list_elem_of_In. }
  assert (Sib : List.find (fun s => Spec.intervalsMeet c' (cidr s)) sibs = None <->
                forall s, s ∈ pools -> parentId s = par ->
                          Spec.intervalsMeet c' (cidr s) = false).
  { rewrite find_none_forall. unfold sibs. split.
    - intros H s Hin Hp. apply H.
      apply list_elem_of_In, List.filter_In. split; [now apply list_elem_of_In|].
      now apply bool_decide_eq_true.
    - intros H s Hin. apply list_elem_of_In, List.filter_In in Hin as [Hin Hp].
      apply bool_decide_eq_true in Hp. apply H; [now apply list_elem_of_In|auto]. }
  destruct (cidrExists table c') eqn:Ex.
  { eexists. split; [reflexivity|]. split; [reflexivity|].
    cbn [formCidr cidrInfo validationError].
    repeat split; auto; try discriminate. intros [? _]. discriminate. }
  assert (Ein : match par with
                | Some pid =>
                    match List.find (fun p => id p =? pid) pools with
                    | Some parent => isChildOfParent c' (cidr parent)
                    | None => Some true
                    end
                | None => Some true
                end =
                Some match par with
                     | Some pid =>
                         match List.find (fun p => id p =? pid) pools with
                         | Some parent => Spec.intervalInside c' (cidr parent)
                         | None => true
                         end
                     | None => true
                     end).
  { destruct par as [q|]; [|reflexivity].
    destruct (List.find _ pools) as [parent|] eqn:Ef; [|reflexivity].
    apply inside_value; [assumption|]. apply Hs.
    apply List.find_some in Ef as [Hin _]. now apply list_elem_of_In. }
  rewrite Ein. cbn [mbind option_bind].
  destruct par as [q|].
  - destruct (List.find (fun p => id p =? q) pools) as [parent|] eqn:Ef.
    + destruct (Spec.intervalInside c' (cidr parent)) eqn:Ei; cbn [negb].
      * fold sibs. rewrite Efo. cbn [mbind option_bind].
        destruct (List.find _ sibs) as [s|] eqn:Efs; cbn [fmap option_fmap option_map];
          eexists; (split; [reflexivity|]); (split; [reflexivity|]);
          cbn [formCidr cidrInfo validationError];
          (split; [reflexivity|]); (split; [reflexivity|]);
          (split; [discriminate|]).
        -- split.
           ++ intros E. exfalso. exact (overlapMessage_nonempty s E).
           ++ intros (_ & _ & H). apply Sib in H. discriminate.
        -- split; [|reflexivity]. intros _. split; [reflexivity|].
           split; [|now apply Sib].
           intros q' parent' Eq Ef'. injection Eq as <-. congruence.
      * eexists. split; [reflexivity|]. split; [reflexivity|].
        cbn [formCidr cidrInfo validationError].
        split; [reflexivity|]. split; [reflexivity|]. split; [discriminate|].
        split; [discriminate|].
        intros (_ & H & _). specialize (H q parent eq_refl Ef). congruence.
    + cbn [negb]. fold sibs. rewrite Efo. cbn [mbind option_bind].
      destruct (List.find _ sibs) as [s|] eqn:Efs; cbn [fmap option_fmap option_map];
        eexists; (split; [reflexivity|]); (split; [reflexivity|]);
        cbn [formCidr cidrInfo validationError];
        (split; [reflexivity|]); (split; [reflexivity|]);
        (split; [discriminate|]).
      * split.
        -- intros E. exfalso. exact (overlapMessage_nonempty s E).
        -- intros (_ & _ & H). apply Sib in H. discriminate.
      * split; [|reflexivity]. intros _. split; [reflexivity|].
        split; [|now apply Sib].
        intros q' parent' Eq Ef'. injection Eq as <-. congruence.
  - cbn [negb]. fold sibs. rewrite Efo. cbn [mbind option_bind].
    destruct (List.find _ sibs) as [s|] eqn:Efs; cbn [fmap option_fmap option_map];
      eexists; (split; [reflexivity|]); (split; [reflexivity|]);
      cbn [formCidr cidrInfo validationError];
      (split; [reflexivity|]); (split; [reflexivity|]);
      (split; [discriminate|]).
    + split.
      * intros E. exfalso. exact (overlapMessage_nonempty s E).
      * intros (_ & _ & H). apply Sib in H. discriminate.
    + split; [|reflexivity]. intros _. split; [reflexivity|].
      split; [|now apply Sib]. intros q' parent' Eq. discriminate.
Qed.

(** X13.  The verdict of [validateCIDR] on a valid candidate, over stored pools
    with valid CIDRs.  The form receives the normalised text and the parsed
    block.  A CIDR already in the table is reported as such whatever the
    parent; and the error is empty exactly when the normalised CIDR is not
    in the table, lies inside the parent when the parent is found, and
    meets no pool that has the same [parentId]. *)
Theorem validateCIDR_verdict pools table c par st :
  Spec.isValidCIDR c = true ->
  (forall p, p ∈ pools -> Spec.isValidCIDR (cidr p) = true) ->
  exists c' st',
    normalizeCIDR c = Some c' /\
    validateCIDR pools table c par st = Some st' /\
    formCidr st' = (if String.eqb c' c then formCidr st else c') /\
    cidrInfo st' = Some (parseCIDR c') /\
    (cidrExists table c' = true ->
     validationError st' = "This CIDR range already exists"%string) /\
    (validationError st' = EmptyString <->
     cidrExists table c' = false /\
     (forall q parent, par = Some q ->
        List.find (fun p => id p =? q) pools = Some parent ->
        Spec.intervalInside c' (cidr parent) = true) /\
     (forall s, s ∈ pools -> parentId s = par ->
        Spec.intervalsMeet c' (cidr s) = false)).
Proof. exact (verdict_facts pools table c par st). Qed.

Lemma validateCIDR_verdict_witness :
  validationError <$>
    validateCIDR chain chain "10.0.1.9/24" (Some 1) emptyForm = Some EmptyString.
Proof.
  destruct (validateCIDR_verdict chain chain "10.0.1.9/24" (Some 1) emptyForm
              eq_refl) as (c' & st' & En & Ev & _ & _ & _ & Acc).
  - intros p Hp.
    repeat (apply elem_of_cons in Hp as [->|Hp]; [reflexivity|]).
    inversion Hp.
  - rewrite Ev. cbn [fmap option_fmap option_map]. f_equal. apply Acc.
    vm_compute in En. injection En as <-.
    split; [reflexivity|]. split.
    + intros q parent Eq Ef. injection Eq as <-.
      vm_compute in Ef. injection Ef as <-. reflexivity.
    + intros s Hs Hp.
      repeat (apply elem_of_cons in Hs as [->|Hs];
              [first [discriminate Hp | vm_compute; reflexivity]|]).
      inversion Hs.
Defined.

End Verdict.

Section Packing.

Lemma elem_of_blockSet x lo hi : x ∈ blockSet lo hi <-> lo <= x <= hi.
Proof.
  unfold blockSet. rewrite elem_of_list_to_set, elem_of_seqZ. lia.
Qed.

Lemma size_blockSet lo hi :
  lo <= hi + 1 -> Z.of_nat (size (blockSet lo hi)) = hi - lo + 1.
Proof.
  intros H. unfold blockSet.
  rewrite size_list_to_set by apply NoDup_seqZ.
  rewrite length_seqZ. lia.
Qed.

(** Pairwise disjoint blocks inside an interval do not hold more addresses
    than the interval. *)
Lemma packing (l : list IPPool) lo hi :
  lo <= hi + 1 ->
  NoDup (map id l) ->
  (forall p, p ∈ l ->
     lo <= Spec.networkOf (cidr p) /\
     Spec.networkOf (cidr p) <= Spec.broadcastOf (cidr p) + 1 /\
     Spec.broadcastOf (cidr p) <= hi) ->
  (forall p q, p ∈ l -> q ∈ l -> id p <> id q ->
     Spec.broadcastOf (cidr q) < Spec.networkOf (cidr p) \/
     Spec.broadcastOf (cidr p) < Spec.networkOf (cidr q)) ->
  sumSizes l <= hi - lo + 1.
Proof.
  intros Hlh Hnd Hin Hdis.
  assert (G : exists U : gset Z,
             Z.of_nat (size U) = sumSizes l /\
             (forall x, x ∈ U <-> exists p, p ∈ l /\ x ∈ blockOf p)).
  { clear Hin. induction l as [|p l IH].
    - exists ∅. split; [reflexivity|]. intros x. split.
      + intros Hx. apply not_elem_of_empty in Hx. contradiction.
      + intros (p & Hp & _). inversion Hp.
    - cbn [map] in Hnd. apply NoDup_cons in Hnd as [Hp Hnd].
      destruct (IH Hnd) as (U & HU & HxU).
      { intros a b Ha Hb. apply Hdis; now right. }
      exists (blockOf p ∪ U). split.
      + rewrite size_union.
        * rewrite Nat2Z.inj_add, HU. cbn [sumSizes fold_right]. f_equal.
          unfold blockOf. 
          destruct (Z.le_gt_cases (Spec.networkOf (cidr p))
                                  (Spec.broadcastOf (cidr p) + 1)) as [L|L].
          -- rewrite size_blockSet by assumption.
             unfold Spec.broadcastOf. lia.
          -- exfalso. unfold Spec.broadcastOf in L.
             assert (0 <= Spec.sizeOf (cidr p))
               by (unfold Spec.sizeOf; apply Z.pow_nonneg; lia).
             lia.
        * intros x Hx1 Hx2. apply HxU in Hx2 as (q & Hq & Hxq).
          unfold blockOf in Hx1, Hxq.
          apply elem_of_blockSet in Hx1, Hxq.
          assert (Hne : id p <> id q).
          { intros E. apply Hp. rewrite E. apply list_elem_of_fmap. eauto. }
          destruct (Hdis p q ltac:(now left) ltac:(now right) Hne); lia.
      + intros x. rewrite elem_of_union, HxU. split.
        * intros [Hx|(q & Hq & Hx)].
          -- exists p. split; [now left|assumption].
          -- exists q. split; [now right|assumption].
        * intros (q & Hq & Hx). apply elem_of_cons in Hq as [->|Hq].
          -- now left.
          -- right. eauto. }
  destruct G as (U & HU & HxU).
  assert (Hsub : U ⊆ blockSet lo hi).
  { intros x Hx. apply HxU in Hx as (p & Hp & Hx).
    unfold blockOf in Hx. apply elem_of_blockSet in Hx.
    apply elem_of_blockSet. destruct (Hin p Hp) as (? & ? & ?). lia. }
  apply subseteq_size in Hsub.
  rewrite <- HU, <- (size_blockSet lo hi Hlh). lia.
Qed.

End Packing.

Section Capacity.

Lemma sumSizes_cons p l :
  sumSizes (p :: l) = Spec.sizeOf (cidr p) + sumSizes l.
Proof. reflexivity. Qed.

Lemma sumSizes_nonneg l : 0 <= sumSizes l.
Proof.
  induction l as [|p l IH]; [cbn; lia|rewrite sumSizes_cons].
  assert (0 <= Spec.sizeOf (cidr p))
    by (unfold Spec.sizeOf; apply Z.pow_nonneg; lia).
  lia.
Qed.

(** The loop [used += child.totalIps] over blocks whose sizes stay in the
    exact range. *)
Lemma sumIps_sizes (l : list IPPool) acc :
  0 <= acc -> acc + sumSizes l <= 2 ^ 53 ->
  fold_left add (map (fun p => Int (Spec.sizeOf (cidr p))) l) (Int acc) =
  Int (acc + sumSizes l).
Proof.
  revert acc. induction l as [|p l IH]; intros acc Ha Hb.
  - cbn. f_equal. lia.
  - pose proof (sumSizes_nonneg l).
    assert (0 <= Spec.sizeOf (cidr p))
      by (unfold Spec.sizeOf; apply Z.pow_nonneg; lia).
    rewrite sumSizes_cons in *. cbn [map fold_left add].
    rewrite norm_small by lia. rewrite IH by lia. f_equal. lia.
Qed.

Lemma isTrue_true o : Spec.isTrue o = true -> o = Some true.
Proof. destruct o as [[|]|]; cbn; congruence. Qed.

(** The facts packed in [Spec.invariants]. *)
Lemma invariants_facts pools :
  Spec.invariants pools = true ->
  NoDup (map id pools) /\
  (forall p q, p ∈ pools -> parentId p = Some q ->
     exists parent, parent ∈ pools /\ id parent = q /\
       isChildOfParent (cidr p) (cidr parent) = Some true) /\
  (forall p q, p ∈ pools -> q ∈ pools -> id p <> id q ->
     parentId p = parentId q ->
     cidrsOverlap (cidr p) (cidr q) <> Some true) /\
  (forall p, p ∈ pools -> exists d, hasDepth pools (id p) d).
Proof.
  unfold Spec.invariants. intros H.
  apply andb_true_iff in H as [H I5]. apply andb_true_iff in H as [H I4].
  apply andb_true_iff in H as [H I3]. apply andb_true_iff in H as [I1 _].
  apply bool_decide_eq_true in I1.
  rewrite forallb_forall in I3, I4, I5.
  split; [exact I1|]. split; [|split].
  - intros p q Hp Eq. apply list_elem_of_In in Hp.
    specialize (I3 p Hp). rewrite Eq in I3. unfold Spec.poolOf in I3.
    destruct (List.find (fun p0 => id p0 =? q) pools) as [parent|] eqn:Ef;
      [|discriminate].
    apply List.find_some in Ef as [Hq Ei]. apply Z.eqb_eq in Ei.
    exists parent. split; [now apply list_elem_of_In|].
    split; [exact Ei|]. now apply isTrue_true.
  - intros p q Hp Hq Hne Epar Ho. apply list_elem_of_In in Hp, Hq.
    specialize (I4 p Hp). rewrite forallb_forall in I4. specialize (I4 q Hq).
    rewrite Ho in I4. cbn in I4.
    destruct (Z.eqb_spec (id p) (id q)); [contradiction|].
    rewrite bool_decide_eq_true_2 in I4 by assumption. discriminate.
  - intros p Hp. apply list_elem_of_In in Hp. specialize (I5 p Hp).
    destruct (Spec.depthOf (S (length pools)) pools (id p)) as [d|] eqn:Ed;
      [|discriminate].
    destruct (depthOf_hasDepth _ _ _ _ Ed) as (n & Hn & _). eauto.
Qed.

Lemma forallb_member (f : IPPool -> bool) pools p :
  forallb f pools = true -> p ∈ pools -> f p = true.
Proof.
  intros H Hp. rewrite forallb_forall in H. apply H. now apply list_elem_of_In.
Qed.

Lemma filter_elem (f : IPPool -> bool) pools p :
  p ∈ List.filter f pools -> p ∈ pools /\ f p = true.
Proof.
  intros Hp. apply list_elem_of_In, List.filter_In in Hp as [Hp Hf].
  split; [now apply list_elem_of_In|exact Hf].
Qed.

(** The children of a pool fit in it: under the invariants the sizes of the
    pools naming [P] as parent add up to at most the size of [P]. *)
Lemma children_fit pools P :
  Spec.invariants pools = true ->
  forallb (fun p => Spec.isValidCIDR (cidr p)) pools = true ->
  P ∈ pools ->
  sumSizes (List.filter (childOf (id P)) pools) <= Spec.sizeOf (cidr P).
Proof.
  intros Hinv Hval HP.
  destruct (invariants_facts pools Hinv) as (Hnd & I3 & I4 & _).
  pose proof (forallb_member _ _ _ Hval HP) as VP. cbn beta in VP.
  destruct (parseCIDR_valid _ VP) as (_ & _ & _ & _ & _ & RP & _).
  replace (Spec.sizeOf (cidr P))
    with (Spec.broadcastOf (cidr P) - Spec.networkOf (cidr P) + 1)
    by (unfold Spec.broadcastOf; lia).
  apply packing.
  - lia.
  - now apply NoDup_filter_ids.
  - intros p Hp. apply filter_elem in Hp as [Hp Hc].
    apply bool_decide_eq_true in Hc.
    pose proof (forallb_member _ _ _ Hval Hp) as Vp. cbn beta in Vp.
    destruct (I3 p _ Hp Hc) as (parent & Hq & Ei & Hin).
    pose proof (same_id pools Hnd parent P Hq HP Ei). subst parent.
    apply (inside_true _ _ Vp VP) in Hin.
    destruct (parseCIDR_valid _ Vp) as (_ & _ & _ & _ & _ & Rp & _).
    lia.
  - intros p q Hp Hq Hne.
    apply filter_elem in Hp as [Hp Hcp]. apply filter_elem in Hq as [Hq Hcq].
    apply bool_decide_eq_true in Hcp, Hcq.
    pose proof (forallb_member _ _ _ Hval Hp) as Vp.
    pose proof (forallb_member _ _ _ Hval Hq) as Vq. cbn beta in Vp, Vq.
    assert (No : cidrsOverlap (cidr p) (cidr q) <> Some true)
      by (apply I4; congruence).
    rewrite (overlap_true _ _ Vp Vq) in No.
    destruct (Z.le_gt_cases (Spec.networkOf (cidr p)) (Spec.broadcastOf (cidr q)));
      [|lia].
    destruct (Z.le_gt_cases (Spec.networkOf (cidr q)) (Spec.broadcastOf (cidr p)));
      [|lia].
    exfalso. apply No. split; assumption.
Qed.

(** X14.  Under the invariants of the data model, for valid CIDRs, every node
    of the returned store holds exact counts: its [totalIps] is the size
    of its block, its [usedIps] is the sum of the sizes of the pools that
    name it as parent, [usedIps] never exceeds [totalIps], and the
    [availableIps] that [renderPoolNode] shows is their difference, never
    negative. *)
Theorem usedIps_within_totalIps pools fuel :
  Spec.invariants pools = true ->
  forallb (fun p => Spec.isValidCIDR (cidr p)) pools = true ->
  (length pools <= fuel)%nat ->
  exists h roots,
    buildPoolTree fuel pools = Done (h, roots) /\
    forall i nd, h !! i = Some nd ->
      exists u t,
        usedIps nd = Int u /\ totalIps nd = Int t /\
        t = Spec.sizeOf (cidr (pool nd)) /\
        u = sumSizes (List.filter (childOf i) pools) /\
        0 <= u <= t /\ t <= 2 ^ 24 /\
        availableIps nd = Int (t - u).
Proof.
  intros Hinv Hval Hf.
  destruct (invariants_facts pools Hinv) as (Hnd & _ & _ & I5).
  destruct (buildPoolTree_total pools Hnd fuel Hf) as (_ & h & E & Sh & _).
  destruct (store_fields _ _ _ _ E) as (_ & _ & F).
  exists h, (map id (List.filter isRoot pools)). split; [exact E|].
  intros i nd Ei.
  destruct (F i nd Ei) as (Eid & HP & Et).
  pose proof (forallb_member _ _ _ Hval HP) as VP. cbn beta in VP.
  destruct (parseCIDR_valid _ VP) as (_ & _ & ET & _).
  destruct (block_facts _ VP) as (_ & _ & SP & _).
  rewrite ET in Et.
  pose proof (children_fit pools (pool nd) Hinv Hval HP) as Fit.
  rewrite Eid in Fit.
  pose proof (sumSizes_nonneg (List.filter (childOf i) pools)) as Nn.
  assert (Eu : usedIps nd = Int (sumSizes (List.filter (childOf i) pools))).
  { destruct (I5 _ HP) as (d & Hd). rewrite Eid in Hd.
    pose proof (depth_inForest pools h Sh i d Hd) as InF.
    destruct (usedIps_settled fuel pools h _ i nd E InF Ei) as (U & _).
    rewrite U. destruct Sh as [D C]. rewrite (C i nd Ei).
    unfold Spec.sumIps. rewrite map_map.
    rewrite (map_ext_in _ (fun p => Int (Spec.sizeOf (cidr p)))).
    - rewrite sumIps_sizes by lia. f_equal.
    - intros p Hp. apply list_elem_of_In, filter_elem in Hp as [Hp _].
      unfold Spec.totalIpsOf.
      assert (Hi : id p ∈ map id pools)
        by (apply list_elem_of_fmap; eauto).
      apply D in Hi as [n En]. rewrite En.
      destruct (F _ n En) as (En1 & En2 & En3).
      pose proof (same_id pools Hnd _ _ En2 Hp En1) as Epn.
      rewrite En3, Epn.
      pose proof (forallb_member _ _ _ Hval Hp) as Vp. cbn beta in Vp.
      now destruct (parseCIDR_valid _ Vp) as (_ & _ & ETp & _). }
  exists (sumSizes (List.filter (childOf i) pools)), (Spec.sizeOf (cidr (pool nd))).
  repeat split; try assumption; try lia.
  unfold availableIps. rewrite Eu, Et. cbn [sub]. apply norm_small. lia.
Qed.

Lemma usedIps_within_totalIps_witness :
  exists h roots,
    buildPoolTree 3 chain = Done (h, roots) /\
    forall i nd, h !! i = Some nd ->
      exists u t,
        usedIps nd = Int u /\ totalIps nd = Int t /\
        t = Spec.sizeOf (cidr (pool nd)) /\
        u = sumSizes (List.filter (childOf i) chain) /\
        0 <= u <= t /\ t <= 2 ^ 24 /\
        availableIps nd = Int (t - u).
Proof.
  apply (usedIps_within_totalIps chain 3).
  - vm_compute. reflexivity.
  - vm_compute. reflexivity.
  - simpl. lia.
Defined.

End Capacity.

Section Levels.

Lemma snoc_split {A} (pre : list A) p pre1 p' post1 :
  pre ++ [p] = pre1 ++ p' :: post1 ->
  (pre1 = pre /\ p' = p /\ post1 = []) \/
  exists post1', post1 = post1' ++ [p] /\ pre = pre1 ++ p' :: post1'.
Proof.
  intros E. destruct post1 as [|x post1 _] using rev_ind.
  - apply app_inj_tail in E as [-> ->]. now left.
  - right. exists post1.
    replace (pre1 ++ p' :: post1 ++ [x]) with ((pre1 ++ p' :: post1) ++ [x]) in E
      by (rewrite <- app_assoc; reflexivity).
    apply app_inj_tail in E as [-> ->]. split; reflexivity.
Qed.

Lemma initial_levels l :
  forall m, (forall i n, m !! i = Some n -> level n = Int 0) ->
  forall i n, fold_left initNode l m !! i = Some n -> level n = Int 0.
Proof.
  induction l as [|p l IH]; intros m H; cbn [fold_left]; [exact H|].
  apply IH. intros i n. unfold initNode.
  destruct (decide (id p = i)) as [<-|Hne].
  - rewrite lookup_insert_eq. intros E. injection E as <-. reflexivity.
  - rewrite lookup_insert_ne by assumption. apply H.
Qed.

(** What the two writes of the second loop body do to the levels. *)
Lemma alter_levels (m : gmap Z PoolTreeNode) L c q j :
  match m !! j with
  | None => alter (pushChild c) q (alter (setLevel L) j m) !! j = None
  | Some n0 =>
      exists n, alter (pushChild c) q (alter (setLevel L) j m) !! j = Some n /\
                level n = L
  end /\
  forall i, i <> j ->
    match m !! i with
    | None => alter (pushChild c) q (alter (setLevel L) j m) !! i = None
    | Some n0 =>
        exists n, alter (pushChild c) q (alter (setLevel L) j m) !! i = Some n /\
                  level n = level n0
    end.
Proof.
  split.
  - rewrite lookup_alter. destruct (decide (q = j)) as [->|Hq].
    + rewrite lookup_alter_eq. destruct (m !! j) as [n0|]; cbn; eauto.
    + rewrite lookup_alter_eq. destruct (m !! j) as [n0|]; cbn; eauto.
  - intros i Hi. rewrite lookup_alter. destruct (decide (q = i)) as [->|Hq].
    + rewrite lookup_alter_ne by congruence.
      destruct (m !! i) as [n0|]; cbn; eauto.
    + rewrite lookup_alter_ne by congruence.
      destruct (m !! i) as [n0|]; cbn; eauto.
Qed.

Lemma levelled_same pre p m :
  id p ∉ map id pre ->
  levelled pre m ->
  (parentId p = None \/ exists q, parentId p = Some q /\ m !! q = None) ->
  levelled (pre ++ [p]) m.
Proof.
  intros Hfresh L Hp i n Ei.
  destruct (L i n Ei) as (l & El & B & Z0 & R).
  exists l. split; [exact El|]. split.
  { rewrite length_app. cbn. lia. }
  split.
  { intros Hn. apply Z0. intros Hin. apply Hn.
    rewrite map_app, elem_of_app. now left. }
  intros pre1 p' post1 Edec Eid.
  destruct (snoc_split _ _ _ _ _ Edec) as [(-> & -> & ->)|(post1' & -> & Epre)].
  - subst i. specialize (Z0 Hfresh). unfold levelRule.
    destruct Hp as [->|(q & -> & ->)]; exact Z0.
  - exact (R pre1 p' post1' Epre Eid).
Qed.

Lemma levelled_step pre p m roots st' :
  NoDup (map id (pre ++ [p])) ->
  Z.of_nat (length pre) < 2 ^ 53 ->
  levelled pre m ->
  attach (m, roots) p = Done st' ->
  levelled (pre ++ [p]) st'.1.
Proof.
  intros Hnd Hlen L E.
  assert (Hfresh : id p ∉ map id pre).
  { rewrite map_app in Hnd. apply NoDup_app in Hnd as (_ & Hd & _).
    intros Hin. apply (Hd _ Hin). cbn. now left. }
  unfold attach in E.
  destruct (m !! id p) as [node|] eqn:En; [|discriminate].
  destruct (parentId p) as [q|] eqn:Eq.
  2: { injection E as <-. cbn [fst]. apply levelled_same; auto. }
  destruct (m !! q) as [parent|] eqn:Ep.
  2: { injection E as <-. cbn [fst]. apply levelled_same; eauto. }
  injection E as <-. cbn [fst].
  destruct (L q parent Ep) as (lq & Elq & Blq & Zq & _).
  rewrite Elq. cbn [add]. rewrite norm_small by lia.
  destruct (alter_levels m (Int (lq + 1)) (id p) q (id p)) as [Aself Aother].
  intros i n Ei.
  destruct (decide (i = id p)) as [->|Hne].
  - rewrite En in Aself. destruct Aself as (n' & En' & El').
    rewrite Ei in En'. injection En' as <-.
    exists (lq + 1). split; [exact El'|]. split.
    { rewrite length_app. cbn. lia. }
    split.
    { intros Hn. exfalso. apply Hn. rewrite map_app, elem_of_app.
      right. cbn. now left. }
    intros pre1 p' post1 Edec Eid.
    destruct (snoc_split _ _ _ _ _ Edec) as [(-> & -> & ->)|(post1' & -> & Epre)].
    + unfold levelRule. rewrite Eq.
      destruct (decide (q = id p)) as [Hq|Hq].
      * subst q. rewrite Ei.
        rewrite bool_decide_eq_false_2 by assumption.
        rewrite (Zq Hfresh). reflexivity.
      * specialize (Aother q Hq). rewrite Ep in Aother.
        destruct Aother as (nq & -> & Elv).
        case_bool_decide as Hin.
        -- exists lq. split; [congruence|reflexivity].
        -- rewrite (Zq Hin). reflexivity.
    + exfalso. apply Hfresh. rewrite Epre, <- Eid, map_app, elem_of_app.
      right. cbn. now left.
  - pose proof (Aother i Hne) as Ai.
    destruct (m !! i) as [n0|] eqn:E0.
    2: { rewrite Ei in Ai. discriminate. }
    destruct Ai as (n' & En' & El'). rewrite Ei in En'. injection En' as <-.
    destruct (L i n0 E0) as (l & El & B & Z0 & R).
    exists l. split; [congruence|]. split.
    { rewrite length_app. cbn. lia. }
    split.
    { intros Hn. apply Z0. intros Hin. apply Hn.
      rewrite map_app, elem_of_app. now left. }
    intros pre1 p' post1 Edec Eid.
    destruct (snoc_split _ _ _ _ _ Edec) as [(-> & -> & ->)|(post1' & -> & Epre)].
    + congruence.
    + specialize (R pre1 p' post1' Epre Eid). unfold levelRule in *.
      destruct (parentId p') as [q'|]; [|exact R].
      destruct (decide (q' = id p)) as [Hq'|Hq'].
      * subst q'. rewrite En in R. rewrite En in Aself.
        destruct Aself as (ns & -> & _).
        case_bool_decide as Hin; [|exact R].
        exfalso. apply Hfresh. rewrite Epre, map_app, elem_of_app. now left.
      * specialize (Aother q' Hq').
        destruct (m !! q') as [nq0|].
        -- destruct Aother as (nq & -> & Elv).
           case_bool_decide as Hin; [|exact R].
           destruct R as (lq' & ? & ?). exists lq'. split; congruence.
        -- rewrite Aother. exact R.
Qed.

Lemma levelled_loop post :
  forall pre st st',
    NoDup (map id (pre ++ post)) ->
    Z.of_nat (length (pre ++ post)) <= 2 ^ 53 ->
    levelled pre st.1 ->
    forEach attach post st = Done st' ->
    levelled (pre ++ post) st'.1.
Proof.
  induction post as [|p post IH]; intros pre st st' Hnd Hlen L E.
  - cbn in E. injection E as <-. now rewrite app_nil_r.
  - cbn [forEach] in E. destruct st as [m roots].
    destruct (attach (m, roots) p) as [st1| |] eqn:E1; cbn in E;
      try discriminate.
    replace (pre ++ p :: post) with ((pre ++ [p]) ++ post) in *
      by (rewrite <- app_assoc; reflexivity).
    apply (IH (pre ++ [p]) st1 st' Hnd Hlen); [|exact E].
    apply (levelled_step pre p m roots st1); [| |exact L|exact E1].
    + rewrite map_app in Hnd. apply NoDup_app in Hnd as (Hnd & _). exact Hnd.
    + rewrite !length_app in Hlen. cbn in Hlen. lia.
Qed.

(** The levels of the store [buildPoolTree] returns. *)
Lemma levels_final fuel pools h roots :
  NoDup (map id pools) -> Z.of_nat (length pools) <= 2 ^ 53 ->
  buildPoolTree fuel pools = Done (h, roots) ->
  shaped pools h /\ levelled pools h.
Proof.
  intros Hnd Hlen E.
  destruct (store_fields _ _ _ _ E) as (_ & Sh & _).
  split; [exact Sh|].
  destruct (buildPoolTree_inv _ _ _ _ E) as (h1 & E1 & E3).
  destruct (rootsLoop_correct fuel _ _ _ E3) as (S & _).
  assert (L1 : levelled pools h1).
  { apply (levelled_loop pools [] (fold_left initNode pools ∅, []) (h1, roots));
      auto.
    intros i n Ei. exists 0.
    rewrite (initial_levels pools ∅ ltac:(intros ? ? Hx; rewrite lookup_empty in Hx; discriminate) i n Ei).
    cbn. repeat split; try lia.
    intros pre1 p post1 Edec. destruct pre1; discriminate. }
  intros i n Ei.
  destruct (sameShape_lookup h h1 i n (sameShape_sym _ _ S) Ei)
    as (n1 & E1n & _ & _ & _ & El).
  destruct (L1 i n1 E1n) as (l & El1 & B & Z0 & R).
  exists l. split; [congruence|]. split; [exact B|]. split; [exact Z0|].
  intros pre1 p post1 Edec Eid. specialize (R pre1 p post1 Edec Eid).
  unfold levelRule in *. destruct (parentId p) as [q|]; [|exact R].
  destruct (h1 !! q) as [nq1|] eqn:Eq1.
  - destruct (sameShape_lookup h1 h q nq1 S Eq1) as (nq & -> & _ & _ & _ & Elq).
    rewrite Elq. exact R.
  - rewrite (sameShape_none h1 h q S Eq1). exact R.
Qed.

(** X15.  The level the code gives a pool depends on where its parent stands
    in the input.  With distinct ids, a pool without parent, or whose
    parent is not in the input, has level 0; a pool read after its parent
    has the parent's level plus one; a pool read before its parent (or
    naming itself) has level 1, whatever the parent's own level is. *)
Theorem level_by_position pools fuel :
  NoDup (map id pools) -> (length pools <= fuel)%nat ->
  Z.of_nat (length pools) <= 2 ^ 53 ->
  exists h roots,
    buildPoolTree fuel pools = Done (h, roots) /\
    forall pre p post, pools = pre ++ p :: post ->
      exists nd l,
        h !! id p = Some nd /\ level nd = Int l /\
        match parentId p with
        | None => l = 0
        | Some q =>
            (q ∉ map id pools -> l = 0) /\
            (q ∈ map id pre ->
               exists nq lq, h !! q = Some nq /\ level nq = Int lq /\
                             l = lq + 1) /\
            (q ∈ map id (p :: post) -> l = 1)
        end.
Proof.
  intros Hnd Hf Hlen.
  destruct (buildPoolTree_total pools Hnd fuel Hf) as (_ & h & E & _).
  destruct (levels_final _ _ _ _ Hnd Hlen E) as ([D _] & L).
  exists h, (map id (List.filter isRoot pools)). split; [exact E|].
  intros pre p post Edec.
  assert (Hp : id p ∈ map id pools).
  { rewrite Edec, map_app, elem_of_app. right. cbn. now left. }
  apply D in Hp as [nd End].
  destruct (L _ nd End) as (l & El & _ & _ & R).
  specialize (R pre p post Edec eq_refl). unfold levelRule in R.
  exists nd, l. split; [exact End|]. split; [exact El|].
  destruct (parentId p) as [q|]; [|exact R].
  split; [|split].
  - intros Hq. destruct (h !! q) as [nq|] eqn:Eq; [|exact R].
    exfalso. apply Hq, D. eauto.
  - intros Hq. destruct (h !! q) as [nq|] eqn:Eq.
    + rewrite bool_decide_eq_true_2 in R by assumption.
      destruct R as (lq & ? & ?). eauto.
    + exfalso. assert (Hq' : q ∈ map id pools)
        by (rewrite Edec, map_app, elem_of_app; now left).
      apply D in Hq' as [? Hq']. congruence.
  - intros Hq.
    assert (Hq' : q ∈ map id pools)
      by (rewrite Edec, map_app, elem_of_app; now right).
    apply D in Hq' as [nq Eq]. rewrite Eq in R.
    rewrite bool_decide_eq_false_2 in R; [exact R|].
    intros Hin. rewrite Edec, map_app in Hnd.
    apply NoDup_app in Hnd as (_ & Hd & _). exact (Hd _ Hin Hq).
Qed.

Lemma level_by_position_witness :
  exists h roots nd,
    buildPoolTree 3 newestFirst = Done (h, roots) /\
    h !! 3 = Some nd /\ level nd = Int 1.
Proof.
  destruct (level_by_position newestFirst 3) as (h & roots & E & R).
  - apply (bool_decide_unpack _). vm_compute. exact I.
  - simpl. lia.
  - vm_compute. discriminate.
  - destruct (R [] (mkPool 3 "C" "10.0.0.0/25" (Some 2))
                [mkPool 2 "B" "10.0.0.0/24" (Some 1);
                 mkPool 1 "A" "10.0.0.0/16" None] eq_refl)
      as (nd & l & End & El & _ & _ & R1).
    exists h, roots, nd. split; [exact E|]. split; [exact End|].
    rewrite El. f_equal. apply R1. cbn. right. left.
Defined.

Lemma parentsFirstFrom_split l :
  forall seen, parentsFirstFrom seen l = true ->
  forall pre p post q, l = pre ++ p :: post -> parentId p = Some q ->
    q ∈ seen ++ map id pre.
Proof.
  induction l as [|x l IH]; intros seen H pre p post q Edec Eq.
  - destruct pre; discriminate.
  - cbn [parentsFirstFrom] in H. apply andb_true_iff in H as [Hx Hl].
    destruct pre as [|y pre]; cbn in Edec; injection Edec as -> ->.
    + rewrite Eq in Hx. apply bool_decide_eq_true in Hx.
      cbn. now rewrite app_nil_r.
    + specialize (IH _ Hl pre p post q eq_refl Eq).
      cbn [map]. rewrite <- app_assoc in IH. exact IH.
Qed.

(** X16.  When every pool that has a parent comes after it in the input, the
    level of every node is its depth: each pool is some number of parent
    hops below a root, and [level] is that number. *)
Theorem level_is_depth_parents_first pools fuel :
  NoDup (map id pools) -> (length pools <= fuel)%nat ->
  Z.of_nat (length pools) <= 2 ^ 53 ->
  parentsFirst pools = true ->
  exists h roots,
    buildPoolTree fuel pools = Done (h, roots) /\
    forall i nd, h !! i = Some nd ->
      inForest h roots i /\
      exists d, hasDepth pools i d /\ level nd = Int (Z.of_nat d).
Proof.
  intros Hnd Hf Hlen Hpf.
  destruct (buildPoolTree_total pools Hnd fuel Hf) as (_ & h & E & Sh & _).
  destruct (levels_final _ _ _ _ Hnd Hlen E) as ([D _] & L).
  exists h, (map id (List.filter isRoot pools)). split; [exact E|].
  assert (G : forall k pre p post, length pre = k -> pools = pre ++ p :: post ->
            forall nd, h !! id p = Some nd ->
            exists d, hasDepth pools (id p) d /\ level nd = Int (Z.of_nat d)).
  { induction k as [k IHk] using lt_wf_ind. intros pre p post Hk Edec nd End.
    assert (Hp : p ∈ pools).
    { rewrite Edec, elem_of_app. right. now left. }
    destruct (L _ nd End) as (l & El & _ & _ & R).
    specialize (R pre p post Edec eq_refl). unfold levelRule in R.
    destruct (parentId p) as [q|] eqn:Eq.
    - pose proof (parentsFirstFrom_split pools [] Hpf pre p post q Edec Eq) as Hq.
      cbn [app] in Hq.
      pose proof Hq as Hq'. apply list_elem_of_fmap in Hq' as (pq & Eid & Hpq).
      apply list_elem_of_split in Hpq as (pre1 & post1 & Epre).
      assert (Edec' : pools = pre1 ++ pq :: (post1 ++ p :: post)).
      { rewrite Edec, Epre, <- app_assoc. reflexivity. }
      assert (Hqd : q ∈ map id pools).
      { rewrite Edec, map_app, elem_of_app. now left. }
      apply D in Hqd as [nq Enq]. rewrite Enq in R.
      rewrite bool_decide_eq_true_2 in R by assumption.
      destruct R as (lq & Elq & ->).
      destruct (IHk (length pre1)
                  ltac:(rewrite <- Hk, Epre, length_app; cbn; lia)
                  pre1 pq (post1 ++ p :: post) eq_refl Edec' nq
                  ltac:(rewrite <- Eid; exact Enq))
        as (d & Hd & Eld).
      exists (S d). split.
      + eapply depth_child; eauto. rewrite Eid. exact Hd.
      + rewrite El. f_equal. rewrite Elq in Eld. injection Eld as ->. lia.
    - exists 0%nat. split; [now constructor|]. rewrite El, R. reflexivity. }
  intros i nd Ei.
  assert (Hi : i ∈ map id pools) by (apply D; eauto).
  apply list_elem_of_fmap in Hi as (p & -> & Hp).
  apply list_elem_of_split in Hp as (pre & post & Edec).
  destruct (G _ pre p post eq_refl Edec nd Ei) as (d & Hd & El).
  split; [|eauto]. eapply depth_inForest; eauto.
Qed.

Lemma level_is_depth_parents_first_witness :
  exists h roots,
    buildPoolTree 3 chain = Done (h, roots) /\
    forall i nd, h !! i = Some nd ->
      inForest h roots i /\
      exists d, hasDepth chain i d /\ level nd = Int (Z.of_nat d).
Proof.
  apply (level_is_depth_parents_first chain 3).
  - apply (bool_decide_unpack _). vm_compute. exact I.
  - simpl. lia.
  - vm_compute. discriminate.
  - vm_compute. reflexivity.
Defined.

End Levels.

Section NetworkAddress.

Lemma address_range ip :
  Spec.isValidIP ip = true -> 0 <= Spec.addressOf ip < 2 ^ 32.
Proof.
  intros H. unfold Spec.isValidIP, Spec.addressOf in *.
  destruct (split "." ip) as [|p0 [|p1 [|p2 [|p3 [|]]]]]; try discriminate.
  apply andb_true_iff in H as [H O3]. apply andb_true_iff in H as [H O2].
  apply andb_true_iff in H as [O0 O1].
  destruct (isOctet_Number _ O0) as (_ & R0 & _).
  destruct (isOctet_Number _ O1) as (_ & R1 & _).
  destruct (isOctet_Number _ O2) as (_ & R2 & _).
  destruct (isOctet_Number _ O3) as (_ & R3 & _).
  cbn [map]. lia.
Qed.

Lemma pow2_below31 k :
  0 <= k <= 31 ->
  1 <= 2 ^ k <= 2 ^ 31 /\ exists m, 2 ^ 31 = m * 2 ^ k /\ 0 < m.
Proof.
  intros Hk. split.
  - split; [apply (Z.pow_le_mono_r 2 0 k); lia|apply Z.pow_le_mono_r; lia].
  - exists (2 ^ (31 - k)). split; [|apply Z.pow_pos_nonneg; lia].
    rewrite <- Z.pow_add_r by lia. f_equal. lia.
Qed.

(** The mask of every prefix from 1 to 32. *)
Lemma maskOf_short P :
  1 <= P <= 32 -> maskOf (Int P) = Int (2 ^ 32 - 2 ^ (32 - P)).
Proof.
  intros HP. set (k := 32 - P). assert (Hk : 0 <= k <= 31) by (unfold k; lia).
  destruct (pow2_below31 k Hk) as (Hp & _).
  unfold maskOf. cbn [sub]. rewrite norm_small by lia. fold k.
  unfold shl. cbn [toInt32 toUint32].
  change (ToInt32 (-1)) with (-1).
  assert (Ek : ToUint32 k mod 32 = k).
  { unfold ToUint32. rewrite (Z.mod_small k (2 ^ 32)) by lia.
    apply Z.mod_small. lia. }
  rewrite Ek, Z.shiftl_mul_pow2 by lia.
  rewrite (ToInt32_small (-1 * 2 ^ k)) by lia.
  unfold ushr. cbn [toUint32].
  change (ToUint32 0 mod 32) with 0. rewrite Z.shiftr_0_r. f_equal.
  unfold ToUint32. symmetry. apply (Z.mod_unique_pos _ _ (-1)); lia.
Qed.

Lemma network_short U k :
  0 <= U < 2 ^ 32 -> 0 <= k <= 31 ->
  ushr (band (Int (ToInt32 U)) (Int (2 ^ 32 - 2 ^ k))) (Int 0) =
  Int (U / 2 ^ k * 2 ^ k).
Proof.
  intros HU Hk. destruct (pow2_below31 k Hk) as (Hp & m & Hm & Hm0).
  assert (E2 : 2 ^ 32 = 2 * m * 2 ^ k) by lia.
  assert (HN : 0 <= U / 2 ^ k * 2 ^ k <= U).
  { pose proof (Z.div_mod U (2 ^ k) ltac:(lia)).
    pose proof (Z.mod_pos_bound U (2 ^ k) ltac:(lia)).
    assert (0 <= U / 2 ^ k) by (apply Z.div_pos; lia). nia. }
  assert (Ms : ToInt32 (2 ^ 32 - 2 ^ k) = - 2 ^ k).
  { rewrite ToInt32_unsigned by lia.
    destruct (Z.ltb_spec (2 ^ 32 - 2 ^ k) (2 ^ 31)); lia. }
  unfold band. cbn [toInt32]. rewrite Ms, land_neg_pow2 by lia.
  unfold ushr. cbn [toUint32].
  change (ToUint32 0 mod 32) with 0. rewrite Z.shiftr_0_r. f_equal.
  set (N := U / 2 ^ k * 2 ^ k) in *.
  rewrite ToInt32_small by apply ToInt32_range.
  rewrite ToInt32_unsigned by lia. unfold ToUint32.
  destruct (Z.ltb_spec U (2 ^ 31)).
  - apply Z.mod_small. lia.
  - replace (U - 2 ^ 32) with (U + (- (2 * m)) * 2 ^ k) by lia.
    rewrite Z.div_add by lia. rewrite Z.mul_add_distr_r. fold N.
    replace (- (2 * m) * 2 ^ k) with ((-1) * 2 ^ 32) by lia.
    rewrite Z.mod_add by lia. apply Z.mod_small. lia.
Qed.

(** X17.  [getNetworkAddress] on a valid address.  For a prefix from 1 to 32
    it is the address with the bits after the prefix cleared.  For the
    prefix 0 the shift count 32 wraps to 0 and the mask is all ones: the
    address comes back unchanged, not as 0.0.0.0. *)
Theorem getNetworkAddress_value ip p :
  Spec.isValidIP ip = true -> 0 <= p <= 32 ->
  getNetworkAddress ip (Int p) =
  numberToIp (Int (if p =? 0 then Spec.addressOf ip
                   else Spec.addressOf ip / 2 ^ (32 - p) * 2 ^ (32 - p))).
Proof.
  intros H Hp. pose proof (address_range ip H) as R.
  unfold getNetworkAddress. rewrite (ipToNumber_valid ip H).
  destruct (Z.eqb_spec p 0) as [->|Hne].
  - replace (maskOf (Int 0)) with (Int (2 ^ 32 - 2 ^ 0))
      by (vm_compute; reflexivity).
    rewrite network_short by lia. change (2 ^ 0) with 1.
    now rewrite Z.div_1_r, Z.mul_1_r.
  - rewrite maskOf_short, network_short by lia. reflexivity.
Qed.

Lemma getNetworkAddress_value_witness :
  getNetworkAddress "10.1.2.3" (Int 0) = Some "10.1.2.3"%string /\
  getNetworkAddress "10.1.2.3" (Int 1) = Some "0.0.0.0"%string.
Proof.
  rewrite (getNetworkAddress_value "10.1.2.3" 0 eq_refl ltac:(lia)).
  rewrite (getNetworkAddress_value "10.1.2.3" 1 eq_refl ltac:(lia)).
  split; vm_compute; reflexivity.
Defined.

(** X18.  A CIDR that [isValidCIDR] accepts but whose address [ipToNumber]
    cannot read (an octet followed by other text) is not refused later:
    the unreadable address masks as 0, so the CIDR normalises to the block
    at 0.0.0.0 with the prefix read by [parseInt]. *)
Theorem normalizeCIDR_unreadable_address c :
  isValidCIDR c = true -> ipToNumber (Spec.ipOf c) = NaN ->
  exists p,
    parseInt (nth 1 (split "/" c) EmptyString) = Some p /\ 8 <= p <= 32 /\
    normalizeCIDR c = Some ("0.0.0.0/" +:+ show p) /\
    networkAddress (parseCIDR c) = Some "0.0.0.0"%string.
Proof.
  unfold isValidCIDR, Spec.ipOf, normalizeCIDR, parseCIDR, getNetworkAddress.
  intros H N.
  destruct (split "/" c) as [|ip [|pre [|]]]; try discriminate.
  cbn [nth lookup list_lookup] in *.
  apply andb_true_iff in H as [_ H].
  destruct (parseInt pre) as [p|] eqn:Ep; [|discriminate].
  apply andb_true_iff in H as [H8 H32]. apply Z.leb_le in H8, H32.
  exists p. split; [reflexivity|]. split; [lia|].
  unfold parseIntN. rewrite Ep, norm_small by lia. rewrite N.
  rewrite maskOf_prefix by lia. cbn [networkAddress].
  unfold band. cbn [toInt32]. rewrite Z.land_0_l.
  split; reflexivity.
Qed.

Lemma normalizeCIDR_unreadable_address_witness :
  normalizeCIDR "10.0.0.1x/24" = Some "0.0.0.0/24"%string.
Proof.
  destruct (normalizeCIDR_unreadable_address "10.0.0.1x/24" eq_refl eq_refl)
    as (p & Ep & _ & En & _).
  vm_compute in Ep. injection Ep as <-. exact En.
Defined.

End NetworkAddress.

Section Soundness.

Lemma invariants_parts pools :
  Spec.invariants pools = true ->
  NoDup (map id pools) /\
  NoDup (map cidr pools) /\
  forallb (fun p =>
    match parentId p with
    | None => true
    | Some q =>
        match Spec.poolOf pools q with
        | None => false
        | Some parent => Spec.isTrue (isChildOfParent (cidr p) (cidr parent))
        end
    end) pools = true /\
  forallb (fun p =>
    forallb (fun q =>
      (id p =? id q) ||
      negb (bool_decide (parentId p = parentId q)) ||
      negb (Spec.isTrue (cidrsOverlap (cidr p) (cidr q)))) pools) pools = true /\
  forallb (fun p =>
    match Spec.depthOf (S (length pools)) pools (id p) with
    | Some _ => true
    | None => false
    end) pools = true.
Proof.
  unfold Spec.invariants. intros H.
  apply andb_true_iff in H as [H I5]. apply andb_true_iff in H as [H I4].
  apply andb_true_iff in H as [H I3]. apply andb_true_iff in H as [I1 I2].
  apply bool_decide_eq_true in I1, I2. auto.
Qed.

Lemma forallb_intro (f : IPPool -> bool) pools :
  (forall p, p ∈ pools -> f p = true) -> forallb f pools = true.
Proof.
  intros H. apply forallb_forall. intros p Hp. apply H.
  now apply list_elem_of_In.
Qed.

Lemma find_id pools q :
  q ∈ map id pools ->
  exists parent, List.find (fun p => id p =? q) pools = Some parent /\
                 parent ∈ pools /\ id parent = q.
Proof.
  intros Hq. destruct (List.find (fun p => id p =? q) pools) as [parent|] eqn:Ef.
  - exists parent. split; [reflexivity|].
    apply List.find_some in Ef as [Hin Ei]. apply Z.eqb_eq in Ei.
    split; [now apply list_elem_of_In|exact Ei].
  - exfalso. apply list_elem_of_fmap in Hq as (p & -> & Hp).
    apply list_elem_of_In in Hp.
    pose proof (List.find_none _ _ Ef p Hp) as E. cbn in E.
    apply Z.eqb_neq in E. congruence.
Qed.

Lemma poolOf_cons new pools q :
  id new ∉ map id pools -> q ∈ map id pools ->
  Spec.poolOf (new :: pools) q = Spec.poolOf pools q.
Proof.
  intros Hn Hq. unfold Spec.poolOf. cbn [List.find].
  destruct (Z.eqb_spec (id new) q) as [E|_]; [|reflexivity].
  exfalso. apply Hn. now rewrite E.
Qed.

Lemma depthOf_cons new pools :
  id new ∉ map id pools ->
  forall f i d, Spec.depthOf f pools i = Some d ->
                Spec.depthOf f (new :: pools) i = Some d.
Proof.
  intros Hn. induction f as [|f IH]; intros i d E; [discriminate|].
  cbn [Spec.depthOf] in *.
  destruct (Spec.poolOf pools i) as [p|] eqn:Ef; [|discriminate].
  assert (Hi : i ∈ map id pools).
  { unfold Spec.poolOf in Ef. apply List.find_some in Ef as [Hp Ei].
    apply Z.eqb_eq in Ei. subst i. apply list_elem_of_fmap. exists p.
    split; [reflexivity|now apply list_elem_of_In]. }
  rewrite (poolOf_cons new pools i Hn Hi), Ef.
  cbn [mbind option_bind] in *.
  destruct (parentId p) as [q|]; [|exact E].
  destruct (Spec.depthOf f pools q) as [dq|] eqn:Eq; [|discriminate].
  rewrite (IH q dq Eq). exact E.
Qed.

Lemma depthOf_more pools :
  forall f i d, Spec.depthOf f pools i = Some d ->
                Spec.depthOf (S f) pools i = Some d.
Proof.
  induction f as [|f IH]; intros i d E; [discriminate|].
  cbn [Spec.depthOf] in E. change (Spec.depthOf (S (S f)) pools i)
    with (p ← Spec.poolOf pools i;
          match parentId p with
          | None => Some 0
          | Some q => d ← Spec.depthOf (S f) pools q; Some (d + 1)
          end).
  destruct (Spec.poolOf pools i) as [p|]; [|discriminate].
  cbn [mbind option_bind] in *.
  destruct (parentId p) as [q|]; [|exact E].
  destruct (Spec.depthOf f pools q) as [dq|] eqn:Eq; [|discriminate].
  rewrite (IH q dq Eq). exact E.
Qed.

Lemma intervalsMeet_sym a b : Spec.intervalsMeet a b = Spec.intervalsMeet b a.
Proof.
  unfold Spec.intervalsMeet. rewrite !Z.geb_leb. apply andb_comm.
Qed.

Lemma cidrExists_false table c :
  cidrExists table c = false -> c ∉ map cidr table.
Proof.
  unfold cidrExists. intros E Hin.
  apply list_elem_of_fmap in Hin as (row & -> & Hrow).
  apply list_elem_of_In in Hrow.
  assert (existsb (fun r => String.eqb (cidr r) (cidr row)) table = true).
  { apply existsb_exists. exists row. split; [assumption|apply String.eqb_refl]. }
  congruence.
Qed.

(** A pool that passes the checks of [validateCIDR] keeps the invariants. *)
Lemma invariants_cons pools new :
  Spec.invariants pools = true ->
  forallb (fun p => Spec.isValidCIDR (cidr p)) pools = true ->
  Spec.isValidCIDR (cidr new) = true ->
  id new ∉ map id pools ->
  cidr new ∉ map cidr pools ->
  (forall q, parentId new = Some q ->
     exists parent, parent ∈ pools /\ id parent = q /\
                    Spec.intervalInside (cidr new) (cidr parent) = true) ->
  (forall s, s ∈ pools -> parentId s = parentId new ->
     Spec.intervalsMeet (cidr new) (cidr s) = false) ->
  Spec.invariants (new :: pools) = true.
Proof.
  intros Hinv Hval Vn Hid Hcidr Hpar Hsib.
  destruct (invariants_parts pools Hinv) as (I1 & I2 & I3 & I4 & I5).
  unfold Spec.invariants.
  apply andb_true_iff; split;
    [apply andb_true_iff; split;
       [apply andb_true_iff; split; [apply andb_true_iff; split|]|]|].
  - apply bool_decide_eq_true. cbn [map]. now apply NoDup_cons.
  - apply bool_decide_eq_true. cbn [map]. now apply NoDup_cons.
  - cbn [forallb]. apply andb_true_iff. split.
    + destruct (parentId new) as [q|] eqn:Eq; [|reflexivity].
      destruct (Hpar q eq_refl) as (parent & Hp & Ei & Hin).
      assert (Hq : q ∈ map id pools)
        by (rewrite <- Ei; apply list_elem_of_fmap; eauto).
      rewrite (poolOf_cons new pools q Hid Hq).
      destruct (find_id pools q Hq) as (parent' & Ef & Hp' & Ei').
      unfold Spec.poolOf. rewrite Ef.
      pose proof (same_id pools I1 parent' parent Hp' Hp ltac:(congruence)).
      subst parent'.
      rewrite (inside_value _ _ Vn (forallb_member _ _ _ Hval Hp)), Hin.
      reflexivity.
    + apply forallb_intro. intros p Hp.
      pose proof (forallb_member _ _ _ I3 Hp) as H3. cbn beta in H3.
      destruct (parentId p) as [q|]; [|reflexivity].
      destruct (Spec.poolOf pools q) as [parent|] eqn:Ef; [|discriminate].
      assert (Hq : q ∈ map id pools).
      { unfold Spec.poolOf in Ef. apply List.find_some in Ef as [Hin Ei].
        apply Z.eqb_eq in Ei. subst q. apply list_elem_of_fmap. exists parent.
        split; [reflexivity|now apply list_elem_of_In]. }
      rewrite (poolOf_cons new pools q Hid Hq), Ef. exact H3.
  - assert (New : forall q, q ∈ pools ->
              Spec.isTrue (cidrsOverlap (cidr new) (cidr q)) = true ->
              parentId q <> parentId new).
    { intros q Hq Ho Ep.
      rewrite (overlap_value _ _ Vn (forallb_member _ _ _ Hval Hq)) in Ho.
      rewrite (Hsib q Hq Ep) in Ho. discriminate. }
    cbn [forallb]. apply andb_true_iff. split.
    + apply andb_true_iff. split.
      * rewrite Z.eqb_refl. reflexivity.
      * apply forallb_intro. intros q Hq.
        destruct (Spec.isTrue (cidrsOverlap (cidr new) (cidr q))) eqn:Ho;
          [|now rewrite orb_true_r].
        rewrite bool_decide_eq_false_2.
        -- now rewrite orb_true_r.
        -- intros E. now apply (New q Hq Ho).
    + apply forallb_intro. intros p Hp. apply andb_true_iff. split.
      * destruct (Spec.isTrue (cidrsOverlap (cidr p) (cidr new))) eqn:Ho;
          [|now rewrite orb_true_r].
        rewrite bool_decide_eq_false_2.
        -- now rewrite orb_true_r.
        -- apply (New p Hp).
           rewrite (overlap_value _ _ (forallb_member _ _ _ Hval Hp) Vn) in Ho.
           rewrite (overlap_value _ _ Vn (forallb_member _ _ _ Hval Hp)).
           now rewrite intervalsMeet_sym.
      * exact (forallb_member _ _ _ I4 Hp).
  - assert (Old : forall p, p ∈ pools ->
              exists d, Spec.depthOf (S (length pools)) (new :: pools) (id p) =
                        Some d).
    { intros p Hp. pose proof (forallb_member _ _ _ I5 Hp) as H5.
      cbn beta in H5.
      destruct (Spec.depthOf (S (length pools)) pools (id p)) as [d|] eqn:Ed;
        [|discriminate].
      exists d. now apply depthOf_cons. }
    cbn [forallb length]. apply andb_true_iff. split.
    + change (Spec.depthOf (S (S (length pools))) (new :: pools) (id new))
        with (p ← Spec.poolOf (new :: pools) (id new);
              match parentId p with
              | None => Some 0
              | Some q =>
                  d ← Spec.depthOf (S (length pools)) (new :: pools) q;
                  Some (d + 1)
              end).
      unfold Spec.poolOf. cbn [List.find]. rewrite Z.eqb_refl.
      cbn [mbind option_bind].
      destruct (parentId new) as [q|] eqn:Eq; [|reflexivity].
      destruct (Hpar q eq_refl) as (parent & Hp & <- & _).
      destruct (Old parent Hp) as (d & ->). reflexivity.
    + apply forallb_intro. intros p Hp. destruct (Old p Hp) as (d & Ed).
      now rewrite (depthOf_more _ _ _ _ Ed).
Qed.

(** X19.  Validation is sound for the invariants.  Over a collection that
    satisfies them, a valid candidate whose parent (if any) is in the
    collection and that [validateCIDR] leaves without error can be stored
    as the form then holds it, under a fresh id: the invariants still
    hold with the new pool. *)
Theorem validateCIDR_keeps_invariants pools c par st st' newId newName :
  Spec.invariants pools = true ->
  forallb (fun p => Spec.isValidCIDR (cidr p)) pools = true ->
  Spec.isValidCIDR c = true ->
  formCidr st = c ->
  newId ∉ map id pools ->
  (forall q, par = Some q -> q ∈ map id pools) ->
  validateCIDR pools pools c par st = Some st' ->
  validationError st' = EmptyString ->
  normalizeCIDR c = Some (formCidr st') /\
  Spec.isValidCIDR (formCidr st') = true /\
  Spec.invariants (mkPool newId newName (formCidr st') par :: pools) = true.
Proof.
  intros Hinv Hval Vc Ef Hid Hpar Ev Err.
  destruct (invariants_parts pools Hinv) as (I1 & _).
  destruct (verdict_facts pools pools c par st Vc
              (fun p Hp => forallb_member _ _ _ Hval Hp))
    as (c' & st0 & En & Ev0 & Eform & _ & _ & Acc).
  rewrite Ev in Ev0. injection Ev0 as <-.
  destruct (normalize_valid c Vc) as (c'' & En' & Vc').
  rewrite En in En'. injection En' as <-.
  assert (Ec : formCidr st' = c').
  { rewrite Eform. destruct (String.eqb_spec c' c); congruence. }
  rewrite Ec. split; [exact En|]. split; [exact Vc'|].
  apply Acc in Err as (Ex & Hin & Hsib).
  apply invariants_cons; cbn [id cidr parentId]; auto.
  - now apply cidrExists_false.
  - intros q Eq. destruct (find_id pools q (Hpar q Eq)) as (parent & Efd & Hp & Ei).
    exists parent. split; [exact Hp|]. split; [exact Ei|].
    exact (Hin q parent Eq Efd).
Qed.

Lemma validateCIDR_keeps_invariants_witness :
  exists st',
    validateCIDR chain chain "10.0.1.9/24" (Some 1)
      {| formCidr := "10.0.1.9/24"; validationError := EmptyString;
         cidrInfo := None |} = Some st' /\
    formCidr st' = "10.0.1.0/24"%string /\
    Spec.invariants (mkPool 4 "D" (formCidr st') (Some 1) :: chain) = true.
Proof.
  destruct (validateCIDR chain chain "10.0.1.9/24" (Some 1)
              {| formCidr := "10.0.1.9/24"; validationError := EmptyString;
                 cidrInfo := None |}) as [st'|] eqn:Ev.
  - exists st'. split; [reflexivity|].
    assert (Err : validationError st' = EmptyString).
    { vm_compute in Ev. injection Ev as <-. reflexivity. }
    assert (Ef : formCidr st' = "10.0.1.0/24"%string).
    { vm_compute in Ev. injection Ev as <-. reflexivity. }
    split; [exact Ef|].
    refine (proj2 (proj2 (validateCIDR_keeps_invariants chain "10.0.1.9/24"
              (Some 1) _ st' 4 "D" _ _ _ _ _ _ Ev Err))).
    + vm_compute. reflexivity.
    + vm_compute. reflexivity.
    + reflexivity.
    + reflexivity.
    + intros Hin.
      repeat (apply elem_of_cons in Hin as [Hin|Hin]; [discriminate|]).
      inversion Hin.
    + intros q Eq. injection Eq as <-. cbn. now left.
  - vm_compute in Ev. discriminate.
Defined.

End Soundness.
